(** * The routing core of orthanc

    A shallow embedding of [src/app/server/routing.py] and of the functions
    of [src/app/server/main.py] that compute with numbers (the route handler,
    the damage score, the seed coordinates), with the properties of the
    visiting orders, the costs and the scores.

    Python's [float] is IEEE 754 binary64, which is what Rocq's primitive
    [float] is: arithmetic and comparisons are the kernel's, NaN and the
    infinities included.  Exceptions are values of [result].  The functions of
    Python's [math] module that wrap the platform's libm, and the OR-Tools
    solver, are interfaces ([MathLib], [RoutingSolver]): the code is verified
    against every implementation of them. *)

From Stdlib Require Import String.
From Stdlib Require Import Floats ZArith List Bool Arith Lia.
From Stdlib Require Import Permutation Sorted.
Import ListNotations.

Set Implicit Arguments.
Local Open Scope float_scope.

(** ** Python values and exceptions *)

Module Py.

Inductive exn : Set :=
  | ValueError
  | OverflowError
  | ZeroDivisionError
  | IndexError.

Inductive result (A : Type) : Type :=
  | Ok (a : A)
  | Raise (e : exn).

Arguments Ok {A} a.
Arguments Raise {A} e.

Definition bind {A B : Type} (r : result A) (k : A -> result B) : result B :=
  match r with
  | Ok a => k a
  | Raise e => Raise e
  end.

(** A comprehension or [for] loop that builds a list, left to right; the first
    exception ends it. *)
Fixpoint mapM {A B : Type} (f : A -> result B) (l : list A) : result (list B) :=
  match l with
  | [] => Ok []
  | a :: t =>
      bind (f a) (fun b => bind (mapM f t) (fun bs => Ok (b :: bs)))
  end.

(** [l[i]] for an index that is not negative. *)
Definition getitem {A : Type} (l : list A) (i : nat) : result A :=
  match nth_error l i with
  | Some a => Ok a
  | None => Raise IndexError
  end.

(** [x > y] on floats. *)
Definition gt (x y : float) : bool := y <? x.

(** [bool(x)]: a float is false when it equals zero (of either sign); NaN is
    true. *)
Definition truthy (x : float) : bool := negb (x =? 0).

(** [x or y]. *)
Definition or_else (x y : float) : float := if truthy x then x else y.

(** [x / y]. *)
Definition truediv (x y : float) : result float :=
  if y =? 0 then Raise ZeroDivisionError else Ok (x / y).

(** The builtins [max(a, b)] and [min(a, b)]: the first argument stays unless
    the second is strictly greater (strictly less). *)
Definition max2 (a b : float) : float := if gt b a then b else a.
Definition min2 (a b : float) : float := if b <? a then b else a.

(** [max(iterable)]: [ValueError] on an empty one. *)
Definition max_of (l : list float) : result float :=
  match l with
  | [] => Raise ValueError
  | x :: t => Ok (fold_left max2 t x)
  end.

(** [math.radians(x)]: CPython multiplies by the double [pi / 180]. *)
Definition deg_to_rad : float :=
  Eval vm_compute in (0x1.921fb54442d18p+1 / 180).
Definition radians (x : float) : float := x * deg_to_rad.

(** [math.sqrt(x)]: the correctly rounded root; a negative argument is a
    domain error. *)
Definition math_sqrt (x : float) : result float :=
  if x <? 0 then Raise ValueError else Ok (sqrt x).

(** [round(x)] with one argument: the nearest integer, halves to the even
    one; NaN and the infinities have none. *)
Definition round_half_even (m : positive) (e : Z) : Z :=
  match e with
  | Zneg p =>
      let d := Z.pow_pos 2 p in
      let q := Z.div (Zpos m) d in
      let r := Z.modulo (Zpos m) d in
      match Z.compare (2 * r) d with
      | Lt => q
      | Gt => q + 1
      | Eq => if Z.even q then q else q + 1
      end
  | _ => Zpos m * 2 ^ e
  end%Z.

Definition round (x : float) : result Z :=
  match Prim2SF x with
  | S754_nan => Raise ValueError
  | S754_infinity _ => Raise OverflowError
  | S754_zero _ => Ok 0%Z
  | S754_finite s m e =>
      let z := round_half_even m e in
      Ok (if s then Z.opp z else z)
  end.

End Py.

Import Py.

Notation "x <- c1 ;; c2" := (bind c1 (fun x => c2))
  (at level 61, c1 at next level, right associativity).

(** ** The interfaces the code calls *)

(** The functions of [math] (and [float.__pow__]) that go to the platform's
    libm; their results are not fixed by IEEE 754, and each may raise. *)
Class MathLib : Type := {
  math_sin : float -> result float;
  math_cos : float -> result float;
  math_atan2 : float -> float -> result float;
  float_pow : float -> float -> result float
}.

(** [ortools.constraint_solver]: whether the import succeeds, and what
    [SolveWithParameters] finds for [n] nodes and a cost matrix: [None] for no
    assignment, else the nodes read from [routing.Start(0)] until
    [routing.IsEnd]. *)
Class RoutingSolver : Type := {
  ortools_importable : bool;
  SolveWithParameters : nat -> list (list Z) -> option (list nat)
}.

(** [manager.IndexToNode] yields nodes below the node count. *)
Definition solver_nodes_in_range (Sv : RoutingSolver) : Prop :=
  forall n m order,
    SolveWithParameters n m = Some order -> Forall (fun v => (v < n)%nat) order.

Definition coord : Type := float * float.
Definition site : Type := float * float * float.

Section Routing.

Context {M : MathLib} {Sv : RoutingSolver}.

(** *** [haversine_km] *)

Definition haversine_km (lat1 lng1 lat2 lng2 : float) : result float :=
  let R := 6371 in
  let phi1 := radians lat1 in
  let phi2 := radians lat2 in
  let dphi := radians (lat2 - lat1) in
  let dlam := radians (lng2 - lng1) in
  s1 <- math_sin (dphi / 2) ;;
  p1 <- float_pow s1 2 ;;
  c1 <- math_cos phi1 ;;
  c2 <- math_cos phi2 ;;
  s2 <- math_sin (dlam / 2) ;;
  p2 <- float_pow s2 2 ;;
  let a := p1 + c1 * c2 * p2 in
  q1 <- math_sqrt a ;;
  q2 <- math_sqrt (1 - a) ;;
  t <- math_atan2 q1 q2 ;;
  let c := 2 * t in
  Ok (R * c).

(** The distance between two nodes of a coordinate table, as every caller
    writes it: [haversine_km(coords[a][0], coords[a][1], coords[b][0],
    coords[b][1])]. *)
Definition leg_km (coords : list coord) (a b : nat) : result float :=
  ca <- getitem coords a ;;
  cb <- getitem coords b ;;
  haversine_km (fst ca) (snd ca) (fst cb) (snd cb).

(** *** [_route_order_greedy] *)

(** [unvisited] is a Python set of small integers built from [range(1, n)];
    CPython iterates such a set in ascending order, and [discard] keeps the
    order of the rest.  It is a list here, in iteration order. *)
Definition discard (j : nat) (unvisited : list nat) : list nat :=
  filter (fun k => negb (Nat.eqb k j)) unvisited.

(** The list [dists] of one step. *)
Definition dists_from (coords : list coord) (current : nat)
    (unvisited : list nat) : result (list (nat * float)) :=
  c <- getitem coords current ;;
  mapM (fun j =>
          cj <- getitem coords j ;;
          d <- haversine_km (fst c) (snd c) (fst cj) (snd cj) ;;
          Ok (j, d))
       unvisited.

(** [d_max]. *)
Definition d_max_of (dists : list (nat * float)) : result float :=
  m <- max_of (map snd dists) ;;
  Ok (or_else m 1).

(** The score of site [j] at distance [d]. *)
Definition site_score (damage_scores : list float) (damage_weight d_max : float)
    (j : nat) (d : float) : result float :=
  dmg <- getitem damage_scores j ;;
  let damage_norm := dmg / 100 in
  dist_norm <- truediv d d_max ;;
  Ok (damage_weight * damage_norm - (1 - damage_weight) * dist_norm).

(** The scan for [best_j]: the state is [(best_j, best_score)]. *)
Fixpoint pick_best (damage_scores : list float) (damage_weight d_max : float)
    (dists : list (nat * float)) (best : option nat * float)
    : result (option nat * float) :=
  match dists with
  | [] => Ok best
  | (j, d) :: rest =>
      score <- site_score damage_scores damage_weight d_max j d ;;
      pick_best damage_scores damage_weight d_max rest
        (if gt score (snd best) then (Some j, score) else best)
  end.

(** One round of the [while] loop: [None] for a [break], else the site
    appended and the length of the leg to it. *)
Definition greedy_step (coords : list coord) (damage_scores : list float)
    (damage_weight : float) (unvisited : list nat) (current : nat)
    : result (option (nat * float)) :=
  dists <- dists_from coords current unvisited ;;
  match dists with
  | [] => Ok None
  | _ :: _ =>
      d_max <- d_max_of dists ;;
      best <- pick_best damage_scores damage_weight d_max dists
                (None, neg_infinity) ;;
      match fst best with
      | None => Ok None
      | Some j =>
          d_km <- leg_km coords current j ;;
          Ok (Some (j, d_km))
      end
  end.

(** The [while unvisited] loop.  Every round that does not break removes a
    site from [unvisited], so [length unvisited] rounds are enough
    ([greedy_loop_fuel] below). *)
Fixpoint greedy_loop (fuel : nat) (coords : list coord)
    (damage_scores : list float) (damage_weight : float)
    (unvisited path : list nat) (total_distance_km : float) (current : nat)
    : result (list nat * float) :=
  match unvisited, fuel with
  | [], _ | _, O => Ok (path, total_distance_km)
  | _ :: _, S fuel' =>
      step <- greedy_step coords damage_scores damage_weight unvisited current ;;
      match step with
      | None => Ok (path, total_distance_km)
      | Some (j, d_km) =>
          greedy_loop fuel' coords damage_scores damage_weight
            (discard j unvisited) (path ++ [j])
            (total_distance_km + d_km) j
      end
  end.

Definition _route_order_greedy (coords : list coord)
    (damage_scores : list float) (damage_weight : float)
    : result (list nat * float) :=
  let n := length coords in
  if (n <=? 1)%nat then Ok ([0%nat], 0)
  else
    let unvisited := seq 1 (n - 1) in
    greedy_loop (length unvisited) coords damage_scores damage_weight
      unvisited [0%nat] 0 0%nat.

(** *** [total_distance_km_along_order] and [total_distance_km] *)

(** The [for] loop over consecutive nodes, [total] being the running sum. *)
Fixpoint sum_legs (coords : list coord) (order : list nat) (total : float)
    : result float :=
  match order with
  | [] => Ok total
  | a :: rest =>
      match rest with
      | [] => Ok total
      | b :: _ =>
          d <- leg_km coords a b ;;
          sum_legs coords rest (total + d)
      end
  end.

Definition total_distance_km_along_order (order : list nat)
    (coords : list coord) : result float :=
  if (length order <=? 1)%nat then Ok 0 else sum_legs coords order 0.

Definition total_distance_km (order : list nat) (coords : list coord)
    : result float :=
  total_distance_km_along_order order coords.

(** *** [_route_order_tsp] *)

(** One entry of [cost_matrix]. *)
Definition cost_entry (coords : list coord) (damage_scores : list float)
    (damage_weight : float) (i j : nat) : result Z :=
  if (i =? j)%nat then Ok 0%Z
  else
    d_km <- leg_km coords i j ;;
    damage <- (if (j <? length damage_scores)%nat
               then getitem damage_scores j else Ok 0) ;;
    let cost_km := d_km * (1 - damage_weight * damage / 100) in
    let cost_km := if (j =? 0)%nat then 0 else cost_km in
    round (cost_km * 1000).

Definition cost_matrix_of (coords : list coord) (damage_scores : list float)
    (damage_weight : float) : result (list (list Z)) :=
  let n := length coords in
  mapM (fun i => mapM (cost_entry coords damage_scores damage_weight i) (seq 0 n))
       (seq 0 n).

(** [if order and order[-1] == 0 and len(order) > 1: order.pop()]. *)
Definition drop_closing_hub (order : list nat) : list nat :=
  match order with
  | [] => order
  | _ :: _ =>
      if ((last order 0 =? 0) && (1 <? length order))%nat
      then removelast order else order
  end.

Definition _route_order_tsp (coords : list coord) (damage_scores : list float)
    (damage_weight : float) : result (list nat * float) :=
  if negb ortools_importable
  then _route_order_greedy coords damage_scores damage_weight
  else
    let n := length coords in
    if (n <=? 1)%nat then Ok ([0%nat], 0)
    else
      cost_matrix <- cost_matrix_of coords damage_scores damage_weight ;;
      match SolveWithParameters n cost_matrix with
      | None => _route_order_greedy coords damage_scores damage_weight
      | Some visited =>
          let order := drop_closing_hub visited in
          total_distance_km <- total_distance_km_along_order order coords ;;
          Ok (order, total_distance_km)
      end.

(** *** [route_order] *)

Definition clamp_weight (damage_weight : float) : float :=
  max2 0 (min2 1 damage_weight).

Definition site_coord (s : site) : coord := (fst (fst s), snd (fst s)).
Definition site_damage (s : site) : float := snd s.

(** The arrays [coords] and [damage_scores], the hub at index 0. *)
Definition coords_of (hub : coord) (sites : list site) : list coord :=
  hub :: map site_coord sites.
Definition damage_scores_of (sites : list site) : list float :=
  0 :: map site_damage sites.

Definition route_order (hub : coord) (sites : list site)
    (damage_weight : float) (algorithm : string)
    : result (list nat * float) :=
  let damage_weight := clamp_weight damage_weight in
  match sites with
  | [] => Ok ([0%nat], 0)
  | _ :: _ =>
      let coords := coords_of hub sites in
      let damage_scores := damage_scores_of sites in
      if String.eqb algorithm "tsp"
      then _route_order_tsp coords damage_scores damage_weight
      else _route_order_greedy coords damage_scores damage_weight
  end.

(** *** [compute_route] ([main.py]) *)

(** [req.algorithm if req.algorithm in ("greedy", "tsp") else "greedy"]. *)
Definition normalise_algorithm (algorithm : string) : string :=
  if (String.eqb algorithm "greedy" || String.eqb algorithm "tsp")%bool
  then algorithm else "greedy"%string.

(** The order, [dist_km] and [cost_km] of the [/route] handler, as they are
    before the response rounds the two distances to four decimals. *)
Definition compute_route (hub : coord) (sites : list site)
    (damage_weight : float) (algorithm : string)
    : result (list nat * float * float) :=
  match sites with
  | [] => Ok ([0%nat], 0, 0)
  | _ :: _ =>
      let algo := normalise_algorithm algorithm in
      r <- route_order hub sites damage_weight algo ;;
      let coords := hub :: map site_coord sites in
      dist_km <- total_distance_km (fst r) coords ;;
      Ok (fst r, dist_km, snd r)
  end.

(** *** Conditions on the inputs *)

(** A damage weight and a damage score within the ranges of the data model. *)
Definition weight_in_range (w : float) : Prop :=
  (0 <=? w) = true /\ (w <=? 1) = true.

Definition damage_in_range (dmg : float) : Prop :=
  (0 <=? dmg) = true /\ (dmg <=? 100) = true.

(** Every distance between two nodes of the table is computed without an
    exception. *)
Definition legs_defined (coords : list coord) : Prop :=
  forall a b, (a < length coords)%nat -> (b < length coords)%nat ->
    exists d, leg_km coords a b = Ok d.

(** Every distance computed is a finite number that is not negative. *)
Definition legs_finite (coords : list coord) : Prop :=
  forall a b d, leg_km coords a b = Ok d ->
    (0 <=? d) = true /\ (d <? infinity) = true.

(** The distance from [a] to [b] is the distance from [b] to [a]. *)
Definition legs_symmetric (coords : list coord) : Prop :=
  forall a b, leg_km coords a b = leg_km coords b a.

(** The score formula as a value, for a divisor that is not zero. *)
Definition score_value (damage_weight dmg d d_max : float) : float :=
  damage_weight * (dmg / 100) - (1 - damage_weight) * (d / d_max).

(** Every score the scan can compute is a number above its starting
    [best_score] of minus infinity (so neither NaN nor minus infinity):
    whatever the current node [cur], the site [j] scored and the node [k]
    whose distance from [cur], not exceeded by that of [j], became
    [d_max]. *)
Definition scores_above_sentinel (coords : list coord)
    (damage_scores : list float) (damage_weight : float) : Prop :=
  forall cur j k dmg dj dk,
    (1 <= j)%nat -> (1 <= k)%nat ->
    nth_error damage_scores j = Some dmg ->
    leg_km coords cur j = Ok dj ->
    leg_km coords cur k = Ok dk ->
    gt dj dk = false ->
    gt (score_value damage_weight dmg dj (or_else dk 1)) neg_infinity = true.

End Routing.

(** ** Implementations of the interfaces, to run the code on examples *)

(** A math library for small angles near the equator: [sin x] is [x],
    [cos x] is [1], [atan2(y, x)] is [y] and [x ** 2] is [x * x]. *)
Definition flat_math : MathLib := {|
  math_sin := fun x => Ok x;
  math_cos := fun _ => Ok 1;
  math_atan2 := fun y _ => Ok y;
  float_pow := fun x _ => Ok (x * x)
|}.

(** The solver package is not installed. *)
Definition no_ortools : RoutingSolver := {|
  ortools_importable := false;
  SolveWithParameters := fun _ _ => None
|}.

(** A solver that visits the nodes in index order. *)
Definition index_order_solver : RoutingSolver := {|
  ortools_importable := true;
  SolveWithParameters := fun n _ => Some (seq 0 n)
|}.

(** A solver that is installed and finds no assignment. *)
Definition infeasible_solver : RoutingSolver := {|
  ortools_importable := true;
  SolveWithParameters := fun _ _ => None
|}.

(** The scenario of the specification: the hub at (0, 0) and three sites at
    (0, 1), (0, 2), (1, 0) with damage scores 10, 90, 50. *)
Definition demo_hub : coord := (0, 0).
Definition demo_sites : list site := [(0, 1, 10); (0, 2, 90); (1, 0, 50)].

(** ** Definitions and tactics for the proofs *)

Module F64.

(** The comparison of two floats, [None] when one is NaN. *)
Definition fcmp (x y : float) : option comparison :=
  SFcompare (Prim2SF x) (Prim2SF y).

(** [x] is zero or finite with magnitude below [2 ^ B]; [y] is finite with
    magnitude at least [2 ^ (C - 1)]. *)
Definition below (B : Z) (x : spec_float) : Prop :=
  match x with
  | S754_zero _ => True
  | S754_finite _ m e => (Zpos (digits2_pos m) + e <= B)%Z
  | _ => False
  end.

Definition above (C : Z) (y : spec_float) : Prop :=
  match y with
  | S754_finite _ m e => (C <= Zpos (digits2_pos m) + e)%Z
  | _ => False
  end.

Ltac cmp_cases :=
  repeat match goal with
  | H : context [Z.compare ?a ?b] |- _ => destruct (Z.compare_spec a b)
  | |- context [Z.compare ?a ?b] => destruct (Z.compare_spec a b)
  | H : context [Pos.compare_cont Eq ?a ?b] |- _ =>
      change (Pos.compare_cont Eq a b) with (Pos.compare a b) in *;
      destruct (Pos.compare_spec a b)
  | |- context [Pos.compare_cont Eq ?a ?b] =>
      change (Pos.compare_cont Eq a b) with (Pos.compare a b) in *;
      destruct (Pos.compare_spec a b)
  end.

Ltac sf_destruct :=
  repeat match goal with
  | x : spec_float |- _ => destruct x as [[|]|[|]| |[|] ? ?]
  end.

(** Decides a fact about the order of [spec_float]s by its cases. *)
Ltac sf_order :=
  unfold SFltb, SFleb, SFeqb, SFcompare in *; sf_destruct; simpl in *;
  try discriminate; try reflexivity; try tauto;
  cmp_cases; simpl in *; subst;
  try discriminate; try reflexivity; try lia; try tauto.

End F64.

(** The scan of [pick_best] over sites already scored. *)
Fixpoint scan (scored : list (nat * float)) (best : option nat * float)
    : option nat * float :=
  match scored with
  | [] => best
  | (j, s) :: rest =>
      scan rest (if gt s (snd best) then (Some j, s) else best)
  end.

(** A site and its score, for a site and its distance. *)
Definition scored_as (damage_scores : list float)
    (damage_weight d_max : float) (jd js : nat * float) : Prop :=
  fst js = fst jd /\
  site_score damage_scores damage_weight d_max (fst jd) (snd jd) = Ok (snd js).

(** The unvisited indices are sites of the table. *)
Definition site_indices (coords : list coord) (u : list nat) : Prop :=
  forall k, In k u -> (1 <= k < length coords)%nat.

(** Four points on the equator, and an order through them. *)
Definition equator_coords : list coord := [(0, 0); (0, 1); (0, 2); (0, 4)].
Definition equator_order : list nat := [0; 1; 3; 2]%nat.

(** Two damage scores one unit in the last place apart, near 50: dividing
    either by 100 gives the same float. *)
Definition damage_lo : float := 0x1.9000000000001p+5.
Definition damage_hi : float := 0x1.9000000000002p+5.

(** Case analysis on an index below a bound [n] (as a numeral), with [H]
    saying so. *)
Tactic Notation "index_cases" ident(i) hyp(H) integer(n) :=
  do n (try (destruct i as [|i]; [|try (exfalso; simpl in H; lia)]));
  try (exfalso; simpl in H; lia).

(** ** Numbers of [main.py] *)

(** [float(z)] for a Python int [z], as the arithmetic operators convert an
    int operand of a float operation: the nearest float, halves to the even
    one, and [OverflowError] past the largest float. *)
Definition int_to_float (z : Z) : result float :=
  match binary_normalize prec emax z 0 false with
  | S754_infinity _ => Raise OverflowError
  | sf => Ok (SF2Prim sf)
  end.

(** [round(x, ndigits)] for a float and [ndigits >= 0]: the decimal number
    with [ndigits] digits after the point that is nearest to the exact value
    of [x] (halves to the even one), then the float nearest to that decimal;
    NaN, the infinities and the zeros are returned as they are. *)
Definition round_ndigits (x : float) (ndigits : nat) : float :=
  match Prim2SF x with
  | S754_finite s m e =>
      let p := Pos.pow 10 (Pos.of_nat ndigits) in
      let p := match ndigits with O => 1%positive | _ => p end in
      match round_half_even (m * p) e with
      | Zpos n =>
          SF2Prim (SFdiv prec emax (S754_finite s n 0) (S754_finite false p 0))
      | _ => SF2Prim (S754_zero s)
      end
  | _ => x
  end.

(** The float of the format whose value is the integer [V], for
    [0 <= V < 2 ^ 53]: a mantissa of 53 digits and its exponent. *)
Definition int_rep (V : Z) : spec_float :=
  match V with
  | Zpos _ =>
      S754_finite false (Z.to_pos (V * 2 ^ (53 - Zdigits2 V)))
        (Zdigits2 V - 53)
  | _ => S754_zero false
  end.

(** A [dict] with string keys is the list of its items in insertion order,
    the keys distinct; [d.get(k, default)] and [sum(d.values())]. *)
Fixpoint dict_get (V : Type) (d : list (string * V)) (k : string)
    (default : V) : V :=
  match d with
  | [] => default
  | (k', v) :: rest => if String.eqb k' k then v else dict_get rest k default
  end.

(** [d[k] = v]: the value of a key that is there is replaced, a new key goes
    to the end. *)
Fixpoint dict_set (V : Type) (d : list (string * V)) (k : string) (v : V)
    : list (string * V) :=
  match d with
  | [] => [(k, v)]
  | (k', v') :: rest =>
      if String.eqb k' k then (k', v) :: rest
      else (k', v') :: dict_set rest k v
  end.

Definition sum_values (d : list (string * Z)) : Z :=
  fold_left Z.add (map snd d) 0%Z.

(** A [for] loop that updates an accumulator, left to right; the first
    exception ends it. *)
Fixpoint foldM (A B : Type) (f : B -> A -> result B) (l : list A) (b : B)
    : result B :=
  match l with
  | [] => Ok b
  | a :: t => b' <- f b a ;; foldM f t b'
  end.

(** *** [_calculate_damage_score] *)

Definition damage_weights : list (string * float) :=
  [("no_damage", 0); ("minor_damage", 25); ("major_damage", 75);
   ("destroyed", 100)]%string.

(** [counts] maps a category to a pixel count, a Python int; the argument
    [pred] of the source is not read. *)
Definition _calculate_damage_score (counts : list (string * Z))
    : result float :=
  let total_building_pixels := sum_values counts in
  if (total_building_pixels =? 0)%Z then Ok 0
  else
    weighted_sum <-
      foldM (fun weighted_sum cw =>
               let pixel_count := dict_get counts (fst cw) 0%Z in
               c <- int_to_float pixel_count ;;
               Ok (weighted_sum + c * snd cw))
            damage_weights 0 ;;
    t <- int_to_float total_building_pixels ;;
    damage_score <- truediv weighted_sum t ;;
    Ok (round_ndigits damage_score 2).

(** *** The percentages of [predict] *)

(** [round(100.0 * px / total, 2)], the [percent] of the background: [px]
    is [background_px], an [int(...)], and [total] is [pred.size], both
    Python ints.  The loop over the classes evaluates the same expression
    on the values of [counts]. *)
Definition stats_percent (px total : Z) : result float :=
  fpx <- int_to_float px ;;
  ftotal <- int_to_float total ;;
  q <- truediv (100 * fpx) ftotal ;;
  Ok (round_ndigits q 2).

(** *** [_seed_coords_around_hub] *)

(** The floats that Python reads for [39.7392], [-104.9903] and [0.035]. *)
Definition _SEED_HUB_LAT : float := 0x1.3de9e1b089a02p+5.
Definition _SEED_HUB_LNG : float := -0x1.a3f6113404ea5p+6.
Definition _SEED_RADIUS_DEG : float := 0x1.1eb851eb851ecp-5.
Definition _N_SEED_STOPS : Z := 7.

Section Seeds.

Context {M : MathLib}.

(** [n] is a Python int; [range(n)] is empty when it is not positive.  In
    [360.0 * i / n] the ints [i] and [n] are converted to floats. *)
Definition _seed_coords_around_hub (n : Z) : result (list coord) :=
  mapM (fun i : nat =>
          fi <- int_to_float (Z.of_nat i) ;;
          fn <- int_to_float n ;;
          angle_deg <- truediv (360 * fi) fn ;;
          let angle_rad := radians angle_deg in
          c <- math_cos angle_rad ;;
          let dlat := _SEED_RADIUS_DEG * c in
          s <- math_sin angle_rad ;;
          let dlng := _SEED_RADIUS_DEG * s in
          Ok (_SEED_HUB_LAT + dlat, _SEED_HUB_LNG + dlng))
       (seq 0 (Z.to_nat n)).

Definition _COLORADO_COORDS : result (list coord) :=
  _seed_coords_around_hub _N_SEED_STOPS.

End Seeds.

(** *** [compute_route], with the fields of its response *)

Record RouteRequest : Type := {
  req_hub : coord;
  req_sites : list site;
  req_damage_weight : float;
  req_algorithm : string
}.

Record RouteResponse : Type := {
  resp_order : list nat;
  resp_total_distance_km : float;
  resp_total_cost_km : float;
  resp_damage_weight : float;
  resp_algorithm : string
}.

Section Handler.

Context {M : MathLib} {Sv : RoutingSolver}.

Definition compute_route_response (req : RouteRequest)
    : result RouteResponse :=
  match req_sites req with
  | [] =>
      Ok {| resp_order := [0%nat];
            resp_total_distance_km := 0;
            resp_total_cost_km := 0;
            resp_damage_weight := req_damage_weight req;
            resp_algorithm := req_algorithm req |}
  | _ :: _ =>
      let algo := normalise_algorithm (req_algorithm req) in
      let hub := req_hub req in
      let sites := req_sites req in
      r <- route_order hub sites (req_damage_weight req) algo ;;
      let coords := hub :: map site_coord sites in
      dist_km <- total_distance_km (fst r) coords ;;
      Ok {| resp_order := fst r;
            resp_total_distance_km := round_ndigits dist_km 4;
            resp_total_cost_km := round_ndigits (snd r) 4;
            resp_damage_weight := req_damage_weight req;
            resp_algorithm := algo |}
  end.

End Handler.

(** * Facts about binary64 *)

Module F64Facts.

Import F64.

Lemma ltb_trans (x y z : float) :
  (x <? y) = true -> (y <? z) = true -> (x <? z) = true.
Proof.
  rewrite !ltb_spec. generalize (Prim2SF x) (Prim2SF y) (Prim2SF z).
  intros a b c. sf_order.
Qed.


Lemma ltb_not_leb (x y : float) : (x <? y) = true -> (y <=? x) = false.
Proof.
  rewrite ltb_spec, leb_spec. generalize (Prim2SF x) (Prim2SF y).
  intros a b. sf_order.
Qed.


Lemma not_ltb_ltb_trans (p q s : float) :
  (p <? q) = false -> (p <? s) = true -> (s <=? q) = false.
Proof.
  rewrite !ltb_spec, leb_spec.
  generalize (Prim2SF p) (Prim2SF q) (Prim2SF s). intros a b c. sf_order.
Qed.

(** Two floats above minus infinity are comparable. *)
Lemma not_leb_ltb (a b : float) :
  gt a neg_infinity = true -> gt b neg_infinity = true ->
  (a <=? b) = false -> (b <? a) = true.
Proof.
  unfold gt. rewrite !ltb_spec, leb_spec.
  change (Prim2SF neg_infinity) with (S754_infinity true).
  generalize (Prim2SF a) (Prim2SF b). intros x y. sf_order.
Qed.

Lemma not_ltb_leb (a b : float) :
  gt a neg_infinity = true -> gt b neg_infinity = true ->
  (a <? b) = false -> (b <=? a) = true.
Proof.
  unfold gt. rewrite !ltb_spec, leb_spec.
  change (Prim2SF neg_infinity) with (S754_infinity true).
  generalize (Prim2SF a) (Prim2SF b). intros x y. sf_order.
Qed.


Lemma ltb_irrefl (a : float) : (a <? a) = false.
Proof.
  rewrite ltb_spec. generalize (Prim2SF a). intros x. sf_order.
Qed.

Lemma ltb_asym (x y : float) : (x <? y) = true -> (y <? x) = false.
Proof.
  rewrite !ltb_spec. generalize (Prim2SF x) (Prim2SF y).
  intros a b. sf_order.
Qed.

Lemma not_leb_not_ltb (x y : float) : (x <=? y) = false -> (x <? y) = false.
Proof.
  rewrite ltb_spec, leb_spec. generalize (Prim2SF x) (Prim2SF y).
  intros a b. sf_order.
Qed.

(** NaN absorbs a subtraction and a product. *)
Lemma sub_nan_l (y : float) : nan - y = nan.
Proof.
  apply Prim2SF_inj. rewrite sub_spec.
  change (Prim2SF nan) with S754_nan. reflexivity.
Qed.

Lemma mul_nan_r (x : float) : x * nan = nan.
Proof.
  apply Prim2SF_inj. rewrite mul_spec.
  change (Prim2SF nan) with S754_nan.
  destruct (Prim2SF x) as [[|]|[|]| |[|] ? ?]; reflexivity.
Qed.

(** *** Multiplying by one is exact *)

Lemma digits2_pos_iter_xO (m n : positive) :
  Zpos (digits2_pos (Pos.iter xO m n)) = (Zpos (digits2_pos m) + Zpos n)%Z.
Proof.
  revert m. induction n using Pos.peano_ind; intros m.
  - simpl. lia.
  - rewrite Pos.iter_succ. simpl digits2_pos. rewrite Pos2Z.inj_succ, IHn. lia.
Qed.

Lemma iter_pos_iter (A : Type) (f : A -> A) (n : positive) (x : A) :
  SpecFloat.iter_pos f n x = Pos.iter f x n.
Proof.
  revert x. induction n; intros x; simpl; rewrite ?IHn; try reflexivity.
  rewrite <- !Pos.iter_swap. reflexivity.
Qed.

Lemma iter_pos_shr_1_exact (m n : positive) :
  SpecFloat.iter_pos shr_1 n
    {| shr_m := Zpos (Pos.iter xO m n); shr_r := false; shr_s := false |}
  = {| shr_m := Zpos m; shr_r := false; shr_s := false |}.
Proof.
  rewrite iter_pos_iter. revert m.
  induction n using Pos.peano_ind; intros m.
  - reflexivity.
  - rewrite Pos.iter_succ_r, Pos.iter_succ. simpl. apply IHn.
Qed.

Lemma SFmul_one_l (x : spec_float) :
  valid_binary x = true ->
  SF64mul (S754_finite false 4503599627370496 (-52)) x = x.
Proof.
  intros Hv.
  destruct x as [s|s| |s m e]; try reflexivity.
  unfold SF64mul, SFmul.
  change (4503599627370496 * m)%positive with (Pos.iter xO m 52).
  cbn [xorb].
  cbn [valid_binary] in Hv. unfold bounded, canonical_mantissa in Hv.
  apply andb_prop in Hv. destruct Hv as [Hc Hb].
  apply Z.eqb_eq in Hc.
  unfold binary_round_aux, shr_fexp at 1.
  cbn [Zdigits2]. rewrite digits2_pos_iter_xO.
  replace (Z.pos (digits2_pos m) + 52 + (-52 + e))%Z
    with (Z.pos (digits2_pos m) + e)%Z by lia.
  rewrite Hc.
  replace (e - (-52 + e))%Z with 52%Z by lia.
  cbn [shr shr_record_of_loc]. rewrite iter_pos_shr_1_exact.
  cbn [shr_m loc_of_shr_record round_nearest_even].
  unfold shr_fexp. cbn [Zdigits2].
  replace (-52 + e + 52)%Z with e by lia.
  rewrite Hc, Z.sub_diag. cbn [shr shr_record_of_loc shr_m].
  rewrite Hb. reflexivity.
Qed.

Lemma mul_1_l (x : float) : 1 * x = x.
Proof.
  apply Prim2SF_inj. rewrite mul_spec.
  change (Prim2SF 1) with (S754_finite false 4503599627370496 (-52)).
  apply SFmul_one_l, Prim2SF_valid.
Qed.

(** *** Subtracting a product with zero *)

(** [x - 0 * q] is NaN or compares as [x] does. *)
Lemma SF_sub_zero_mul (x q c : spec_float) :
  let r := SF64sub x (SF64mul (S754_zero false) q) in
  r = S754_nan \/ (SFcompare r c = SFcompare x c /\ SFcompare c r = SFcompare c x).
Proof.
  unfold SF64sub, SF64mul, SFsub, SFmul.
  destruct q as [[|]|[|]| |[|] ? ?], x as [[|]|[|]| |[|] ? ?]; simpl; auto;
    right; split; reflexivity || (destruct c as [[|]|[|]| |[|] ? ?]; reflexivity).
Qed.

Lemma sub_zero_mul_cmp (x q c : float) :
  gt (x - 0 * q) neg_infinity = true ->
  fcmp (x - 0 * q) c = fcmp x c /\ fcmp c (x - 0 * q) = fcmp c x.
Proof.
  unfold gt, fcmp. rewrite ltb_spec, sub_spec, mul_spec.
  change (Prim2SF neg_infinity) with (S754_infinity true).
  change (Prim2SF 0) with (S754_zero false).
  intros H.
  destruct (SF_sub_zero_mul (Prim2SF x) (Prim2SF q) (Prim2SF c)) as [E|E];
    [|exact E].
  rewrite E in H. discriminate.
Qed.

Lemma ltb_fcmp (x y : float) :
  (x <? y) = match fcmp x y with Some Lt => true | _ => false end.
Proof. unfold fcmp. rewrite ltb_spec. reflexivity. Qed.

Lemma leb_fcmp (x y : float) :
  (x <=? y) = match fcmp x y with Some (Lt | Eq) => true | _ => false end.
Proof. unfold fcmp. rewrite leb_spec. reflexivity. Qed.

(** *** Addition *)

Lemma SFadd_comm (x y : spec_float) : SF64add x y = SF64add y x.
Proof.
  unfold SF64add, SFadd.
  destruct x as [[|]|[|]| |sx mx ex], y as [[|]|[|]| |sy my ey];
    try reflexivity.
  rewrite (Z.min_comm ey ex). f_equal. apply Z.add_comm.
Qed.

Lemma SFadd_zero_swap (x y : spec_float) :
  SF64add (SF64add (S754_zero false) x) y
  = SF64add (SF64add (S754_zero false) y) x.
Proof.
  destruct x as [[|]|[|]| |sx mx ex], y as [[|]|[|]| |sy my ey];
    try reflexivity.
  change (SF64add (S754_zero false) (S754_finite sx mx ex))
    with (S754_finite sx mx ex).
  change (SF64add (S754_zero false) (S754_finite sy my ey))
    with (S754_finite sy my ey).
  apply SFadd_comm.
Qed.

(** Two numbers added to a zero total give the same total in either
    order. *)
Lemma add_zero_swap (x y : float) : 0 + x + y = 0 + y + x.
Proof.
  apply Prim2SF_inj. rewrite !add_spec.
  change (Prim2SF 0) with (S754_zero false). apply SFadd_zero_swap.
Qed.

End F64Facts.

(** * Magnitudes of binary64 results *)

Module F64Magnitude.

Import F64 F64Facts.

Local Open Scope Z_scope.
Local Unset Implicit Arguments.

Lemma fexp_eq (x : Z) : fexp prec emax x = Z.max (x - 53) (-1074).
Proof. reflexivity. Qed.

Lemma digits2_size (p : positive) : digits2_pos p = Pos.size p.
Proof. induction p; simpl; congruence. Qed.

Lemma Zdigits2_nonneg (m : Z) : 0 <= Zdigits2 m.
Proof. destruct m; simpl; lia. Qed.

Lemma Zdigits2_bounds (m : Z) :
  0 < m -> 2 ^ (Zdigits2 m - 1) <= m < 2 ^ Zdigits2 m.
Proof.
  destruct m as [|p|p]; try lia. intros _. simpl Zdigits2.
  rewrite digits2_size.
  pose proof (Pos.size_gt p) as Hgt. pose proof (Pos.size_le p) as Hle.
  apply Pos2Z.pos_lt_pos in Hgt. apply Pos2Z.pos_le_pos in Hle.
  rewrite Pos2Z.inj_pow in Hgt, Hle.
  split; [|exact Hgt].
  assert (E : 2 ^ Z.pos (Pos.size p) = 2 * 2 ^ (Z.pos (Pos.size p) - 1)).
  { rewrite <- Z.pow_succ_r by lia. f_equal. lia. }
  change (2 * 1) with 2 in Hle. rewrite E in Hle. lia.
Qed.

Lemma Zdigits2_le (m k : Z) : 0 <= m -> 0 <= k -> m < 2 ^ k -> Zdigits2 m <= k.
Proof.
  intros Hm Hk Hlt. destruct (Z.eq_dec m 0) as [->|Hne]; [simpl; lia|].
  destruct (Zdigits2_bounds m) as [Hlo _]; [lia|].
  destruct (Z.le_gt_cases (Zdigits2 m) k) as [H|H]; [exact H|].
  assert (2 ^ k <= 2 ^ (Zdigits2 m - 1)) by (apply Z.pow_le_mono_r; lia).
  lia.
Qed.

Lemma Zdigits2_succ (m : Z) : 0 <= m -> Zdigits2 (m + 1) <= Zdigits2 m + 1.
Proof.
  intros Hm. pose proof (Zdigits2_nonneg m).
  apply Zdigits2_le; [lia | lia |].
  rewrite Z.pow_add_r by lia.
  destruct (Z.eq_dec m 0) as [->|Hne]; [simpl; lia|].
  destruct (Zdigits2_bounds m); lia.
Qed.

Lemma Zdigits2_mul (a b : Z) :
  0 < a -> 0 < b -> Zdigits2 (a * b) <= Zdigits2 a + Zdigits2 b.
Proof.
  intros Ha Hb. pose proof (Zdigits2_nonneg a). pose proof (Zdigits2_nonneg b).
  apply Zdigits2_le; [lia | lia |].
  rewrite Z.pow_add_r by lia.
  destruct (Zdigits2_bounds a Ha), (Zdigits2_bounds b Hb). nia.
Qed.

(** *** Shifting right *)

Lemma shr_1_digits (r : shr_record) :
  0 <= shr_m r ->
  0 <= shr_m (shr_1 r) /\
  Zdigits2 (shr_m (shr_1 r)) = Z.max 0 (Zdigits2 (shr_m r) - 1).
Proof.
  destruct r as [m b s]. simpl shr_m at 1. intros Hm.
  destruct m as [|[p|p|]|p]; cbn [shr_m shr_1 Zdigits2 digits2_pos];
    try lia; (split; [lia | rewrite ?Pos2Z.inj_succ; lia]).
Qed.

Lemma shr_iter_digits (n : positive) (r : shr_record) :
  0 <= shr_m r ->
  0 <= shr_m (Pos.iter shr_1 r n) /\
  Zdigits2 (shr_m (Pos.iter shr_1 r n))
  = Z.max 0 (Zdigits2 (shr_m r) - Zpos n).
Proof.
  intros Hm. induction n using Pos.peano_ind.
  - simpl Pos.iter. apply shr_1_digits, Hm.
  - rewrite Pos.iter_succ. destruct IHn as [H0 Hd].
    destruct (shr_1_digits _ H0) as [H1 Hd1].
    split; [exact H1|]. rewrite Hd1, Hd. lia.
Qed.

(** After [shr_fexp] the mantissa is not negative and the magnitude has not
    grown. *)
Lemma shr_fexp_below (m e B : Z) (l : location) :
  0 <= m -> Zdigits2 m + e <= B -> -1074 <= B ->
  let '(r, e') := shr_fexp prec emax m e l in
  0 <= shr_m r /\ Zdigits2 (shr_m r) + e' <= B.
Proof.
  intros Hm HB Hmin. unfold shr_fexp, shr. rewrite fexp_eq.
  assert (Hrec : shr_m (shr_record_of_loc m l) = m)
    by (destruct l as [|[]]; reflexivity).
  destruct (Z.max (Zdigits2 m + e - 53) (-1074) - e) as [|n|n] eqn:En.
  - rewrite Hrec. auto.
  - rewrite iter_pos_iter.
    destruct (shr_iter_digits n (shr_record_of_loc m l)) as [H0 Hd];
      [rewrite Hrec; exact Hm|].
    rewrite Hrec in Hd. split; [exact H0|]. rewrite Hd. lia.
  - rewrite Hrec. auto.
Qed.

Lemma round_nearest_even_bounds (m : Z) (l : location) :
  0 <= m ->
  0 <= round_nearest_even m l /\
  Zdigits2 (round_nearest_even m l) <= Zdigits2 m + 1.
Proof.
  intros Hm. pose proof (Zdigits2_succ m Hm).
  unfold round_nearest_even.
  destruct l as [|[]]; try destruct (Z.even m); split; lia.
Qed.

(** Rounding a value below [2 ^ B] gives zero or a finite float below
    [2 ^ (B + 1)]. *)
Lemma round_below (s : bool) (m e B : Z) (l : location) :
  0 <= m -> Zdigits2 m + e <= B -> -1074 <= B <= 971 ->
  below (B + 1) (binary_round_aux prec emax s m e l).
Proof.
  intros Hm HB HBr. unfold binary_round_aux.
  pose proof (shr_fexp_below m e B l Hm HB (proj1 HBr)) as H1.
  destruct (shr_fexp prec emax m e l) as [r1 e1]. destruct H1 as [H1m H1d].
  destruct (round_nearest_even_bounds (shr_m r1) (loc_of_shr_record r1) H1m)
    as [H2m H2d].
  pose proof (shr_fexp_below (round_nearest_even (shr_m r1) (loc_of_shr_record r1))
                e1 (B + 1) loc_Exact H2m) as H3.
  destruct (shr_fexp prec emax
              (round_nearest_even (shr_m r1) (loc_of_shr_record r1)) e1
              loc_Exact) as [r3 e3].
  destruct H3 as [H3m H3d]; [lia | lia |].
  destruct (shr_m r3) as [|p|p] eqn:E3; [exact I | | lia].
  cbn [Zdigits2] in H3d. assert (e3 <= 971) by lia.
  change (emax - prec) with 971.
  destruct (Z.leb_spec e3 971); [|lia]. exact H3d.
Qed.

Lemma below_weaken (A B : Z) (x : spec_float) : A <= B -> below A x -> below B x.
Proof. destruct x; simpl; lia. Qed.

Lemma mul_below (x y : spec_float) (A B : Z) :
  below A x -> below B y -> -1074 <= A + B <= 971 ->
  below (A + B + 1) (SF64mul x y).
Proof.
  destruct x as [sx|sx| |sx mx ex], y as [sy|sy| |sy my ey];
    cbn [below SF64mul SFmul]; try tauto. intros Hx Hy HB.
  apply round_below; [lia | | exact HB].
  rewrite Pos2Z.inj_mul.
  pose proof (Zdigits2_mul (Zpos mx) (Zpos my) eq_refl eq_refl) as H.
  cbn [Zdigits2] in *. lia.
Qed.

Lemma shl_align_mag (m : positive) (e e0 : Z) :
  let '(m', e') := shl_align m e e0 in
  Zpos (digits2_pos m') + e' = Zpos (digits2_pos m) + e.
Proof.
  unfold shl_align. destruct (e0 - e) as [|d|d] eqn:E; try reflexivity.
  rewrite digits2_pos_iter_xO. lia.
Qed.

Lemma binary_round_below (s : bool) (m : positive) (e B : Z) :
  Zpos (digits2_pos m) + e <= B -> -1074 <= B <= 971 ->
  below (B + 1) (binary_round prec emax s m e).
Proof.
  intros HB HBr. unfold binary_round.
  pose proof (shl_align_mag m e (fexp prec emax (Zpos (digits2_pos m) + e))) as H.
  destruct (shl_align m e (fexp prec emax (Zpos (digits2_pos m) + e)))
    as [mz ez].
  apply round_below; [lia | cbn [Zdigits2]; lia | exact HBr].
Qed.

Lemma sub_below (x y : spec_float) (A : Z) :
  below A x -> below A y -> -1074 <= A + 1 <= 971 ->
  below (A + 2) (SF64sub x y).
Proof.
  destruct x as [sx|sx| |sx mx ex], y as [sy|sy| |sy my ey];
    cbn [below SF64sub SFsub]; try tauto; intros Hx Hy HB.
  - destruct sx, sy; exact I.
  - cbn [below]. lia.
  - cbn [below]. lia.
  - pose proof (shl_align_mag mx ex (Z.min ex ey)) as H1.
    pose proof (shl_align_mag my ey (Z.min ex ey)) as H2.
    assert (E1 : snd (shl_align mx ex (Z.min ex ey)) = Z.min ex ey).
    { unfold shl_align. destruct (Z.min ex ey - ex) eqn:E; simpl; lia. }
    assert (E2 : snd (shl_align my ey (Z.min ex ey)) = Z.min ex ey).
    { unfold shl_align. destruct (Z.min ex ey - ey) eqn:E; simpl; lia. }
    destruct (shl_align mx ex (Z.min ex ey)) as [m1 e1].
    destruct (shl_align my ey (Z.min ex ey)) as [m2 e2].
    cbn [fst snd] in *. subst e1 e2.
    set (ez := Z.min ex ey) in *.
    set (z := cond_Zopp sx (Zpos m1) - cond_Zopp sy (Zpos m2)).
    assert (Hz : Z.abs z <= Zpos m1 + Zpos m2)
      by (unfold z, cond_Zopp; destruct sx, sy; lia).
    assert (Hd : Zdigits2 (Z.abs z) + ez <= A + 1).
    { assert (Hm : Zpos m1 + Zpos m2 < 2 ^ (A - ez + 1)).
      { destruct (Zdigits2_bounds (Zpos m1) eq_refl) as [_ U1].
        destruct (Zdigits2_bounds (Zpos m2) eq_refl) as [_ U2].
        cbn [Zdigits2] in U1, U2.
        assert (2 ^ Zpos (digits2_pos m1) <= 2 ^ (A - ez))
          by (apply Z.pow_le_mono_r; lia).
        assert (2 ^ Zpos (digits2_pos m2) <= 2 ^ (A - ez))
          by (apply Z.pow_le_mono_r; lia).
        rewrite Z.pow_add_r by lia. lia. }
      assert (Zdigits2 (Z.abs z) <= A - ez + 1)
        by (apply Zdigits2_le; lia).
      lia. }
    unfold binary_normalize. destruct z as [|p|p] eqn:Ez.
    + exact I.
    + replace (A + 2) with (A + 1 + 1) by lia.
      apply binary_round_below; [exact Hd | exact HB].
    + replace (A + 2) with (A + 1 + 1) by lia.
      apply binary_round_below; [exact Hd | exact HB].
Qed.

Lemma div_core_below (mx my : positive) (ex ey A C : Z) :
  Zpos (digits2_pos mx) + ex <= A ->
  C <= Zpos (digits2_pos my) + ey ->
  -1074 <= A - C + 1 ->
  let '(q, e', l) := SFdiv_core_binary prec emax (Zpos mx) ex (Zpos my) ey in
  0 <= q /\ Zdigits2 q + e' <= A - C + 1.
Proof.
  intros HA HC Hmin. unfold SFdiv_core_binary. rewrite fexp_eq.
  cbn [Zdigits2].
  set (d1 := Zpos (digits2_pos mx)) in *.
  set (d2 := Zpos (digits2_pos my)) in *.
  set (e' := Z.min (Z.max (d1 + ex - (d2 + ey) - 53) (-1074)) (ex - ey)).
  set (s := ex - ey - e').
  assert (Hs : 0 <= s) by (unfold s, e'; lia).
  set (m' := match s with
             | 0 => Zpos mx
             | Zpos _ => Z.shiftl (Zpos mx) s
             | Zneg _ => 0
             end).
  assert (Hm' : m' = Zpos mx * 2 ^ s).
  { unfold m'. destruct s as [|p|p]; [lia | | lia].
    rewrite Z.shiftl_mul_pow2 by lia. reflexivity. }
  pose proof (Z_div_mod m' (Zpos my) eq_refl) as Hdiv.
  destruct (Z.div_eucl m' (Zpos my)) as [q r]. destruct Hdiv as [Hq Hr].
  assert (H2s : 0 < 2 ^ s) by (apply Z.pow_pos_nonneg; lia).
  assert (Hq0 : 0 <= q) by nia.
  split; [exact Hq0|].
  destruct (Z.eq_dec q 0) as [->|Hne].
  - cbn [Zdigits2]. unfold e'. lia.
  - assert (Hdq : Zdigits2 q <= d1 + s - d2 + 1).
    { destruct (Zdigits2_bounds q) as [Lq _]; [lia|].
      destruct (Zdigits2_bounds (Zpos mx) eq_refl) as [_ U1].
      destruct (Zdigits2_bounds (Zpos my) eq_refl) as [L2 _].
      cbn [Zdigits2] in U1, L2. fold d1 in U1. fold d2 in L2.
      pose proof (Zdigits2_nonneg q) as Hn.
      assert (Hdq1 : 1 <= Zdigits2 q).
      { destruct q; try lia. cbn [Zdigits2]. lia. }
      assert (Hprod : 2 ^ (Zdigits2 q - 1 + (d2 - 1)) < 2 ^ (d1 + s)).
      { rewrite !Z.pow_add_r by lia. nia. }
      apply Z.pow_lt_mono_r_iff in Hprod; lia. }
    unfold s in Hdq. lia.
Qed.

Lemma div_below (x y : spec_float) (A C : Z) :
  below A x -> above C y -> -1074 <= A - C + 1 <= 971 ->
  below (A - C + 2) (SF64div x y).
Proof.
  destruct x as [sx|sx| |sx mx ex], y as [sy|sy| |sy my ey];
    cbn [below above SF64div SFdiv]; try tauto. intros Hx Hy HB.
  pose proof (div_core_below mx my ex ey A C Hx Hy (proj1 HB)) as H.
  destruct (SFdiv_core_binary prec emax (Zpos mx) ex (Zpos my) ey)
    as [[q e'] l].
  destruct H as [Hq Hd].
  replace (A - C + 2) with (A - C + 1 + 1) by lia.
  apply round_below; assumption.
Qed.

(** *** From comparisons to magnitudes *)

Lemma valid_digits (s : bool) (m : positive) (e : Z) :
  valid_binary (S754_finite s m e) = true -> Zpos (digits2_pos m) <= 53.
Proof.
  cbn [SpecFloat.valid_binary]. unfold bounded, canonical_mantissa.
  rewrite fexp_eq. intros H. apply andb_prop in H. destruct H as [H _].
  apply Z.eqb_eq in H. lia.
Qed.

(** A valid float between zero and a positive finite float with exponent
    [e'] is below [2 ^ (53 + e')]. *)
Lemma leb_below (x : spec_float) (m' : positive) (e' : Z) :
  valid_binary x = true ->
  SFleb (S754_zero false) x = true ->
  SFltb (S754_finite false m' e') x = false ->
  below (53 + e') x.
Proof.
  intros Hv H0 H1. destruct x as [sx|sx| |sx mx ex]; cbn [below].
  - exact I.
  - destruct sx; discriminate.
  - discriminate.
  - pose proof (valid_digits _ _ _ Hv) as Hd.
    destruct sx; [discriminate|].
    unfold SFltb, SFcompare in H1.
    destruct (Z.compare_spec e' ex); try discriminate; lia.
Qed.

Lemma finite_above (s : bool) (m : positive) (e : Z) :
  above (1 + e) (S754_finite s m e).
Proof. cbn [above]. lia. Qed.

Lemma SFleb_not_ltb (x y : spec_float) : SFleb x y = true -> SFltb y x = false.
Proof. sf_order. Qed.

Lemma below_above_sentinel (B : Z) (x : spec_float) :
  below B x -> SFltb (S754_infinity true) x = true.
Proof. destruct x as [s|s| |s m e]; simpl; try tauto; reflexivity. Qed.

(** The quotient [d / d_max] of a round. *)
Lemma quotient_below (D DK : spec_float) :
  valid_binary D = true ->
  SFleb (S754_zero false) D = true ->
  SFleb (S754_zero false) DK = true ->
  SFltb DK (S754_infinity false) = true ->
  SFltb DK D = false ->
  below 54
    (SF64div D (if SFeqb DK (S754_zero false)
                then S754_finite false 4503599627370496 (-52) else DK)).
Proof.
  intros Hv H0 Hk0 Hkf Hle.
  destruct DK as [sk|sk| |sk mk ek]; try discriminate.
  - cbn [SFeqb SFcompare].
    destruct D as [sd|sd| |sd md ed]; cbn in H0, Hle |- *;
      try discriminate; try exact I; destruct sd; discriminate.
  - destruct sk; discriminate.
  - destruct sk; [discriminate|].
    cbn [SFeqb SFcompare].
    pose proof (leb_below D mk ek Hv H0 Hle) as HD.
    replace 54%Z with ((53 + ek) - (1 + ek) + 2)%Z by lia.
    apply div_below; [exact HD | apply finite_above | lia].
Qed.

(** A score computed from a weight in [0, 1], a damage score in [0, 100]
    and finite distances that are not negative, the site's not above the one
    behind [d_max], is a finite number. *)
Lemma score_in_range_above_sentinel (w dmg d dk : float) :
  ((0 <=? w) = true -> (w <=? 1) = true ->
   (0 <=? dmg) = true -> (dmg <=? 100) = true ->
   (0 <=? d) = true ->
   (0 <=? dk) = true -> (dk <? infinity) = true ->
   (dk <? d) = false ->
   gt (score_value w dmg d (or_else dk 1)) neg_infinity = true)%float.
Proof.
  intros Hw0 Hw1 Hg0 Hg1 Hd0 Hk0 Hkf Hkd.
  unfold gt, score_value.
  rewrite ltb_spec, sub_spec, !mul_spec, sub_spec, !div_spec.
  assert (Hor : Prim2SF (or_else dk 1)
                = if SFeqb (Prim2SF dk) (S754_zero false)
                  then S754_finite false 4503599627370496 (-52)
                  else Prim2SF dk).
  { unfold or_else, truthy. rewrite FloatAxioms.eqb_spec.
    change (Prim2SF 0) with (S754_zero false).
    destruct (SFeqb (Prim2SF dk) (S754_zero false)); reflexivity. }
  rewrite Hor. clear Hor.
  rewrite leb_spec in Hw0, Hw1, Hg0, Hg1, Hd0, Hk0.
  rewrite ltb_spec in Hkf, Hkd.
  change (Prim2SF neg_infinity) with (S754_infinity true).
  change (Prim2SF infinity) with (S754_infinity false) in *.
  change (Prim2SF 0) with (S754_zero false) in *.
  change (Prim2SF 1) with (S754_finite false 4503599627370496 (-52)) in *.
  change (Prim2SF 100) with (S754_finite false 7036874417766400 (-46)) in *.
  pose proof (Prim2SF_valid w) as Vw. pose proof (Prim2SF_valid dmg) as Vg.
  pose proof (Prim2SF_valid d) as Vd.
  generalize dependent (Prim2SF w). generalize dependent (Prim2SF dmg).
  generalize dependent (Prim2SF d). generalize dependent (Prim2SF dk).
  intros DK Hk0 Hkf D Hd0 Hkd Vd G Hg0 Hg1 Vg W Hw0 Hw1 Vw.
  assert (BW : below 1 W).
  { change 1%Z with (53 + -52)%Z.
    apply leb_below with (m' := 4503599627370496%positive); auto.
    apply SFleb_not_ltb, Hw1. }
  assert (BG : below 7 G).
  { change 7%Z with (53 + -46)%Z.
    apply leb_below with (m' := 7036874417766400%positive); auto.
    apply SFleb_not_ltb, Hg1. }
  assert (Q1 : below 2 (SF64div G (S754_finite false 7036874417766400 (-46)))).
  { change 2%Z with (7 - 7 + 2)%Z. apply div_below; [exact BG | | lia].
    cbn [above]. change (Zpos (digits2_pos 7036874417766400)) with 53%Z. lia. }
  assert (P1 : below 4 (SF64mul W
                 (SF64div G (S754_finite false 7036874417766400 (-46))))).
  { change 4%Z with (1 + 2 + 1)%Z. apply mul_below; [exact BW | exact Q1 | lia]. }
  assert (S1 : below 3 (SF64sub (S754_finite false 4503599627370496 (-52)) W)).
  { change 3%Z with (1 + 2)%Z. apply sub_below; [ | exact BW | lia].
    cbn [below]. change (Zpos (digits2_pos 4503599627370496)) with 53%Z. lia. }
  pose proof (quotient_below D DK Vd Hd0 Hk0 Hkf Hkd) as Q2.
  set (DM := if SFeqb DK (S754_zero false)
             then S754_finite false 4503599627370496 (-52) else DK) in *.
  assert (P2 : below 58
                 (SF64mul (SF64sub (S754_finite false 4503599627370496 (-52)) W)
                          (SF64div D DM))).
  { change 58%Z with (3 + 54 + 1)%Z.
    apply mul_below; [exact S1 | exact Q2 | lia]. }
  apply below_above_sentinel with (B := 60%Z).
  change 60%Z with (58 + 2)%Z.
  apply sub_below; [ | exact P2 | lia].
  apply below_weaken with (A := 4%Z); [lia | exact P1].
Qed.

End F64Magnitude.

(** * Exceptions, lists and loops *)

Lemma bind_ok (A B : Type) (r : result A) (k : A -> result B) (b : B) :
  bind r k = Ok b -> exists a, r = Ok a /\ k a = Ok b.
Proof. destruct r as [a|e]; simpl; [eauto | discriminate]. Qed.

Lemma getitem_ok (A : Type) (l : list A) (i : nat) (a : A) :
  getitem l i = Ok a <-> nth_error l i = Some a.
Proof.
  unfold getitem. destruct (nth_error l i); split; intros H;
    inversion H; reflexivity.
Qed.

Lemma getitem_lt (A : Type) (l : list A) (i : nat) :
  (i < length l)%nat -> exists a, getitem l i = Ok a.
Proof.
  intros H. unfold getitem. destruct (nth_error l i) eqn:E; [eauto|].
  apply nth_error_None in E. lia.
Qed.

Lemma getitem_ok_lt (A : Type) (l : list A) (i : nat) (a : A) :
  getitem l i = Ok a -> (i < length l)%nat.
Proof.
  intros H. apply getitem_ok in H. apply nth_error_Some. congruence.
Qed.

Lemma mapM_ok (A B : Type) (f : A -> result B) (l : list A) (bs : list B) :
  mapM f l = Ok bs <-> Forall2 (fun a b => f a = Ok b) l bs.
Proof.
  revert bs. induction l as [|a l IH]; intros bs; simpl.
  - split; intros H; inversion H; constructor.
  - split.
    + intros H. apply bind_ok in H. destruct H as (b & Hb & H).
      apply bind_ok in H. destruct H as (bs' & Hbs & H).
      inversion H; subst. constructor; [assumption | apply IH, Hbs].
    + intros H. inversion H as [|? b ? bs' Hb Hbs]; subst.
      rewrite Hb. simpl. apply IH in Hbs. rewrite Hbs. reflexivity.
Qed.

Lemma mapM_total (A B : Type) (f : A -> result B) (l : list A) :
  (forall a, In a l -> exists b, f a = Ok b) -> exists bs, mapM f l = Ok bs.
Proof.
  induction l as [|a l IH]; intros H; simpl.
  - eauto.
  - destruct (H a (or_introl eq_refl)) as (b & Hb). rewrite Hb. simpl.
    destruct IH as (bs & Hbs); [intros; apply H; right; assumption|].
    rewrite Hbs. simpl. eauto.
Qed.

Lemma Forall2_nth_l (A B : Type) (R : A -> B -> Prop) (l : list A)
    (l' : list B) (i : nat) (a : A) :
  Forall2 R l l' -> nth_error l i = Some a ->
  exists b, nth_error l' i = Some b /\ R a b.
Proof.
  intros H. revert i. induction H as [|x y l l' Hxy H IH]; intros i Hi.
  - destruct i; discriminate.
  - destruct i as [|i]; simpl in *.
    + inversion Hi; subst. eauto.
    + apply IH, Hi.
Qed.

Lemma mapM_seq_nth (B : Type) (f : nat -> result B) (n : nat) (l : list B)
    (i : nat) :
  mapM f (seq 0 n) = Ok l -> (i < n)%nat ->
  exists b, nth_error l i = Some b /\ f i = Ok b.
Proof.
  intros H Hi. apply mapM_ok in H.
  assert (Hn : nth_error (seq 0 n) i = Some i).
  { rewrite nth_error_nth' with (d := 0%nat) by (rewrite length_seq; lia).
    rewrite seq_nth by lia. reflexivity. }
  exact (Forall2_nth_l i H Hn).
Qed.

(** *** [discard] *)

Lemma discard_In (j k : nat) (u : list nat) :
  In k (discard j u) <-> In k u /\ k <> j.
Proof.
  unfold discard. rewrite filter_In, negb_true_iff, Nat.eqb_neq. tauto.
Qed.

Lemma discard_length (j : nat) (u : list nat) :
  In j u -> (length (discard j u) < length u)%nat.
Proof.
  induction u as [|a u IH]; intros H; simpl in *; [contradiction|].
  destruct (Nat.eqb_spec a j) as [->|Hne]; simpl.
  - pose proof (filter_length_le (fun k => negb (Nat.eqb k j)) u).
    unfold discard in *. lia.
  - destruct H as [H|H]; [congruence|]. apply IH in H. lia.
Qed.

Lemma discard_NoDup (j : nat) (u : list nat) : NoDup u -> NoDup (discard j u).
Proof. apply NoDup_filter. Qed.

Lemma discard_fresh (j : nat) (u : list nat) : ~ In j u -> discard j u = u.
Proof.
  induction u as [|a u IH]; intros H; simpl in *; [reflexivity|].
  destruct (Nat.eqb_spec a j) as [->|Hne]; simpl; [tauto|].
  f_equal. apply IH. tauto.
Qed.

Lemma discard_Permutation (j : nat) (u : list nat) :
  NoDup u -> In j u -> Permutation u (j :: discard j u).
Proof.
  induction u as [|a u IH]; intros Hnd H; simpl in *; [contradiction|].
  inversion Hnd as [|? ? Hna Hnd']; subst.
  destruct (Nat.eqb_spec a j) as [->|Hne]; simpl.
  - rewrite discard_fresh by assumption. reflexivity.
  - destruct H as [H|H]; [congruence|].
    rewrite perm_swap. constructor. apply IH; assumption.
Qed.

Lemma discard_sorted (j : nat) (u : list nat) :
  StronglySorted lt u -> StronglySorted lt (discard j u).
Proof.
  induction 1 as [|a u Hs IH Ha]; simpl; [constructor|].
  destruct (negb (a =? j)%nat); [|assumption].
  constructor; [assumption|].
  rewrite Forall_forall in *. intros k Hk. apply Ha.
  apply discard_In in Hk. tauto.
Qed.

Lemma seq_sorted (a n : nat) : StronglySorted lt (seq a n).
Proof.
  revert a. induction n as [|n IH]; intros a; simpl; constructor.
  - apply IH.
  - rewrite Forall_forall. intros k Hk. apply in_seq in Hk. lia.
Qed.

(** *** The scan *)

Import F64Facts.


(** What the scan returns: its starting state when no score beats it, or
    else the first of the scores that nothing exceeds. *)
Lemma scan_spec (scored : list (nat * float)) (best : option nat * float) :
  (scan scored best = best /\
   forall k sk, In (k, sk) scored -> gt sk (snd best) = false)
  \/
  (exists pre j s post,
     scored = pre ++ (j, s) :: post /\
     scan scored best = (Some j, s) /\
     gt s (snd best) = true /\
     (forall k sk, In (k, sk) pre -> (s <=? sk) = false) /\
     (forall k sk, In (k, sk) post -> gt sk s = false)).
Proof.
  revert best. induction scored as [|[k sk] rest IH]; intros best; simpl.
  - left. split; [reflexivity | intros ? ? []].
  - destruct (gt sk (snd best)) eqn:E.
    + right. destruct (IH (Some k, sk)) as [[Hs Hall]|Hex].
      * exists [], k, sk, rest. simpl in *.
        split; [reflexivity|]. split; [assumption|]. split; [assumption|].
        split; [intros ? ? [] | assumption].
      * destruct Hex as (pre & j & s & post & -> & Hs & Hgt & Hpre & Hpost).
        simpl in Hgt. exists ((k, sk) :: pre), j, s, post.
        split; [reflexivity|]. split; [assumption|].
        split; [unfold gt in *; eapply ltb_trans; eassumption|].
        split; [|assumption].
        intros k' sk' [H|H]; [|eauto].
        inversion H; subst. apply ltb_not_leb. exact Hgt.
    + destruct (IH best) as [[Hs Hall]|Hex].
      * left. split; [assumption|].
        intros k' sk' [H|H]; [inversion H; subst; assumption | eauto].
      * right.
        destruct Hex as (pre & j & s & post & -> & Hs & Hgt & Hpre & Hpost).
        exists ((k, sk) :: pre), j, s, post.
        split; [reflexivity|]. split; [assumption|]. split; [assumption|].
        split; [|assumption].
        intros k' sk' [H|H]; [|eauto].
        inversion H; subst. unfold gt in *.
        eapply not_ltb_ltb_trans; eassumption.
Qed.


(** *** [max(iterable)] *)

Lemma fold_max2_spec (t : list float) (x : float) :
  let m := fold_left max2 t x in
  In m (x :: t) /\
  (gt m x = true \/ m = x) /\
  forall y, In y t -> gt y m = false.
Proof.
  revert x. induction t as [|a t IH]; intros x; simpl.
  - split; [left; reflexivity|]. split; [right; reflexivity | intros ? []].
  - destruct (IH (max2 x a)) as (Hin & Hge & Hall).
    unfold max2 in *. destruct (gt a x) eqn:E.
    + split; [destruct Hin as [<-|Hin]; auto|].
      split.
      * left. destruct Hge as [H| ->]; [|assumption].
        unfold gt in *. eapply ltb_trans; eassumption.
      * intros y [<-|Hy]; [|auto].
        destruct Hge as [H| ->]; [|apply ltb_irrefl].
        unfold gt in *. apply ltb_asym, H.
    + split; [destruct Hin as [<-|Hin]; auto|].
      split; [assumption|].
      intros y [<-|Hy]; [|auto].
      destruct Hge as [H| ->]; [|assumption].
      unfold gt in *. apply not_leb_not_ltb.
      eapply not_ltb_ltb_trans; eassumption.
Qed.

(** [max] returns an element of the list that none exceeds. *)
Lemma max_of_spec (l : list float) (m : float) :
  max_of l = Ok m -> In m l /\ forall y, In y l -> gt y m = false.
Proof.
  destruct l as [|x t]; simpl; [discriminate|].
  intros H. inversion H; subst. clear H.
  destruct (fold_max2_spec t x) as (Hin & Hge & Hall).
  split; [exact Hin|].
  intros y [<-|Hy]; [|auto].
  destruct Hge as [H| ->]; [|apply ltb_irrefl].
  unfold gt in *. apply ltb_asym, H.
Qed.

Lemma or_else_nonzero (m : float) : (or_else m 1 =? 0) = false.
Proof.
  unfold or_else, truthy. destruct (m =? 0) eqn:E; simpl; [reflexivity | exact E].
Qed.

Lemma truediv_nonzero (d d_max : float) :
  (d_max =? 0) = false -> truediv d d_max = Ok (d / d_max).
Proof. intros H. unfold truediv. rewrite H. reflexivity. Qed.



Lemma sorted_split (A : Type) (pre post : list (nat * A)) (j : nat) (a : A) :
  StronglySorted lt (map fst (pre ++ (j, a) :: post)) ->
  (forall k b, In (k, b) pre -> (k < j)%nat) /\
  (forall k b, In (k, b) post -> (j < k)%nat).
Proof.
  induction pre as [|[k0 b0] pre IH]; simpl; intros H.
  - inversion H as [|? ? Hs Hall]; subst. split; [intros ? ? []|].
    intros k b Hin. rewrite Forall_forall in Hall. apply Hall.
    change k with (fst (k, b)). apply in_map, Hin.
  - inversion H as [|? ? Hs Hall]; subst. destruct (IH Hs) as (Hpre & Hpost).
    split; [|exact Hpost].
    intros k b [Hin|Hin]; [|eauto].
    inversion Hin; subst. rewrite Forall_forall in Hall. apply Hall.
    rewrite map_app. apply in_or_app. right. left. reflexivity.
Qed.

(** * The greedy constructor *)

Section GreedyFacts.

Context {M : MathLib}.

Variables (coords : list coord) (damage_scores : list float)
  (damage_weight : float).

Lemma site_score_value (d_max : float) (j : nat) (d dmg : float) :
  nth_error damage_scores j = Some dmg -> (d_max =? 0) = false ->
  site_score damage_scores damage_weight d_max j d
  = Ok (score_value damage_weight dmg d d_max).
Proof.
  intros Hj Hd. unfold site_score, getitem. rewrite Hj. simpl.
  rewrite truediv_nonzero by assumption. reflexivity.
Qed.

Lemma pick_best_ok (d_max : float) (dists : list (nat * float))
    (best r : option nat * float) :
  pick_best damage_scores damage_weight d_max dists best = Ok r <->
  exists scored,
    Forall2 (scored_as damage_scores damage_weight d_max) dists scored /\
    r = scan scored best.
Proof.
  revert best. induction dists as [|[j d] rest IH]; intros best; simpl.
  - split.
    + intros H. inversion H; subst. exists []. split; [constructor | reflexivity].
    + intros (scored & H & ->). inversion H; subst. reflexivity.
  - split.
    + intros H. apply bind_ok in H. destruct H as (s & Hs & H).
      apply IH in H. destruct H as (scored & HF & ->).
      exists ((j, s) :: scored). split; [|reflexivity].
      constructor; [split; [reflexivity | exact Hs] | exact HF].
    + intros (scored & H & ->).
      inversion H as [|? [j' s] ? scored' [Hj Hs] HF]; subst.
      simpl in Hj, Hs. subst j'. rewrite Hs. simpl.
      apply IH. exists scored'. split; [assumption | reflexivity].
Qed.

Lemma scored_as_keys (d_max : float) (dists scored : list (nat * float)) :
  Forall2 (scored_as damage_scores damage_weight d_max) dists scored ->
  map fst scored = map fst dists.
Proof.
  induction 1 as [|jd js ? ? [Hk _] _ IH]; simpl; [reflexivity|].
  rewrite Hk, IH. reflexivity.
Qed.

Lemma scored_as_In_l (d_max : float) (dists scored : list (nat * float))
    (j : nat) (d : float) :
  Forall2 (scored_as damage_scores damage_weight d_max) dists scored ->
  In (j, d) dists ->
  exists s, In (j, s) scored /\
            site_score damage_scores damage_weight d_max j d = Ok s.
Proof.
  induction 1 as [|jd [k s] ? ? [Hk Hs] _ IH]; simpl; intros Hin;
    [contradiction|].
  destruct Hin as [->|Hin].
  - simpl in *. subst k. exists s. split; [left; reflexivity | exact Hs].
  - destruct (IH Hin) as (s' & H1 & H2). exists s'. split; [right|]; assumption.
Qed.

Lemma scored_as_In_r (d_max : float) (dists scored : list (nat * float))
    (j : nat) (s : float) :
  Forall2 (scored_as damage_scores damage_weight d_max) dists scored ->
  In (j, s) scored ->
  exists d, In (j, d) dists /\
            site_score damage_scores damage_weight d_max j d = Ok s.
Proof.
  induction 1 as [|[k d] js ? ? [Hk Hs] _ IH]; simpl; intros Hin;
    [contradiction|].
  destruct Hin as [->|Hin].
  - simpl in *. subst k. exists d. split; [left; reflexivity | exact Hs].
  - destruct (IH Hin) as (d' & H1 & H2). exists d'. split; [right|]; assumption.
Qed.

Lemma scan_some_In (scored : list (nat * float)) (x : float) (j : nat) :
  fst (scan scored (None, x)) = Some j -> In j (map fst scored).
Proof.
  intros H. destruct (scan_spec scored (None, x)) as [[Hs _]|Hex].
  - rewrite Hs in H. discriminate.
  - destruct Hex as (pre & k & s & post & -> & Hs & _).
    rewrite Hs in H. simpl in H. inversion H; subst.
    rewrite map_app. apply in_or_app. right. left. reflexivity.
Qed.

(** *** [dists] and [d_max] *)

Lemma leg_km_from (current j : nat) (c : coord) :
  getitem coords current = Ok c ->
  leg_km coords current j
  = (cj <- getitem coords j ;;
     haversine_km (fst c) (snd c) (fst cj) (snd cj)).
Proof. intros H. unfold leg_km. rewrite H. reflexivity. Qed.

Lemma dists_from_ok (current : nat) (unvisited : list nat)
    (dists : list (nat * float)) :
  dists_from coords current unvisited = Ok dists <->
  (current < length coords)%nat /\
  Forall2 (fun j jd => fst jd = j /\ leg_km coords current j = Ok (snd jd))
    unvisited dists.
Proof.
  unfold dists_from. split.
  - intros H. apply bind_ok in H. destruct H as (c & Hc & H).
    split; [eapply getitem_ok_lt; eassumption|].
    apply mapM_ok in H. revert H. apply Forall2_impl.
    intros j jd Hj. rewrite leg_km_from with (c := c) by exact Hc.
    apply bind_ok in Hj. destruct Hj as (cj & Hcj & Hj).
    apply bind_ok in Hj. destruct Hj as (d & Hd & Hj).
    inversion Hj; subst. simpl. rewrite Hcj. simpl. auto.
  - intros (Hlt & H). destruct (getitem_lt coords Hlt) as (c & Hc).
    rewrite Hc. simpl. apply mapM_ok. revert H. apply Forall2_impl.
    intros j [j' d] [Hj Hd]. simpl in *. subst j'.
    rewrite leg_km_from with (c := c) in Hd by exact Hc.
    destruct (getitem coords j) as [cj|]; simpl in *; [|discriminate].
    rewrite Hd. reflexivity.
Qed.

Lemma dists_keys (current : nat) (unvisited : list nat)
    (dists : list (nat * float)) :
  dists_from coords current unvisited = Ok dists -> map fst dists = unvisited.
Proof.
  intros H. apply dists_from_ok in H. destruct H as [_ H].
  induction H as [|j jd ? ? [Hj _] _ IH]; simpl; [reflexivity|].
  rewrite Hj, IH. reflexivity.
Qed.

Lemma dists_In (current : nat) (unvisited : list nat)
    (dists : list (nat * float)) (j : nat) (d : float) :
  dists_from coords current unvisited = Ok dists -> In (j, d) dists ->
  In j unvisited /\ leg_km coords current j = Ok d.
Proof.
  intros H. apply dists_from_ok in H. destruct H as [_ H].
  induction H as [|k jd ? ? [Hk Hd] _ IH]; simpl; intros Hin; [contradiction|].
  destruct Hin as [->|Hin].
  - simpl in *. subst k. auto.
  - destruct (IH Hin). auto.
Qed.

(** [d_max] is a distance of the step, or 1 when that distance is zero. *)
Lemma d_max_of_spec (dists : list (nat * float)) (d_max : float) :
  d_max_of dists = Ok d_max ->
  (d_max =? 0) = false /\
  exists k dk, In (k, dk) dists /\ d_max = or_else dk 1 /\
               forall j d, In (j, d) dists -> gt d dk = false.
Proof.
  unfold d_max_of. intros H. apply bind_ok in H. destruct H as (m & Hm & H).
  inversion H; subst. clear H. split; [apply or_else_nonzero|].
  apply max_of_spec in Hm. destruct Hm as (Hin & Hall).
  apply in_map_iff in Hin. destruct Hin as ([k dk] & Hk & Hin). simpl in Hk.
  subst m. exists k, dk. split; [assumption|]. split; [reflexivity|].
  intros j d Hjd. apply Hall. change d with (snd (j, d)). apply in_map, Hjd.
Qed.

Lemma d_max_of_total (dists : list (nat * float)) :
  dists <> [] -> exists d_max, d_max_of dists = Ok d_max.
Proof.
  destruct dists as [|jd rest]; [congruence|]. intros _.
  unfold d_max_of. simpl. eauto.
Qed.

(** *** One round *)

Lemma greedy_step_some (unvisited : list nat) (current j : nat) (d_km : float) :
  greedy_step coords damage_scores damage_weight unvisited current
  = Ok (Some (j, d_km)) ->
  In j unvisited /\ leg_km coords current j = Ok d_km.
Proof.
  unfold greedy_step. intros H.
  apply bind_ok in H. destruct H as (dists & Hd & H).
  destruct dists as [|jd rest]; [discriminate|].
  apply bind_ok in H. destruct H as (d_max & Hm & H).
  apply bind_ok in H. destruct H as (best & Hb & H).
  destruct (fst best) as [j'|] eqn:E; [|discriminate].
  apply bind_ok in H. destruct H as (d & Hleg & H).
  inversion H; subst. split; [|exact Hleg].
  apply pick_best_ok in Hb. destruct Hb as (scored & HF & ->).
  apply scan_some_In in E. rewrite (scored_as_keys HF) in E.
  rewrite (dists_keys _ _ Hd) in E. exact E.
Qed.

End GreedyFacts.

Section GreedyLoop.

Context {M : MathLib}.

Variables (coords : list coord) (damage_scores : list float)
  (damage_weight : float).

(** The loop needs no more rounds than there are unvisited sites. *)
Lemma greedy_loop_fuel (fuel1 fuel2 : nat) (unvisited path : list nat)
    (total : float) (current : nat) :
  (length unvisited <= fuel1)%nat -> (length unvisited <= fuel2)%nat ->
  greedy_loop fuel1 coords damage_scores damage_weight unvisited path total
    current
  = greedy_loop fuel2 coords damage_scores damage_weight unvisited path total
      current.
Proof.
  revert fuel2 unvisited path total current.
  induction fuel1 as [|f1 IH]; intros fuel2 unvisited path total current H1 H2.
  - destruct unvisited; [|simpl in H1; lia]. destruct fuel2; reflexivity.
  - destruct unvisited as [|a u]; [destruct fuel2; reflexivity|].
    destruct fuel2 as [|f2]; [simpl in H2; lia|].
    cbn [greedy_loop].
    destruct (greedy_step coords damage_scores damage_weight (a :: u) current)
      as [[[j d]|]|e] eqn:E; simpl; try reflexivity.
    apply greedy_step_some in E. destruct E as [Hin _].
    apply discard_length in Hin. simpl in H1, H2, Hin.
    apply IH; lia.
Qed.

(** The order returned extends [path] by sites of [unvisited], none twice. *)
Lemma greedy_loop_extends (fuel : nat) (unvisited path : list nat)
    (total : float) (current : nat) (order : list nat) (cost : float) :
  greedy_loop fuel coords damage_scores damage_weight unvisited path total
    current = Ok (order, cost) ->
  exists extra, order = path ++ extra /\ incl extra unvisited /\ NoDup extra.
Proof.
  revert unvisited path total current.
  induction fuel as [|f IH]; intros unvisited path total current H.
  - exists []. destruct unvisited; simpl in H; inversion H; subst;
      rewrite app_nil_r; repeat split; auto using incl_nil_l, NoDup_nil.
  - destruct unvisited as [|a u].
    + simpl in H. inversion H; subst. exists [].
      rewrite app_nil_r; repeat split; auto using incl_nil_l, NoDup_nil.
    + cbn [greedy_loop] in H. apply bind_ok in H.
      destruct H as ([[j d]|] & Hs & H).
      * apply greedy_step_some in Hs. destruct Hs as [Hin _].
        apply IH in H. destruct H as (extra & -> & Hincl & Hnd).
        exists (j :: extra). rewrite <- app_assoc. split; [reflexivity|].
        split.
        -- intros k [<-|Hk]; [assumption|].
           apply Hincl, discard_In in Hk. tauto.
        -- constructor; [|assumption].
           intros Hj. apply Hincl, discard_In in Hj. tauto.
      * inversion H; subst. exists [].
        rewrite app_nil_r; repeat split; auto using incl_nil_l, NoDup_nil.
Qed.

(** *** The running total is the evaluator's sum *)

Lemma sum_legs_snoc (pre : list nat) (current j : nat) (t0 t d : float) :
  sum_legs coords (pre ++ [current]) t0 = Ok t ->
  leg_km coords current j = Ok d ->
  sum_legs coords ((pre ++ [current]) ++ [j]) t0 = Ok (t + d).
Proof.
  revert t0. induction pre as [|a pre IH]; intros t0 Ht Hd.
  - simpl in *. inversion Ht; subst. rewrite Hd. reflexivity.
  - cbn [app] in *. cbn [sum_legs] in *.
    destruct (pre ++ [current]) as [|b rest] eqn:E.
    + destruct pre; discriminate.
    + cbn [app]. apply bind_ok in Ht. destruct Ht as (d' & Hd' & Ht).
      rewrite Hd'. simpl bind. apply IH; assumption.
Qed.

Lemma greedy_loop_cost (fuel : nat) (unvisited pre : list nat)
    (total : float) (current : nat) (order : list nat) (cost : float) :
  sum_legs coords (pre ++ [current]) 0 = Ok total ->
  greedy_loop fuel coords damage_scores damage_weight unvisited
    (pre ++ [current]) total current = Ok (order, cost) ->
  sum_legs coords order 0 = Ok cost.
Proof.
  revert unvisited pre total current.
  induction fuel as [|f IH]; intros unvisited pre total current Hsum H.
  - destruct unvisited; simpl in H; inversion H; subst; assumption.
  - destruct unvisited as [|a u].
    + simpl in H. inversion H; subst. assumption.
    + cbn [greedy_loop] in H. apply bind_ok in H.
      destruct H as ([[j d]|] & Hs & H).
      * apply greedy_step_some in Hs. destruct Hs as [_ Hleg].
        eapply IH; [|exact H].
        apply sum_legs_snoc; assumption.
      * inversion H; subst. assumption.
Qed.

Lemma along_order_sum_legs (order : list nat) :
  total_distance_km_along_order order coords = sum_legs coords order 0.
Proof.
  unfold total_distance_km_along_order.
  destruct order as [|a [|b rest]]; reflexivity.
Qed.

(** The cost of the greedy constructor is the evaluator's. *)
Lemma greedy_cost (order : list nat) (cost : float) :
  _route_order_greedy coords damage_scores damage_weight = Ok (order, cost) ->
  total_distance_km_along_order order coords = Ok cost.
Proof.
  unfold _route_order_greedy. intros H. rewrite along_order_sum_legs.
  destruct (length coords <=? 1)%nat.
  - inversion H; subst. reflexivity.
  - eapply (@greedy_loop_cost _ _ [] 0 0%nat); [reflexivity | exact H].
Qed.

(** The order of the greedy constructor starts at the hub and lists sites of
    the table, none twice. *)
Lemma greedy_order_shape (order : list nat) (cost : float) :
  _route_order_greedy coords damage_scores damage_weight = Ok (order, cost) ->
  exists extra, order = 0%nat :: extra /\ NoDup extra /\
    forall k, In k extra -> (1 <= k < length coords)%nat.
Proof.
  unfold _route_order_greedy. intros H.
  destruct (length coords <=? 1)%nat.
  - inversion H; subst. exists []. split; [reflexivity|].
    split; [constructor | intros ? []].
  - apply greedy_loop_extends in H. destruct H as (extra & -> & Hincl & Hnd).
    exists extra. split; [reflexivity|]. split; [assumption|].
    intros k Hk. apply Hincl, in_seq in Hk. lia.
Qed.

End GreedyLoop.

(** * The selection of one round *)

Section Selection.

Variables (damage_scores : list float) (damage_weight d_max : float).

(** The site the scan selects: its score is above minus infinity, no site's
    score exceeds it, and every site before it in the scan (a lower index)
    fails to reach it. *)
Lemma pick_best_selected (dists : list (nat * float))
    (r : option nat * float) (j : nat) :
  StronglySorted lt (map fst dists) ->
  pick_best damage_scores damage_weight d_max dists (None, neg_infinity)
  = Ok r -> fst r = Some j ->
  exists d s,
    In (j, d) dists /\
    site_score damage_scores damage_weight d_max j d = Ok s /\ snd r = s /\
    gt s neg_infinity = true /\
    forall k dk sk, In (k, dk) dists ->
      site_score damage_scores damage_weight d_max k dk = Ok sk ->
      gt sk s = false /\ ((k < j)%nat -> (s <=? sk) = false).
Proof.
  intros Hsorted Hr Hj.
  apply pick_best_ok in Hr. destruct Hr as (scored & HF & ->).
  pose proof (scored_as_keys HF) as Hkeys.
  destruct (scan_spec scored (None, neg_infinity)) as [[Hs _]|Hex].
  { rewrite Hs in Hj. discriminate. }
  destruct Hex as (pre & j' & s & post & -> & Hs & Hgt & Hpre & Hpost).
  rewrite Hs in *. simpl in Hj, Hgt. inversion Hj; subst j'. clear Hj.
  assert (Hin : In (j, s) (pre ++ (j, s) :: post))
    by (apply in_or_app; right; left; reflexivity).
  destruct (scored_as_In_r _ _ HF Hin) as (d & Hd & Hsc).
  exists d, s. repeat split; auto.
  - destruct (scored_as_In_l _ _ HF H) as (sk' & Hk & Hsk).
    assert (sk' = sk) by congruence. subst sk'.
    apply in_app_or in Hk. destruct Hk as [Hk|[Hk|Hk]].
    + apply not_leb_not_ltb. eauto.
    + inversion Hk; subst. apply ltb_irrefl.
    + eauto.
  - intros Hlt.
    destruct (scored_as_In_l _ _ HF H) as (sk' & Hk & Hsk).
    assert (sk' = sk) by congruence. subst sk'.
    rewrite <- Hkeys in Hsorted.
    destruct (sorted_split _ _ _ _ Hsorted) as (_ & Hafter).
    apply in_app_or in Hk. destruct Hk as [Hk|[Hk|Hk]].
    + eauto.
    + inversion Hk; subst. lia.
    + apply Hafter in Hk. lia.
Qed.


End Selection.

(** * When the greedy constructor visits every site *)

Lemma Forall2_total (A B : Type) (R : A -> B -> Prop) (l : list A) :
  (forall a, In a l -> exists b, R a b) -> exists l', Forall2 R l l'.
Proof.
  induction l as [|a l IH]; intros H.
  - exists []. constructor.
  - destruct (H a (or_introl eq_refl)) as (b & Hb).
    destruct IH as (l' & Hl'); [intros; apply H; right; assumption|].
    exists (b :: l'). constructor; assumption.
Qed.

Section GreedyComplete.

Context {M : MathLib}.

Variables (coords : list coord) (damage_scores : list float)
  (damage_weight : float).

Hypothesis Hlen : (length coords <= length damage_scores)%nat.
Hypothesis Hlegs : legs_defined coords.
Hypothesis Hscore : scores_above_sentinel coords damage_scores damage_weight.

Lemma dists_from_total (unvisited : list nat) (current : nat) :
  site_indices coords unvisited -> (current < length coords)%nat ->
  exists dists, dists_from coords current unvisited = Ok dists.
Proof.
  intros Hu Hc.
  destruct (@Forall2_total nat (nat * float)
              (fun j jd => fst jd = j /\ leg_km coords current j = Ok (snd jd))
              unvisited) as (dists & HF).
  { intros j Hj. edestruct Hlegs as (d & Hd); [exact Hc | exact (proj2 (Hu j Hj)) |].
    exists (j, d). auto. }
  exists dists. apply dists_from_ok. auto.
Qed.

(** Every site of a round gets a score above minus infinity. *)
Lemma round_scores (unvisited : list nat) (current : nat)
    (dists : list (nat * float)) (d_max : float) :
  site_indices coords unvisited ->
  dists_from coords current unvisited = Ok dists ->
  d_max_of dists = Ok d_max ->
  forall j d, In (j, d) dists ->
    exists dmg, nth_error damage_scores j = Some dmg /\
      site_score damage_scores damage_weight d_max j d
      = Ok (score_value damage_weight dmg d d_max) /\
      gt (score_value damage_weight dmg d d_max) neg_infinity = true.
Proof.
  intros Hu Hd Hm j d Hin.
  destruct (@d_max_of_spec dists d_max Hm) as (Hnz & k & dk & Hk & -> & Hmax).
  destruct (@dists_In M coords current unvisited dists j d Hd Hin)
    as (Hju & Hjd).
  destruct (@dists_In M coords current unvisited dists k dk Hd Hk)
    as (Hku & Hkd).
  destruct (nth_error damage_scores j) as [dmg|] eqn:E.
  - exists dmg. split; [reflexivity|]. split.
    + apply site_score_value; assumption.
    + unfold scores_above_sentinel in Hscore.
      eapply Hscore; try eassumption;
        [apply (Hu j Hju) | apply (Hu k Hku) | eapply Hmax; eassumption].
  - apply nth_error_None in E. pose proof (Hu j Hju). lia.
Qed.

Lemma greedy_step_total (unvisited : list nat) (current : nat) :
  unvisited <> [] -> site_indices coords unvisited ->
  (current < length coords)%nat ->
  exists j d_km,
    greedy_step coords damage_scores damage_weight unvisited current
    = Ok (Some (j, d_km)).
Proof.
  intros Hne Hu Hc. unfold greedy_step.
  destruct (@dists_from_total unvisited current Hu Hc) as (dists & Hd).
  rewrite Hd. simpl.
  pose proof (@dists_keys M coords current unvisited dists Hd) as Hkeys.
  destruct dists as [|[j0 d0] rest] eqn:Edists.
  { simpl in Hkeys. congruence. }
  rewrite <- Edists in *.
  destruct (@d_max_of_total dists) as (d_max & Hm);
    [rewrite Edists; discriminate|].
  rewrite Hm. simpl.
  pose proof (@round_scores unvisited current dists d_max Hu Hd Hm) as Hsc.
  destruct (@Forall2_total _ _
              (scored_as damage_scores damage_weight d_max) dists)
    as (scored & HF).
  { intros [j d] Hin. destruct (Hsc j d Hin) as (dmg & _ & Hs & _).
    exists (j, score_value damage_weight dmg d d_max).
    split; [reflexivity | exact Hs]. }
  assert (Hb : pick_best damage_scores damage_weight d_max dists
                 (None, neg_infinity) = Ok (scan scored (None, neg_infinity))).
  { apply pick_best_ok. eauto. }
  rewrite Hb. simpl.
  destruct (scan_spec scored (None, neg_infinity)) as [[_ Hall]|Hex].
  - exfalso.
    assert (Hin0 : In (j0, d0) dists) by (rewrite Edists; left; reflexivity).
    destruct (Hsc j0 d0 Hin0) as (dmg & _ & Hs & Hgt).
    destruct (scored_as_In_l j0 d0 HF Hin0) as (s & Hin & Hs').
    assert (s = score_value damage_weight dmg d0 d_max) by congruence. subst s.
    apply Hall in Hin. simpl in Hin. congruence.
  - destruct Hex as (pre & j & s & post & E & Hs & _).
    rewrite Hs. simpl.
    assert (Hj : In j unvisited).
    { rewrite <- Hkeys, <- (scored_as_keys HF), E, map_app.
      apply in_or_app. right. left. reflexivity. }
    edestruct Hlegs as (d & Hleg); [exact Hc | exact (proj2 (Hu j Hj)) |].
    rewrite Hleg. simpl. eauto.
Qed.

Lemma greedy_loop_complete (fuel : nat) (unvisited path : list nat)
    (total : float) (current : nat) :
  (length unvisited <= fuel)%nat -> NoDup unvisited ->
  site_indices coords unvisited ->
  (current < length coords)%nat ->
  exists order cost,
    greedy_loop fuel coords damage_scores damage_weight unvisited path total
      current = Ok (order, cost) /\
    Permutation order (path ++ unvisited).
Proof.
  revert unvisited path total current.
  induction fuel as [|f IH]; intros unvisited path total current Hf Hnd Hu Hc.
  - destruct unvisited; [|simpl in Hf; lia]. simpl.
    exists path, total. rewrite app_nil_r. auto.
  - destruct unvisited as [|a u] eqn:Eu.
    { simpl. exists path, total. rewrite app_nil_r. auto. }
    rewrite <- Eu in *.
    destruct (@greedy_step_total unvisited current) as (j & d & Hs); auto.
    { rewrite Eu. discriminate. }
    destruct (@greedy_step_some M coords damage_scores damage_weight
                unvisited current j d Hs) as (Hj & _).
    assert (Hloop : greedy_loop (S f) coords damage_scores damage_weight
              unvisited path total current
            = greedy_loop f coords damage_scores damage_weight
                (discard j unvisited) (path ++ [j]) (total + d) j).
    { rewrite Eu in *. cbn [greedy_loop]. rewrite Hs. reflexivity. }
    rewrite Hloop.
    destruct (IH (discard j unvisited) (path ++ [j]) (total + d) j)
      as (order & cost & Hr & Hp).
    + pose proof (@discard_length j unvisited Hj). lia.
    + apply discard_NoDup, Hnd.
    + intros k Hk. apply discard_In in Hk. apply Hu. tauto.
    + apply (Hu j Hj).
    + exists order, cost. split; [exact Hr|].
      rewrite Hp, <- app_assoc. apply Permutation_app_head.
      simpl. symmetry. apply discard_Permutation; assumption.
Qed.

Lemma greedy_complete :
  (2 <= length coords)%nat ->
  exists order cost,
    _route_order_greedy coords damage_scores damage_weight = Ok (order, cost) /\
    Permutation order (seq 0 (length coords)).
Proof.
  intros Hn. unfold _route_order_greedy.
  destruct (Nat.leb_spec (length coords) 1); [lia|].
  destruct (@greedy_loop_complete (length (seq 1 (length coords - 1)))
              (seq 1 (length coords - 1)) [0%nat] 0 0%nat)
    as (order & cost & Hr & Hp); auto.
  - apply seq_NoDup.
  - intros k Hk. apply in_seq in Hk. lia.
  - lia.
  - exists order, cost. split; [exact Hr|].
    rewrite Hp. simpl.
    replace (length coords) with (S (length coords - 1)) at 2 by lia.
    reflexivity.
Qed.

End GreedyComplete.

(** * The solver path and the entry point *)

Section RouteFacts.

Context {M : MathLib} {Sv : RoutingSolver}.

Lemma tsp_cost (coords : list coord) (damage_scores : list float)
    (damage_weight : float) (order : list nat) (cost : float) :
  _route_order_tsp coords damage_scores damage_weight = Ok (order, cost) ->
  total_distance_km_along_order order coords = Ok cost.
Proof.
  unfold _route_order_tsp. intros H.
  destruct (negb ortools_importable); [apply greedy_cost in H; exact H|].
  destruct (length coords <=? 1)%nat; [inversion H; subst; reflexivity|].
  apply bind_ok in H. destruct H as (m & Hm & H).
  destruct (SolveWithParameters (length coords) m) as [visited|].
  - apply bind_ok in H. destruct H as (t & Ht & H).
    inversion H; subst. exact Ht.
  - apply greedy_cost in H. exact H.
Qed.

Lemma route_order_cost (hub : coord) (sites : list site)
    (damage_weight : float) (algorithm : string) (order : list nat)
    (cost : float) :
  route_order hub sites damage_weight algorithm = Ok (order, cost) ->
  total_distance_km_along_order order (coords_of hub sites) = Ok cost.
Proof.
  unfold route_order. intros H. destruct sites as [|s sites].
  - inversion H; subst. reflexivity.
  - destruct (String.eqb algorithm "tsp").
    + apply tsp_cost in H. exact H.
    + apply greedy_cost in H. exact H.
Qed.

Lemma greedy_indices (coords : list coord) (damage_scores : list float)
    (damage_weight : float) (order : list nat) (cost : float) :
  _route_order_greedy coords damage_scores damage_weight = Ok (order, cost) ->
  Forall (fun i => (i <= length coords - 1)%nat) order.
Proof.
  intros H. apply greedy_order_shape in H.
  destruct H as (extra & -> & _ & Hin).
  constructor; [lia|]. apply Forall_forall. intros k Hk.
  apply Hin in Hk. lia.
Qed.

Lemma drop_closing_hub_incl (order : list nat) :
  incl (drop_closing_hub order) order.
Proof.
  unfold drop_closing_hub. destruct order as [|a rest]; [apply incl_refl|].
  destruct ((last (a :: rest) 0 =? 0) && (1 <? length (a :: rest)))%nat;
    [|apply incl_refl].
  intros k Hk.
  rewrite (app_removelast_last (l := a :: rest) 0%nat) by discriminate.
  apply in_or_app. left. exact Hk.
Qed.

Lemma tsp_indices (coords : list coord) (damage_scores : list float)
    (damage_weight : float) (order : list nat) (cost : float) :
  solver_nodes_in_range Sv ->
  _route_order_tsp coords damage_scores damage_weight = Ok (order, cost) ->
  Forall (fun i => (i <= length coords - 1)%nat) order.
Proof.
  unfold _route_order_tsp. intros Hsv H.
  destruct (negb ortools_importable); [eapply greedy_indices; exact H|].
  destruct (length coords <=? 1)%nat.
  { inversion H; subst. constructor; [lia | constructor]. }
  apply bind_ok in H. destruct H as (m & Hm & H).
  destruct (SolveWithParameters (length coords) m) as [visited|] eqn:E.
  - apply bind_ok in H. destruct H as (t & Ht & H).
    inversion H; subst. apply Hsv in E.
    rewrite Forall_forall in *. intros k Hk.
    apply drop_closing_hub_incl, E in Hk. lia.
  - eapply greedy_indices; exact H.
Qed.

End RouteFacts.

(** * The claims *)

(** ** The solver's fallback and the reported cost *)

(** C2. When the solver package cannot be imported, or the solver is called
    (the cost matrix was built) and finds no assignment, the solver path
    returns exactly what the greedy constructor returns on the same
    coordinates, damage scores and damage weight: the same order and cost, or
    the same exception if the greedy constructor itself raises one. *)
Theorem tsp_falls_back_to_greedy {M : MathLib} {Sv : RoutingSolver}
    (coords : list coord) (damage_scores : list float) (damage_weight : float) :
  ortools_importable = false \/
  (exists cost_matrix,
     cost_matrix_of coords damage_scores damage_weight = Ok cost_matrix /\
     SolveWithParameters (length coords) cost_matrix = None) ->
  _route_order_tsp coords damage_scores damage_weight
  = _route_order_greedy coords damage_scores damage_weight.
Proof.
  intros H. unfold _route_order_tsp.
  destruct ortools_importable eqn:Himp; simpl; [|reflexivity].
  destruct H as [H|(m & Hm & Hnone)]; [discriminate|].
  destruct (length coords <=? 1)%nat eqn:Hn.
  - unfold _route_order_greedy. rewrite Hn. reflexivity.
  - rewrite Hm. simpl. rewrite Hnone. reflexivity.
Qed.

(** The fallback on the scenario, with a solver that finds no assignment. *)
Lemma tsp_falls_back_to_greedy_demo :
  @_route_order_tsp flat_math infeasible_solver
    (coords_of demo_hub demo_sites) (damage_scores_of demo_sites) 1
  = @_route_order_greedy flat_math
      (coords_of demo_hub demo_sites) (damage_scores_of demo_sites) 1.
Proof.
  apply (@tsp_falls_back_to_greedy flat_math infeasible_solver).
  right. eexists. split; [vm_compute; reflexivity | reflexivity].
Defined.

(** C3. The cost that [route_order] returns is the evaluator's raw distance
    along the order it returns, whichever path computed it: the greedy
    constructor's running total adds the same legs in the same order as
    [total_distance_km_along_order], and the solver path calls it. *)
Theorem route_cost_is_raw_distance {M : MathLib} {Sv : RoutingSolver}
    (hub : coord) (sites : list site) (damage_weight : float)
    (algorithm : string) (order : list nat) (cost : float) :
  route_order hub sites damage_weight algorithm = Ok (order, cost) ->
  total_distance_km_along_order order (coords_of hub sites) = Ok cost.
Proof. apply route_order_cost. Qed.

(** The cost of the scenario's route through the solver path. *)
Lemma route_cost_is_raw_distance_demo :
  exists order cost,
    @route_order flat_math index_order_solver demo_hub demo_sites 0.5 "tsp"
    = Ok (order, cost) /\
    @total_distance_km_along_order flat_math order
      (coords_of demo_hub demo_sites) = Ok cost.
Proof.
  eexists. eexists.
  assert (H : @route_order flat_math index_order_solver demo_hub demo_sites
                0.5 "tsp" = Ok (_, _)) by (vm_compute; reflexivity).
  split; [exact H|].
  exact (@route_cost_is_raw_distance flat_math index_order_solver
           demo_hub demo_sites 0.5 "tsp" _ _ H).
Defined.

(** ** The damage weight *)




(** ** Indices of the returned order *)

Lemma compute_route_of_route_order {M : MathLib} {Sv : RoutingSolver}
    (hub : coord) (sites : list site) (damage_weight : float)
    (algorithm : string) (order : list nat) (cost : float) :
  route_order hub sites damage_weight (normalise_algorithm algorithm)
  = Ok (order, cost) ->
  compute_route hub sites damage_weight algorithm = Ok (order, cost, cost).
Proof.
  intros H. unfold compute_route. destruct sites as [|s sites].
  - unfold route_order in H. inversion H; subst. reflexivity.
  - rewrite H. cbn [bind fst snd]. apply route_order_cost in H.
    unfold total_distance_km. unfold coords_of in H. rewrite H. reflexivity.
Qed.

(** C10. An order that [route_order] returns for [n] sites holds only
    indices in [0, n], given that the solver hands back nodes below its node
    count; so the handler's own [total_distance_km] over that order and the
    table [[hub] + sites] raises no [IndexError]: it returns the cost again,
    and [compute_route] returns the order with both distances. *)
Theorem route_order_indices_in_range {M : MathLib} {Sv : RoutingSolver}
    (hub : coord) (sites : list site) (damage_weight : float)
    (algorithm : string) (order : list nat) (cost : float) :
  solver_nodes_in_range Sv ->
  route_order hub sites damage_weight (normalise_algorithm algorithm)
  = Ok (order, cost) ->
  Forall (fun i => (i <= length sites)%nat) order /\
  total_distance_km order (hub :: map site_coord sites) = Ok cost /\
  compute_route hub sites damage_weight algorithm = Ok (order, cost, cost).
Proof.
  intros Hsv H. split; [|split].
  - unfold route_order in H. destruct sites as [|s sites].
    + inversion H; subst. constructor; [lia | constructor].
    + assert (Hn : (length (coords_of hub (s :: sites)) - 1
                    = length (s :: sites))%nat).
      { unfold coords_of. simpl. rewrite length_map. lia. }
      rewrite <- Hn.
      destruct (String.eqb (normalise_algorithm algorithm) "tsp").
      * eapply tsp_indices; eassumption.
      * eapply greedy_indices; eassumption.
  - apply route_order_cost in H. exact H.
  - apply compute_route_of_route_order, H.
Qed.

Lemma index_order_solver_in_range : solver_nodes_in_range index_order_solver.
Proof.
  intros n m order H. simpl in H. inversion H; subst.
  apply Forall_forall. intros k Hk. apply in_seq in Hk. lia.
Qed.

(** The scenario through the handler, with a solver that answers. *)
Lemma route_order_indices_in_range_demo :
  exists order cost,
    Forall (fun i => (i <= length demo_sites)%nat) order /\
    @total_distance_km flat_math order (demo_hub :: map site_coord demo_sites)
    = Ok cost /\
    @compute_route flat_math index_order_solver demo_hub demo_sites 0.5 "tsp"
    = Ok (order, cost, cost).
Proof.
  eexists. eexists.
  apply (@route_order_indices_in_range flat_math index_order_solver
           demo_hub demo_sites 0.5 "tsp").
  - exact index_order_solver_in_range.
  - vm_compute. reflexivity.
Defined.

(** ** The distance normaliser *)

Lemma pick_best_never_divides_by_zero (damage_scores : list float)
    (damage_weight d_max : float) (dists : list (nat * float))
    (best : option nat * float) :
  (d_max =? 0) = false ->
  pick_best damage_scores damage_weight d_max dists best
  <> Raise ZeroDivisionError.
Proof.
  intros Hnz. revert best.
  induction dists as [|[j d] rest IH]; intros best; simpl; [discriminate|].
  unfold site_score, getitem.
  destruct (nth_error damage_scores j); simpl; [|discriminate].
  rewrite truediv_nonzero by assumption. simpl. apply IH.
Qed.

(** C6. In a round of the greedy loop, [d_max] is the maximum of the
    distances of [dists] (a distance of the list that none exceeds), or 1
    when that maximum equals zero; it is never zero, so [d / d_max] raises no
    [ZeroDivisionError], in the scan for the best site or anywhere else. *)
Theorem d_max_is_never_zero (dists : list (nat * float)) (d_max : float) :
  d_max_of dists = Ok d_max ->
  (d_max =? 0) = false /\
  (exists m,
     max_of (map snd dists) = Ok m /\
     In m (map snd dists) /\
     (forall d, In d (map snd dists) -> gt d m = false) /\
     d_max = if m =? 0 then 1 else m) /\
  (forall d, truediv d d_max = Ok (d / d_max)) /\
  (forall damage_scores damage_weight best,
     pick_best damage_scores damage_weight d_max dists best
     <> Raise ZeroDivisionError).
Proof.
  intros H. unfold d_max_of in H. apply bind_ok in H.
  destruct H as (m & Hm & H). inversion H; subst. clear H.
  pose proof (or_else_nonzero m) as Hnz.
  split; [exact Hnz|]. split; [|split].
  - exists m. destruct (max_of_spec _ Hm) as (Hin & Hall).
    repeat split; auto.
    unfold or_else, truthy. destruct (m =? 0); reflexivity.
  - intros d. apply truediv_nonzero, Hnz.
  - intros. apply pick_best_never_divides_by_zero, Hnz.
Qed.

(** A round in which every site is at distance zero: [d_max] is 1. *)
Lemma d_max_is_never_zero_demo :
  (1 =? 0) = false /\
  (exists m,
     max_of (map snd [(1%nat, 0); (2%nat, 0)]) = Ok m /\
     In m (map snd [(1%nat, 0); (2%nat, 0)]) /\
     (forall d, In d (map snd [(1%nat, 0); (2%nat, 0)]) -> gt d m = false) /\
     1 = if m =? 0 then 1 else m) /\
  (forall d, truediv d 1 = Ok (d / 1)) /\
  (forall damage_scores damage_weight best,
     pick_best damage_scores damage_weight 1 [(1%nat, 0); (2%nat, 0)] best
     <> Raise ZeroDivisionError).
Proof.
  apply (@d_max_is_never_zero [(1%nat, 0); (2%nat, 0)] 1).
  reflexivity.
Defined.

(** ** The cost matrix *)

Lemma guarded_damage (damage_scores : list float) (j : nat) :
  (if (j <? length damage_scores)%nat
   then getitem damage_scores j else Ok 0)
  = Ok (nth j damage_scores 0).
Proof.
  destruct (Nat.ltb_spec j (length damage_scores)) as [H|H].
  - unfold getitem. rewrite nth_error_nth' with (d := 0) by assumption.
    reflexivity.
  - rewrite nth_overflow by assumption. reflexivity.
Qed.

(** C7. In the cost matrix of the solver path, the entry for the leg from
    [i] to [j] is 0 on the diagonal and 0 when the destination [j] is the
    hub; any other entry is
    [haversine(i, j) * (1 - damage_weight * damage_score[j] / 100)] times
    1000, rounded to the nearest integer (halves to the even one), the
    damage score counting as 0 past the end of the damage list. *)
Theorem cost_matrix_entries {M : MathLib} (coords : list coord)
    (damage_scores : list float) (damage_weight : float)
    (cost_matrix : list (list Z)) (i j : nat) :
  cost_matrix_of coords damage_scores damage_weight = Ok cost_matrix ->
  (i < length coords)%nat -> (j < length coords)%nat ->
  exists row c,
    nth_error cost_matrix i = Some row /\ nth_error row j = Some c /\
    (i = j -> c = 0%Z) /\
    (j = 0%nat -> c = 0%Z) /\
    (i <> j -> j <> 0%nat ->
     exists d_km,
       leg_km coords i j = Ok d_km /\
       round (d_km * (1 - damage_weight * nth j damage_scores 0 / 100) * 1000)
       = Ok c).
Proof.
  unfold cost_matrix_of. intros H Hi Hj.
  eapply mapM_seq_nth in H; [|exact Hi]. destruct H as (row & Hrow & Hr).
  eapply mapM_seq_nth in Hr; [|exact Hj]. destruct Hr as (c & Hc & He).
  exists row, c. split; [exact Hrow|]. split; [exact Hc|].
  unfold cost_entry in He.
  destruct (Nat.eqb_spec i j) as [Hij|Hij].
  - inversion He; subst. repeat split; auto. congruence.
  - apply bind_ok in He. destruct He as (d_km & Hd & He).
    rewrite guarded_damage in He. simpl bind in He.
    split; [congruence|]. split.
    + intros ->. simpl in He.
      change (0 * 1000) with 0 in He. vm_compute in He. congruence.
    + intros _ Hj0. exists d_km. split; [exact Hd|].
      destruct (Nat.eqb_spec j 0) as [->|_]; [congruence | exact He].
Qed.

(** The entry from site 1 to site 2 of the scenario's matrix. *)
Lemma cost_matrix_entries_demo :
  exists m row c,
    @cost_matrix_of flat_math (coords_of demo_hub demo_sites)
      (damage_scores_of demo_sites) 0.5 = Ok m /\
    nth_error m 1 = Some row /\ nth_error row 2 = Some c /\
    (1%nat = 2%nat -> c = 0%Z) /\
    (2%nat = 0%nat -> c = 0%Z) /\
    (1%nat <> 2%nat -> 2%nat <> 0%nat ->
     exists d_km,
       @leg_km flat_math (coords_of demo_hub demo_sites) 1 2 = Ok d_km /\
       round (d_km * (1 - 0.5 * nth 2 (damage_scores_of demo_sites) 0 / 100)
              * 1000) = Ok c).
Proof.
  eexists.
  assert (H : @cost_matrix_of flat_math (coords_of demo_hub demo_sites)
                (damage_scores_of demo_sites) 0.5 = Ok _)
    by (vm_compute; reflexivity).
  destruct (@cost_matrix_entries flat_math (coords_of demo_hub demo_sites)
              (damage_scores_of demo_sites) 0.5 _ 1 2 H)
    as (row & c & Hrow & Hc & Hrest); [simpl; lia | simpl; lia |].
  exists row, c. split; [exact H|]. split; [exact Hrow|]. split; [exact Hc|].
  exact Hrest.
Defined.

(** ** Which sites the greedy constructor visits *)

(** With one site whose damage score is NaN, the site's score is NaN, the
    scan selects nothing and the loop breaks: the order is the hub alone. *)
Lemma greedy_nan_damage {M : MathLib} (c0 c1 : coord) (w : float)
    (order : list nat) (cost : float) :
  _route_order_greedy [c0; c1] [0; nan] w = Ok (order, cost) ->
  order = [0%nat].
Proof.
  unfold _route_order_greedy. cbn [length Nat.leb Nat.sub seq greedy_loop].
  unfold greedy_step, dists_from. cbn [getitem nth_error bind mapM].
  destruct (haversine_km (fst c0) (snd c0) (fst c1) (snd c1)) as [d|e];
    cbn [bind]; [|discriminate].
  unfold d_max_of. cbn [map snd max_of fold_left bind pick_best].
  unfold site_score. cbn [getitem nth_error bind].
  rewrite truediv_nonzero by apply or_else_nonzero. cbn [bind].
  change (nan / 100) with nan.
  rewrite F64Facts.mul_nan_r, F64Facts.sub_nan_l.
  change (gt nan (snd (@None nat, neg_infinity))) with false.
  cbn [fst bind]. intros H. inversion H. reflexivity.
Qed.

(** C1, counterexample. A hub at (0, 0) and one site at (0, 0) whose damage
    score is NaN: whatever the math library returns, the greedy constructor
    returns no order of length 2; the site is left out. *)
Lemma greedy_omits_site_with_nan_damage :
  ~ exists (M : MathLib) (order : list nat) (cost : float),
      @_route_order_greedy M (coords_of (0, 0) [(0, 0, nan)])
        (damage_scores_of [(0, 0, nan)]) 1 = Ok (order, cost) /\
      length order = 2%nat.
Proof.
  intros (M & order & cost & H & Hlen).
  apply greedy_nan_damage in H. subst order. discriminate.
Qed.

(** Inputs within the data model give scores above minus infinity. *)
Lemma scores_in_range {M : MathLib} (hub : coord) (sites : list site)
    (damage_weight : float) :
  weight_in_range damage_weight ->
  Forall (fun s => damage_in_range (site_damage s)) sites ->
  legs_finite (coords_of hub sites) ->
  scores_above_sentinel (coords_of hub sites) (damage_scores_of sites)
    damage_weight.
Proof.
  intros [Hw0 Hw1] Hdmg Hfin cur j k dmg dj dk Hj Hk Hg Hdj Hdk Hmax.
  destruct (Hfin _ _ _ Hdj) as [Hj0 _]. destruct (Hfin _ _ _ Hdk) as [Hk0 Hkf].
  destruct j as [|j]; [lia|]. unfold damage_scores_of in Hg. simpl in Hg.
  apply nth_error_In, in_map_iff in Hg. destruct Hg as (s & <- & Hs).
  rewrite Forall_forall in Hdmg. destruct (Hdmg s Hs) as [Hg0 Hg1].
  apply F64Magnitude.score_in_range_above_sentinel; assumption.
Qed.

(** C1, amended. For every hub and non-empty list of [n] sites with damage
    scores in [0, 100], and a damage weight in [0, 1], if every distance
    between two nodes is computed without an exception and is a finite
    number that is not negative, the greedy constructor returns an order of
    length [n + 1] that starts with the hub index 0 and holds each index
    0..n exactly once. *)
Theorem greedy_visits_every_site {M : MathLib} (hub : coord)
    (sites : list site) (damage_weight : float) :
  sites <> [] ->
  weight_in_range damage_weight ->
  Forall (fun s => damage_in_range (site_damage s)) sites ->
  legs_defined (coords_of hub sites) ->
  legs_finite (coords_of hub sites) ->
  exists order cost,
    _route_order_greedy (coords_of hub sites) (damage_scores_of sites)
      damage_weight = Ok (order, cost) /\
    length order = S (length sites) /\
    nth_error order 0 = Some 0%nat /\
    Permutation order (seq 0 (S (length sites))).
Proof.
  intros Hne Hw Hdmg Hlegs Hfin.
  assert (Hscore : scores_above_sentinel (coords_of hub sites)
                     (damage_scores_of sites) damage_weight)
    by (apply scores_in_range; assumption).
  assert (Hn : length (coords_of hub sites) = S (length sites))
    by (unfold coords_of; simpl; rewrite length_map; reflexivity).
  assert (Hd : length (damage_scores_of sites) = S (length sites))
    by (unfold damage_scores_of; simpl; rewrite length_map; reflexivity).
  destruct (@greedy_complete M (coords_of hub sites) (damage_scores_of sites)
              damage_weight) as (order & cost & Hr & Hp); auto.
  { lia. }
  { rewrite Hn. destruct sites; [congruence | simpl; lia]. }
  exists order, cost. rewrite Hn in Hp. split; [exact Hr|].
  split; [|split; [|exact Hp]].
  - rewrite (Permutation_length Hp), length_seq. reflexivity.
  - apply greedy_order_shape in Hr. destruct Hr as (extra & -> & _).
    reflexivity.
Qed.

Lemma demo_damage_in_range :
  Forall (fun s => damage_in_range (site_damage s)) demo_sites.
Proof. repeat constructor. Qed.

Lemma demo_legs_defined :
  @legs_defined flat_math (coords_of demo_hub demo_sites).
Proof.
  intros a b Ha Hb.
  index_cases a Ha 4; index_cases b Hb 4;
    match goal with
    | |- exists d, ?t = Ok d =>
        let r := eval vm_compute in t in
        match r with Ok ?v => exists v; vm_compute; reflexivity end
    end.
Qed.

Lemma demo_legs_finite :
  @legs_finite flat_math (coords_of demo_hub demo_sites).
Proof.
  intros a b d H.
  assert (Ha : (a < 4)%nat).
  { unfold leg_km in H. apply bind_ok in H. destruct H as (c & Hc & _).
    apply getitem_ok_lt in Hc. exact Hc. }
  assert (Hb : (b < 4)%nat).
  { unfold leg_km in H. apply bind_ok in H. destruct H as (c & _ & H).
    apply bind_ok in H. destruct H as (cb & Hcb & _).
    apply getitem_ok_lt in Hcb. exact Hcb. }
  index_cases a Ha 4; index_cases b Hb 4;
    vm_compute in H; inversion H; split; reflexivity.
Qed.

(** The scenario with damage weight 0.5. *)
Lemma greedy_visits_every_site_demo :
  exists order cost,
    @_route_order_greedy flat_math (coords_of demo_hub demo_sites)
      (damage_scores_of demo_sites) 0.5 = Ok (order, cost) /\
    length order = S (length demo_sites) /\
    nth_error order 0 = Some 0%nat /\
    Permutation order (seq 0 (S (length demo_sites))).
Proof.
  apply (@greedy_visits_every_site flat_math demo_hub demo_sites 0.5).
  - discriminate.
  - split; reflexivity.
  - exact demo_damage_in_range.
  - exact demo_legs_defined.
  - exact demo_legs_finite.
Defined.

(** ** The selection rule *)



(** ** The first pick at damage weight 1 *)

(** At damage weight 1 a score that is a number compares as the site's
    damage score divided by 100 does. *)
Lemma score_full_weight (dmg d d_max c : float) :
  gt (score_value 1 dmg d d_max) neg_infinity = true ->
  F64.fcmp (score_value 1 dmg d d_max) c = F64.fcmp (dmg / 100) c /\
  F64.fcmp c (score_value 1 dmg d d_max) = F64.fcmp c (dmg / 100).
Proof.
  unfold score_value. change (1 - 1) with 0.
  rewrite F64Facts.mul_1_l. apply F64Facts.sub_zero_mul_cmp.
Qed.

Lemma full_weight_leb (dmg1 d1 dmg2 d2 d_max : float) :
  gt (score_value 1 dmg1 d1 d_max) neg_infinity = true ->
  gt (score_value 1 dmg2 d2 d_max) neg_infinity = true ->
  (score_value 1 dmg1 d1 d_max <=? score_value 1 dmg2 d2 d_max)
  = (dmg1 / 100 <=? dmg2 / 100) /\
  (score_value 1 dmg1 d1 d_max <? score_value 1 dmg2 d2 d_max)
  = (dmg1 / 100 <? dmg2 / 100).
Proof.
  intros H1 H2. rewrite !F64Facts.leb_fcmp, !F64Facts.ltb_fcmp.
  rewrite (proj1 (score_full_weight (score_value 1 dmg2 d2 d_max) H1)).
  rewrite (proj2 (score_full_weight (dmg1 / 100) H2)).
  split; reflexivity.
Qed.

Lemma greedy_step_selected {M : MathLib} (coords : list coord)
    (damage_scores : list float) (damage_weight : float)
    (unvisited : list nat) (current j : nat) (d_km : float) :
  greedy_step coords damage_scores damage_weight unvisited current
  = Ok (Some (j, d_km)) ->
  exists dists d_max r,
    dists_from coords current unvisited = Ok dists /\
    d_max_of dists = Ok d_max /\
    pick_best damage_scores damage_weight d_max dists (None, neg_infinity)
    = Ok r /\
    fst r = Some j.
Proof.
  unfold greedy_step. intros H.
  apply bind_ok in H. destruct H as (dists & Hd & H).
  destruct dists as [|jd rest] eqn:E; [discriminate|]. rewrite <- E in *.
  apply bind_ok in H. destruct H as (d_max & Hm & H).
  apply bind_ok in H. destruct H as (best & Hb & H).
  destruct (fst best) as [j'|] eqn:Ej; [|discriminate].
  apply bind_ok in H. destruct H as (d & _ & H). inversion H; subst.
  exists (jd :: rest), d_max, best. auto.
Qed.

(** The site of the first round is the second element of the order. *)
Lemma greedy_first_pick {M : MathLib} (coords : list coord)
    (damage_scores : list float) (damage_weight : float)
    (order : list nat) (cost : float) (j : nat) (d_km : float) :
  (2 <= length coords)%nat ->
  _route_order_greedy coords damage_scores damage_weight = Ok (order, cost) ->
  greedy_step coords damage_scores damage_weight
    (seq 1 (length coords - 1)) 0 = Ok (Some (j, d_km)) ->
  nth_error order 1 = Some j.
Proof.
  unfold _route_order_greedy. intros Hn H Hs.
  destruct (Nat.leb_spec (length coords) 1); [lia|].
  destruct (seq 1 (length coords - 1)) as [|a u] eqn:E.
  { apply (f_equal (@length nat)) in E. rewrite length_seq in E.
    simpl in E. lia. }
  cbn [length greedy_loop] in H. rewrite Hs in H. cbn [bind] in H.
  apply greedy_loop_extends in H. destruct H as (extra & -> & _).
  reflexivity.
Qed.

Lemma greedy_loop_round {M : MathLib} (fuel : nat) (coords : list coord)
    (damage_scores : list float) (damage_weight : float) (a : nat)
    (u path : list nat) (total : float) (current : nat) :
  greedy_loop (S fuel) coords damage_scores damage_weight (a :: u) path total
    current
  = (step <- greedy_step coords damage_scores damage_weight (a :: u) current ;;
     match step with
     | None => Ok (path, total)
     | Some (j, d_km) =>
         greedy_loop fuel coords damage_scores damage_weight
           (discard j (a :: u)) (path ++ [j]) (total + d_km) j
     end).
Proof. reflexivity. Qed.

(** With two sites at the hub's coordinates whose damage scores [damage_lo]
    and [damage_hi] divide by 100 to the same float, the first round at
    damage weight 1 never selects site 2. *)
Lemma step_equal_quotients {M : MathLib} (r : option (nat * float)) :
  greedy_step [(0, 0); (0, 0); (0, 0)] [0; damage_lo; damage_hi] 1
    [1%nat; 2%nat] 0 = Ok r ->
  r = None \/ exists d_km, r = Some (1%nat, d_km).
Proof.
  unfold greedy_step, dists_from.
  cbn [getitem nth_error bind mapM fst snd].
  destruct (haversine_km 0 0 0 0) as [d|e] eqn:Eh; cbn [bind];
    [|discriminate].
  unfold d_max_of. cbn [map snd max_of fold_left bind pick_best].
  set (dm := or_else (max2 d d) 1).
  assert (Hdm : (dm =? 0) = false) by apply or_else_nonzero.
  unfold site_score. cbn [getitem nth_error bind].
  rewrite truediv_nonzero by exact Hdm. cbn [bind].
  change (damage_lo / 100) with (damage_hi / 100).
  set (s := 1 * (damage_hi / 100) - (1 - 1) * (d / dm)).
  cbn [snd]. destruct (gt s neg_infinity) eqn:G; cbn [snd].
  - unfold gt at 1. rewrite F64Facts.ltb_irrefl. cbn [fst bind].
    unfold leg_km. cbn [getitem nth_error bind fst snd]. rewrite Eh.
    cbn [bind]. intros H. inversion H. right. eauto.
  - rewrite G. cbn [fst bind]. intros H. inversion H. left. reflexivity.
Qed.

Lemma greedy_equal_quotients {M : MathLib} (order : list nat) (cost : float) :
  _route_order_greedy [(0, 0); (0, 0); (0, 0)] [0; damage_lo; damage_hi] 1
  = Ok (order, cost) ->
  nth_error order 1 <> Some 2%nat.
Proof.
  unfold _route_order_greedy. cbn [length Nat.leb Nat.sub seq].
  rewrite greedy_loop_round. intros H.
  apply bind_ok in H. destruct H as (r & Hr & H).
  apply step_equal_quotients in Hr. destruct Hr as [->|(d & ->)].
  - inversion H. discriminate.
  - apply greedy_loop_extends in H. destruct H as (extra & -> & _).
    discriminate.
Qed.

(** C4, counterexample. Sites 1 and 2 lie at the hub's coordinates with
    damage scores [damage_lo < damage_hi], both in [0, 100]; at damage weight
    1 the first site selected is never site 2, the one with the maximum
    damage score (the two scores tie after the division by 100 and the lower
    index wins).  And with one site whose damage score is NaN the order has
    no second element at all. *)
Lemma greedy_first_pick_misses_max_damage :
  (damage_lo <? damage_hi) = true /\
  (damage_hi <=? 100) = true /\
  (~ exists (M : MathLib) (order : list nat) (cost : float),
       @_route_order_greedy M
         (coords_of (0, 0) [(0, 0, damage_lo); (0, 0, damage_hi)])
         (damage_scores_of [(0, 0, damage_lo); (0, 0, damage_hi)]) 1
       = Ok (order, cost) /\
       nth_error order 1 = Some 2%nat) /\
  (~ exists (M : MathLib) (order : list nat) (cost : float) (j : nat),
       @_route_order_greedy M (coords_of (0, 0) [(0, 0, nan)])
         (damage_scores_of [(0, 0, nan)]) 1 = Ok (order, cost) /\
       nth_error order 1 = Some j).
Proof.
  split; [reflexivity|]. split; [reflexivity|]. split.
  - intros (M & order & cost & H & Hj).
    apply greedy_equal_quotients in H. contradiction.
  - intros (M & order & cost & j & H & Hj).
    apply greedy_nan_damage in H. subst order. discriminate.
Qed.

(** C4, amended. For every hub and non-empty site list with damage scores
    in [0, 100], at damage weight 1, if every distance between two nodes is
    computed without an exception and is a finite number that is not
    negative, then the order has a second element [j], the first site
    selected, and [j] maximises the damage score divided by 100 as the code
    computes it: no site's quotient is greater, and every site of lower
    index has a strictly smaller one.  (The distance term is a zero; the
    damage score itself is maximal up to the rounding of that division.) *)
Theorem greedy_first_pick_at_full_weight {M : MathLib} (hub : coord)
    (sites : list site) :
  sites <> [] ->
  Forall (fun s => damage_in_range (site_damage s)) sites ->
  legs_defined (coords_of hub sites) ->
  legs_finite (coords_of hub sites) ->
  exists order cost j dmg_j,
    _route_order_greedy (coords_of hub sites) (damage_scores_of sites) 1
    = Ok (order, cost) /\
    nth_error order 1 = Some j /\
    (1 <= j <= length sites)%nat /\
    nth_error (damage_scores_of sites) j = Some dmg_j /\
    forall k dmg_k,
      (1 <= k)%nat -> nth_error (damage_scores_of sites) k = Some dmg_k ->
      (dmg_k / 100 <=? dmg_j / 100) = true /\
      ((k < j)%nat -> (dmg_k / 100 <? dmg_j / 100) = true).
Proof.
  intros Hne Hdmg Hlegs Hfin.
  assert (Hscore : scores_above_sentinel (coords_of hub sites)
                     (damage_scores_of sites) 1)
    by (apply scores_in_range; [split; reflexivity | assumption..]).
  clear Hdmg Hfin.
  set (coords := coords_of hub sites) in *.
  set (ds := damage_scores_of sites) in *.
  assert (Hn : length coords = S (length sites))
    by (unfold coords, coords_of; simpl; rewrite length_map; reflexivity).
  assert (Hd : length ds = S (length sites))
    by (unfold ds, damage_scores_of; simpl; rewrite length_map; reflexivity).
  assert (Hn2 : (2 <= length coords)%nat)
    by (rewrite Hn; destruct sites; [congruence | simpl; lia]).
  assert (Hlen : (length coords <= length ds)%nat) by lia.
  set (u := seq 1 (length coords - 1)).
  assert (Hu : forall k, In k u -> (1 <= k < length coords)%nat)
    by (intros k Hk; apply in_seq in Hk; lia).
  destruct (@greedy_complete M coords ds 1 Hlen Hlegs Hscore Hn2)
    as (order & cost & Hr & _).
  destruct (@greedy_step_total M coords ds 1 Hlen Hlegs Hscore u 0%nat)
    as (j & d_km & Hs); auto; try lia.
  { unfold u. destruct (length coords - 1)%nat eqn:E; [lia | discriminate]. }
  assert (Hpick : nth_error order 1 = Some j)
    by (eapply greedy_first_pick; eassumption).
  pose proof Hs as Hsel. apply greedy_step_selected in Hsel.
  destruct Hsel as (dists & d_max & r & Hdists & Hmax & Hbest & Hj).
  pose proof Hdists as Hkeys. apply dists_keys in Hkeys.
  assert (Hsorted : StronglySorted lt (map fst dists))
    by (rewrite Hkeys; apply seq_sorted).
  destruct (@pick_best_selected ds 1 d_max dists r j Hsorted Hbest Hj)
    as (d & s & Hin & Hsj & _ & Hgt & Hall).
  pose proof (@round_scores M coords ds 1 Hlen Hscore u 0%nat dists d_max
                Hu Hdists Hmax) as Hround.
  destruct (Hround j d Hin) as (dmg_j & Hdj & Hvj & Hgj).
  assert (s = score_value 1 dmg_j d d_max) by congruence. subst s.
  assert (Hju : In j u).
  { rewrite <- Hkeys. change j with (fst (j, d)). apply in_map, Hin. }
  exists order, cost, j, dmg_j.
  split; [exact Hr|]. split; [exact Hpick|].
  split; [apply Hu in Hju; lia|]. split; [exact Hdj|].
  intros k dmg_k Hk1 Hdk.
  assert (Hku : In k u).
  { apply in_seq. assert (k < length ds)%nat
      by (apply nth_error_Some; congruence). lia. }
  rewrite <- Hkeys in Hku. apply in_map_iff in Hku.
  destruct Hku as ([k' dk] & Hk' & Hink). simpl in Hk'. subst k'.
  destruct (Hround k dk Hink) as (dmg_k' & Hdk' & Hvk & Hgk).
  assert (dmg_k' = dmg_k) by congruence. subst dmg_k'.
  destruct (Hall k dk _ Hink Hvk) as (Hle & Hlow).
  destruct (full_weight_leb Hgk Hgj) as (Eleb & Eltb).
  split.
  - rewrite <- Eleb. apply F64Facts.not_ltb_leb; assumption.
  - intros Hlt. rewrite <- Eltb. apply F64Facts.not_leb_ltb; auto.
Qed.

(** The scenario at damage weight 1: the site with damage 90 comes first. *)
Lemma greedy_first_pick_at_full_weight_demo :
  exists order cost j dmg_j,
    @_route_order_greedy flat_math (coords_of demo_hub demo_sites)
      (damage_scores_of demo_sites) 1 = Ok (order, cost) /\
    nth_error order 1 = Some j /\
    (1 <= j <= length demo_sites)%nat /\
    nth_error (damage_scores_of demo_sites) j = Some dmg_j /\
    forall k dmg_k,
      (1 <= k)%nat ->
      nth_error (damage_scores_of demo_sites) k = Some dmg_k ->
      (dmg_k / 100 <=? dmg_j / 100) = true /\
      ((k < j)%nat -> (dmg_k / 100 <? dmg_j / 100) = true).
Proof.
  apply (@greedy_first_pick_at_full_weight flat_math demo_hub demo_sites).
  - discriminate.
  - exact demo_damage_in_range.
  - exact demo_legs_defined.
  - exact demo_legs_finite.
Defined.

(** ** Reversing an order *)

(** The small-angle distances between the four points of the equator are
    symmetric. *)
Lemma equator_legs_symmetric : @legs_symmetric flat_math equator_coords.
Proof.
  intros a b.
  destruct (Nat.lt_ge_cases a 4) as [Ha|Ha];
    destruct (Nat.lt_ge_cases b 4) as [Hb|Hb].
  - index_cases a Ha 4; index_cases b Hb 4; vm_compute; reflexivity.
  - unfold leg_km, getitem.
    rewrite (proj2 (nth_error_None equator_coords b)) by exact Hb.
    destruct (nth_error equator_coords a); reflexivity.
  - unfold leg_km, getitem.
    rewrite (proj2 (nth_error_None equator_coords a)) by exact Ha.
    destruct (nth_error equator_coords b); reflexivity.
  - unfold leg_km, getitem.
    rewrite (proj2 (nth_error_None equator_coords a)) by exact Ha.
    rewrite (proj2 (nth_error_None equator_coords b)) by exact Hb.
    reflexivity.
Qed.

(** C8, counterexample. With the small-angle math library, whose distances
    are symmetric, the total along the order 0, 1, 3, 2 through four points
    of the equator is 667.1695598673524 and the total along its reverse is
    667.1695598673525: the same three distances are added in the opposite
    order, and the sums round differently. *)
Lemma reversed_total_differs :
  @legs_symmetric flat_math equator_coords /\
  @total_distance_km_along_order flat_math equator_order equator_coords
  = Ok 0x1.4d95b423427f1p+9 /\
  @total_distance_km_along_order flat_math (rev equator_order) equator_coords
  = Ok 0x1.4d95b423427f2p+9 /\
  @total_distance_km_along_order flat_math (rev equator_order) equator_coords
  <> @total_distance_km_along_order flat_math equator_order equator_coords.
Proof.
  split; [exact equator_legs_symmetric|].
  split; [vm_compute; reflexivity|].
  split; [vm_compute; reflexivity|].
  vm_compute. discriminate.
Qed.

(** C8, amended. For every coordinate table whose distances are symmetric
    and every order of at most three nodes, the evaluator returns a total
    for the reversed order exactly when it returns one for the order, and it
    is the same total.  (Longer orders add the same distances in the
    opposite order and agree up to rounding only.) *)
Theorem short_route_reverses {M : MathLib} (coords : list coord)
    (order : list nat) (total : float) :
  legs_symmetric coords ->
  (length order <= 3)%nat ->
  total_distance_km_along_order (rev order) coords = Ok total <->
  total_distance_km_along_order order coords = Ok total.
Proof.
  intros Hsym Hlen.
  destruct order as [|a [|b [|c [|x rest]]]]; try (simpl in Hlen; lia);
    try reflexivity.
  - unfold total_distance_km_along_order. simpl.
    rewrite (Hsym b a). reflexivity.
  - unfold total_distance_km_along_order. simpl.
    rewrite (Hsym c b), (Hsym b a).
    destruct (leg_km coords a b) as [d1|e1], (leg_km coords b c) as [d2|e2];
      simpl; try (split; discriminate).
    rewrite (F64Facts.add_zero_swap d2 d1). reflexivity.
Qed.

(** The first three nodes of the equator's order, and back. *)
Lemma short_route_reverses_demo :
  @total_distance_km_along_order flat_math (rev [0; 1; 3]%nat) equator_coords
  = Ok 0x1.bcc79ad9adfecp+8 <->
  @total_distance_km_along_order flat_math [0; 1; 3]%nat equator_coords
  = Ok 0x1.bcc79ad9adfecp+8.
Proof.
  apply (@short_route_reverses flat_math equator_coords [0; 1; 3]%nat).
  - exact equator_legs_symmetric.
  - simpl. lia.
Defined.

(** * Further properties of the routing core *)

(** ** Exceptions of list-building loops *)

Lemma mapM_raise (A B : Type) (f : A -> result B) (l : list A) (e : exn) :
  mapM f l = Raise e -> exists a, In a l /\ f a = Raise e.
Proof.
  induction l as [|a l IH]; simpl; [discriminate|].
  destruct (f a) as [b|e'] eqn:Ha; simpl.
  - destruct (mapM f l) as [bs|e'']; simpl; [discriminate|].
    intros H. inversion H; subst. destruct IH as (a' & Hin & Ha'); auto.
    exists a'. auto.
  - intros H. inversion H; subst. exists a. auto.
Qed.

Lemma mapM_not_ok (A B : Type) (f : A -> result B) (l : list A) (a : A)
    (e : exn) :
  In a l -> f a = Raise e -> exists e', mapM f l = Raise e'.
Proof.
  intros Hin Ha. destruct (mapM f l) as [bs|e'] eqn:Hm; [|eauto].
  apply mapM_ok in Hm. exfalso. revert Hin.
  induction Hm as [|x b l bs Hx _ IH]; simpl; [tauto|].
  intros [->|Hin]; [congruence | auto].
Qed.

Section GreedyMore.

Context {M : MathLib}.

(** ** The order of the greedy constructor, whatever the numbers *)

(** Whatever the floats are (NaN scores and an early [break] included), an
    order that the greedy constructor returns starts with the hub index 0,
    holds no index twice, holds only indices of the coordinate table after
    the hub, and so is never longer than the table. *)
Theorem greedy_order_is_simple (coords : list coord)
    (damage_scores : list float) (damage_weight : float)
    (order : list nat) (cost : float) :
  _route_order_greedy coords damage_scores damage_weight = Ok (order, cost) ->
  nth_error order 0 = Some 0%nat /\
  NoDup order /\
  Forall (fun i => (1 <= i < length coords)%nat) (tl order) /\
  (length order <= Nat.max 1 (length coords))%nat.
Proof.
  intros H. apply greedy_order_shape in H.
  destruct H as (extra & -> & Hnd & Hin).
  assert (Hnd' : NoDup (0%nat :: extra)).
  { constructor; [|exact Hnd]. intros H0. apply Hin in H0. lia. }
  split; [reflexivity|]. split; [exact Hnd'|]. split.
  - apply Forall_forall. exact Hin.
  - destruct (length coords) as [|n] eqn:Hn.
    + destruct extra as [|k extra]; [simpl; lia|].
      specialize (Hin k (or_introl eq_refl)). lia.
    + assert (Hle : (length (0%nat :: extra) <= length (seq 0 (S n)))%nat).
      { apply NoDup_incl_length; [exact Hnd'|].
        intros k [<-|Hk]; apply in_seq; [lia|].
        apply Hin in Hk. lia. }
      rewrite length_seq in Hle. lia.
Qed.

(** ** A damage list shorter than the coordinate table *)

Lemma pick_best_short (damage_scores : list float)
    (damage_weight d_max : float) (dists : list (nat * float))
    (best : option nat * float) :
  (d_max =? 0) = false ->
  (exists j, In j (map fst dists) /\ (length damage_scores <= j)%nat) ->
  pick_best damage_scores damage_weight d_max dists best = Raise IndexError.
Proof.
  intros Hd. revert best.
  induction dists as [|[k d] dists IH]; intros best (j & Hin & Hj).
  - destruct Hin.
  - cbn [pick_best]. unfold site_score.
    destruct (Nat.lt_ge_cases k (length damage_scores)) as [Hk|Hk].
    + destruct (getitem_lt damage_scores Hk) as (dmg & ->).
      cbn [bind]. rewrite truediv_nonzero by exact Hd. cbn [bind].
      apply IH. exists j. split; [|exact Hj].
      destruct Hin as [Hin|Hin]; [simpl in Hin; lia | exact Hin].
    + unfold getitem.
      rewrite (proj2 (nth_error_None damage_scores k)) by exact Hk.
      reflexivity.
Qed.

(** The greedy constructor reads [damage_scores[j]] for every site [j]
    without a guard: for a table of two or more nodes whose distances are
    all computed, a damage list shorter than the table makes it raise
    [IndexError] (the solver path reads a missing score as 0 instead). *)
Theorem greedy_needs_every_damage_score (coords : list coord)
    (damage_scores : list float) (damage_weight : float) :
  (2 <= length coords)%nat ->
  (length damage_scores < length coords)%nat ->
  legs_defined coords ->
  _route_order_greedy coords damage_scores damage_weight = Raise IndexError.
Proof.
  intros Hn Hlen Hlegs. unfold _route_order_greedy.
  destruct (Nat.leb_spec (length coords) 1) as [H1|_]; [lia|].
  rewrite length_seq.
  destruct (length coords - 1)%nat as [|m] eqn:Hm; [lia|].
  assert (Hu : site_indices coords (seq 1 (S m))).
  { intros k Hk. apply in_seq in Hk. lia. }
  remember (seq 1 (S m)) as u eqn:Eu.
  destruct u as [|a u]; [discriminate|].
  cbn [greedy_loop]. unfold greedy_step.
  destruct (@dists_from_total M coords Hlegs (a :: u) 0%nat Hu)
    as (dists & Hdists); [lia|].
  rewrite Hdists. cbn [bind].
  pose proof (dists_keys _ _ _ Hdists) as Hkeys.
  destruct dists as [|jd dists]; [discriminate|].
  destruct (@d_max_of_total (jd :: dists)) as (d_max & Hdm); [discriminate|].
  rewrite Hdm. cbn [bind].
  apply d_max_of_spec in Hdm. destruct Hdm as [Hnz _].
  rewrite pick_best_short; [reflexivity | exact Hnz |].
  rewrite Hkeys, Eu.
  exists (Nat.max 1 (length damage_scores)). split; [apply in_seq|]; lia.
Qed.

End GreedyMore.

(** The scenario with a NaN damage score at site 2: the order stops after
    sites 3 and 1. *)
Lemma greedy_order_is_simple_demo :
  nth_error [0; 3; 1]%nat 0 = Some 0%nat /\
  NoDup [0; 3; 1]%nat /\
  Forall (fun i => (1 <= i < length (coords_of demo_hub demo_sites))%nat)
    (tl [0; 3; 1]%nat) /\
  (length [0; 3; 1]%nat
   <= Nat.max 1 (length (coords_of demo_hub demo_sites)))%nat.
Proof.
  apply (@greedy_order_is_simple flat_math (coords_of demo_hub demo_sites)
           [0; 10; nan; 50] 0.5 [0; 3; 1]%nat 0x1.0c72c3c978262p+8).
  vm_compute. reflexivity.
Defined.

(** The scenario with damage scores for the hub and site 1 only. *)
Lemma greedy_needs_every_damage_score_demo :
  @_route_order_greedy flat_math (coords_of demo_hub demo_sites) [0; 10] 0.5
  = Raise IndexError.
Proof.
  apply (@greedy_needs_every_damage_score flat_math).
  - simpl. lia.
  - simpl. lia.
  - exact demo_legs_defined.
Defined.

Section EvaluatorMore.

Context {M : MathLib}.

(** ** The route evaluator *)

Lemma sum_legs_cons (coords : list coord) (a b : nat) (rest : list nat)
    (t0 : float) :
  sum_legs coords (a :: b :: rest) t0
  = (d <- leg_km coords a b ;; sum_legs coords (b :: rest) (t0 + d)).
Proof. reflexivity. Qed.

Lemma sum_legs_app (coords : list coord) (order : list nat) (a b : nat)
    (t0 : float) :
  sum_legs coords ((order ++ [a]) ++ [b]) t0
  = (t <- sum_legs coords (order ++ [a]) t0 ;;
     d <- leg_km coords a b ;;
     Ok (t + d)).
Proof.
  revert t0. induction order as [|x order IH]; intros t0.
  - simpl. destruct (leg_km coords a b); reflexivity.
  - change ((((x :: order) ++ [a]) ++ [b]))
      with (x :: ((order ++ [a]) ++ [b])).
    change ((x :: order) ++ [a]) with (x :: (order ++ [a])).
    destruct (order ++ [a]) as [|y rest] eqn:E.
    + destruct order; discriminate.
    + change ((y :: rest) ++ [b]) with (y :: (rest ++ [b])).
      rewrite !sum_legs_cons.
      destruct (leg_km coords x y) as [d|e]; cbn [bind]; [|reflexivity].
      apply IH.
Qed.

(** The evaluator is additive along an order: the total of a non-empty order
    with one more node [b] at its end is the total of the order plus the
    distance from its last node to [b]; an exception of the order comes
    first, then one of the added leg. *)
Theorem total_distance_appends_leg (coords : list coord)
    (order : list nat) (b : nat) :
  order <> [] ->
  total_distance_km_along_order (order ++ [b]) coords
  = (t <- total_distance_km_along_order order coords ;;
     d <- leg_km coords (last order 0%nat) b ;;
     Ok (t + d)).
Proof.
  intros Hne. rewrite !along_order_sum_legs.
  destruct (exists_last Hne) as (pre & a & ->).
  rewrite last_last. apply sum_legs_app.
Qed.

Lemma sum_legs_in_range (coords : list coord) (order : list nat)
    (t0 : float) :
  legs_defined coords ->
  Forall (fun i => (i < length coords)%nat) order ->
  exists t, sum_legs coords order t0 = Ok t.
Proof.
  intros Hlegs H. revert t0.
  induction H as [|a rest Ha Hrest IH]; intros t0; [simpl; eauto|].
  destruct rest as [|b rest]; [simpl; eauto|].
  rewrite sum_legs_cons. inversion Hrest; subst.
  destruct (Hlegs a b) as (d & ->); [assumption..|]. cbn [bind]. apply IH.
Qed.

Lemma leg_km_out_of_range (coords : list coord) (a b : nat) :
  ((length coords <= a)%nat \/ (length coords <= b)%nat) ->
  leg_km coords a b = Raise IndexError.
Proof.
  intros H. unfold leg_km, getitem.
  destruct (nth_error coords a) as [ca|] eqn:Ea; [|reflexivity].
  cbn [bind]. destruct (nth_error coords b) as [cb|] eqn:Eb; [|reflexivity].
  exfalso.
  assert (a < length coords)%nat by (apply nth_error_Some; congruence).
  assert (b < length coords)%nat by (apply nth_error_Some; congruence).
  destruct H; lia.
Qed.

Lemma sum_legs_out_of_range (coords : list coord) (order : list nat)
    (t0 : float) :
  legs_defined coords ->
  (2 <= length order)%nat ->
  ~ Forall (fun i => (i < length coords)%nat) order ->
  sum_legs coords order t0 = Raise IndexError.
Proof.
  intros Hlegs. revert t0.
  induction order as [|a rest IH]; intros t0 Hlen Hout; [simpl in Hlen; lia|].
  destruct rest as [|b rest]; [simpl in Hlen; lia|].
  rewrite sum_legs_cons.
  destruct (Nat.lt_ge_cases a (length coords)) as [Ha|Ha];
    [destruct (Nat.lt_ge_cases b (length coords)) as [Hb|Hb]|].
  - destruct (Hlegs a b) as (d & ->); [assumption..|]. cbn [bind].
    destruct rest as [|c rest].
    + exfalso. apply Hout. repeat constructor; assumption.
    + apply IH; [simpl; lia|].
      intros HF. apply Hout. constructor; assumption.
  - rewrite leg_km_out_of_range; auto.
  - rewrite leg_km_out_of_range; auto.
Qed.

(** On a table whose distances are all computed, the evaluator looks up
    every node of an order of two or more nodes: it returns a total when
    every index is within the table, and raises [IndexError] when one is
    not.  An order of at most one node costs 0 and is never looked up. *)
Theorem total_distance_checks_indices (coords : list coord)
    (order : list nat) :
  legs_defined coords ->
  ((length order <= 1)%nat ->
   total_distance_km_along_order order coords = Ok 0) /\
  ((2 <= length order)%nat ->
   (Forall (fun i => (i < length coords)%nat) order ->
    exists t, total_distance_km_along_order order coords = Ok t) /\
   (~ Forall (fun i => (i < length coords)%nat) order ->
    total_distance_km_along_order order coords = Raise IndexError)).
Proof.
  intros Hlegs. split.
  - intros H. unfold total_distance_km_along_order.
    destruct (Nat.leb_spec (length order) 1); [reflexivity | lia].
  - intros H. rewrite along_order_sum_legs. split.
    + apply sum_legs_in_range, Hlegs.
    + apply sum_legs_out_of_range; assumption.
Qed.

End EvaluatorMore.

Section CostMatrixMore.

Context {M : MathLib}.

(** ** Exceptions of the cost matrix *)

Lemma round_raises (x : float) (e : exn) :
  round x = Raise e -> e = ValueError \/ e = OverflowError.
Proof.
  unfold round. destruct (Prim2SF x); intros H; inversion H; auto.
Qed.

Lemma cost_entry_raises (coords : list coord) (damage_scores : list float)
    (damage_weight : float) (i j : nat) (e : exn) :
  legs_defined coords ->
  (i < length coords)%nat -> (j < length coords)%nat ->
  cost_entry coords damage_scores damage_weight i j = Raise e ->
  e = ValueError \/ e = OverflowError.
Proof.
  intros Hlegs Hi Hj. unfold cost_entry.
  destruct (i =? j)%nat; [discriminate|].
  destruct (Hlegs i j Hi Hj) as (d & ->). cbn [bind].
  destruct (Nat.ltb_spec j (length damage_scores)) as [Hd|Hd].
  - destruct (getitem_lt damage_scores Hd) as (dmg & ->). cbn [bind].
    apply round_raises.
  - cbn [bind]. apply round_raises.
Qed.

Lemma cost_matrix_raises (coords : list coord) (damage_scores : list float)
    (damage_weight : float) (e : exn) :
  legs_defined coords ->
  cost_matrix_of coords damage_scores damage_weight = Raise e ->
  e = ValueError \/ e = OverflowError.
Proof.
  intros Hlegs H. unfold cost_matrix_of in H.
  apply mapM_raise in H. destruct H as (i & Hi & H).
  apply mapM_raise in H. destruct H as (j & Hj & H).
  apply in_seq in Hi, Hj.
  eapply cost_entry_raises; [exact Hlegs | | | exact H]; lia.
Qed.

Lemma nan_cost (d w : float) : d * (1 - w * nan / 100) * 1000 = nan.
Proof.
  apply Prim2SF_inj.
  rewrite !mul_spec, sub_spec, div_spec, mul_spec.
  change (Prim2SF nan) with S754_nan.
  destruct (Prim2SF w) as [[|]|[|]| |[|] ? ?];
    destruct (Prim2SF d) as [[|]|[|]| |[|] ? ?]; reflexivity.
Qed.

End CostMatrixMore.

(** Node 3 added to the order 0, 1 on the equator. *)
Lemma total_distance_appends_leg_demo :
  @total_distance_km_along_order flat_math ([0; 1] ++ [3])%nat equator_coords
  = (t <- @total_distance_km_along_order flat_math [0; 1]%nat equator_coords ;;
     d <- @leg_km flat_math equator_coords (last [0; 1]%nat 0%nat) 3 ;;
     Ok (t + d)).
Proof.
  apply (@total_distance_appends_leg flat_math equator_coords [0; 1]%nat 3).
  discriminate.
Defined.

(** The scenario's table has four nodes: the order 0, 7 raises. *)
Lemma total_distance_checks_indices_demo :
  @total_distance_km_along_order flat_math [0; 7]%nat
    (coords_of demo_hub demo_sites) = Raise IndexError.
Proof.
  apply (@total_distance_checks_indices flat_math
           (coords_of demo_hub demo_sites) [0; 7]%nat demo_legs_defined).
  - simpl. lia.
  - intros H. inversion H as [|? ? _ H']. inversion H' as [|? ? H7 _].
    simpl in H7. lia.
Defined.

Section SolverPathMore.

Context {M : MathLib} {Sv : RoutingSolver}.

Lemma mapM_length (A B : Type) (f : A -> result B) (l : list A)
    (bs : list B) :
  mapM f l = Ok bs -> length bs = length l.
Proof.
  intros H. apply mapM_ok in H. symmetry. eapply Forall2_length, H.
Qed.

Lemma mapM_Forall (A B : Type) (f : A -> result B) (P : B -> Prop)
    (l : list A) (bs : list B) :
  (forall a b, f a = Ok b -> P b) -> mapM f l = Ok bs -> Forall P bs.
Proof.
  intros HP H. apply mapM_ok in H.
  induction H as [|a b l bs Hab _ IH]; constructor; eauto.
Qed.

Lemma cost_matrix_square (coords : list coord) (damage_scores : list float)
    (damage_weight : float) (cost_matrix : list (list Z)) :
  cost_matrix_of coords damage_scores damage_weight = Ok cost_matrix ->
  length cost_matrix = length coords /\
  Forall (fun row => length row = length coords) cost_matrix.
Proof.
  unfold cost_matrix_of. intros H. split.
  - apply mapM_length in H. rewrite length_seq in H. exact H.
  - eapply mapM_Forall; [|exact H]. intros i row Hrow.
    apply mapM_length in Hrow. rewrite length_seq in Hrow. exact Hrow.
Qed.

(** When every distance of the table is computed, building the cost matrix
    never raises [IndexError] or [ZeroDivisionError]: either it returns a
    square matrix with one row and one column per node, or a cost that is
    NaN raises [ValueError], or one that is infinite raises
    [OverflowError]. *)
Theorem cost_matrix_square_or_rounding_error (coords : list coord)
    (damage_scores : list float) (damage_weight : float) :
  legs_defined coords ->
  (exists cost_matrix,
     cost_matrix_of coords damage_scores damage_weight = Ok cost_matrix /\
     length cost_matrix = length coords /\
     Forall (fun row => length row = length coords) cost_matrix) \/
  cost_matrix_of coords damage_scores damage_weight = Raise ValueError \/
  cost_matrix_of coords damage_scores damage_weight = Raise OverflowError.
Proof.
  intros Hlegs.
  destruct (cost_matrix_of coords damage_scores damage_weight) as [m|e] eqn:H.
  - left. exists m. split; [reflexivity|]. apply cost_matrix_square in H.
    exact H.
  - right. apply cost_matrix_raises in H; [|exact Hlegs].
    destruct H as [->| ->]; auto.
Qed.

Lemma cost_entry_nan (coords : list coord) (damage_scores : list float)
    (damage_weight : float) (j : nat) :
  legs_defined coords ->
  (1 <= j < length coords)%nat ->
  nth_error damage_scores j = Some nan ->
  cost_entry coords damage_scores damage_weight 0 j = Raise ValueError.
Proof.
  intros Hlegs Hj Hnan. unfold cost_entry.
  destruct (Nat.eqb_spec 0 j) as [E|_]; [lia|].
  destruct (Hlegs 0%nat j) as (d & ->); [lia | lia |]. cbn [bind].
  assert (Hlt : (j < length damage_scores)%nat)
    by (apply nth_error_Some; congruence).
  destruct (Nat.ltb_spec j (length damage_scores)) as [_|]; [|lia].
  rewrite (proj2 (getitem_ok damage_scores j nan) Hnan). cbn [bind].
  destruct (Nat.eqb_spec j 0) as [E|_]; [lia|].
  rewrite nan_cost. reflexivity.
Qed.

(** With the solver package installed, a site whose damage score is NaN
    makes the solver path raise: its cost is NaN, which [round] refuses with
    [ValueError] (an infinite cost met earlier in the matrix raises
    [OverflowError] first).  The greedy constructor returns a partial order
    on the same input. *)
Theorem tsp_raises_on_nan_damage (coords : list coord)
    (damage_scores : list float) (damage_weight : float) (j : nat) :
  ortools_importable = true ->
  legs_defined coords ->
  (1 <= j < length coords)%nat ->
  nth_error damage_scores j = Some nan ->
  _route_order_tsp coords damage_scores damage_weight = Raise ValueError \/
  _route_order_tsp coords damage_scores damage_weight = Raise OverflowError.
Proof.
  intros Himp Hlegs Hj Hnan. unfold _route_order_tsp. rewrite Himp.
  cbn [negb]. destruct (Nat.leb_spec (length coords) 1) as [|_]; [lia|].
  destruct (cost_matrix_of coords damage_scores damage_weight) as [m|e] eqn:H.
  - exfalso. unfold cost_matrix_of in H.
    eapply mapM_seq_nth with (i := 0%nat) in H; [|lia].
    destruct H as (row & _ & Hrow).
    eapply mapM_seq_nth with (i := j) in Hrow; [|lia].
    destruct Hrow as (c & _ & Hc).
    rewrite cost_entry_nan in Hc by assumption. discriminate.
  - cbn [bind]. apply cost_matrix_raises in H; [|exact Hlegs].
    destruct H as [->| ->]; auto.
Qed.

End SolverPathMore.

(** The scenario's matrix is four by four. *)
Lemma cost_matrix_square_or_rounding_error_demo :
  (exists cost_matrix,
     @cost_matrix_of flat_math (coords_of demo_hub demo_sites)
       (damage_scores_of demo_sites) 0.5 = Ok cost_matrix /\
     length cost_matrix = length (coords_of demo_hub demo_sites) /\
     Forall (fun row => length row = length (coords_of demo_hub demo_sites))
       cost_matrix) \/
  @cost_matrix_of flat_math (coords_of demo_hub demo_sites)
    (damage_scores_of demo_sites) 0.5 = Raise ValueError \/
  @cost_matrix_of flat_math (coords_of demo_hub demo_sites)
    (damage_scores_of demo_sites) 0.5 = Raise OverflowError.
Proof.
  apply (@cost_matrix_square_or_rounding_error flat_math).
  exact demo_legs_defined.
Defined.

(** The scenario with a NaN damage score at site 2. *)
Lemma tsp_raises_on_nan_damage_demo :
  @_route_order_tsp flat_math index_order_solver
    (coords_of demo_hub demo_sites) [0; 10; nan; 50] 0.5 = Raise ValueError \/
  @_route_order_tsp flat_math index_order_solver
    (coords_of demo_hub demo_sites) [0; 10; nan; 50] 0.5 = Raise OverflowError.
Proof.
  apply (@tsp_raises_on_nan_damage flat_math index_order_solver
           (coords_of demo_hub demo_sites) [0; 10; nan; 50] 0.5 2).
  - reflexivity.
  - exact demo_legs_defined.
  - simpl. lia.
  - reflexivity.
Defined.

(** * Signs of binary64 results *)

Module F64Sign.

Import F64 F64Facts F64Magnitude.
Local Open Scope Z_scope.
Local Unset Implicit Arguments.

(** Rounding a mantissa that is not negative gives zero, a finite float or
    an infinity of the sign asked for, never NaN. *)
Lemma round_aux_sign (s : bool) (m e : Z) (l : location) :
  0 <= m ->
  match binary_round_aux prec emax s m e l with
  | S754_zero s' | S754_infinity s' | S754_finite s' _ _ => s' = s
  | S754_nan => False
  end.
Proof.
  intros Hm. unfold binary_round_aux.
  pose proof (shr_fexp_below m e (Z.max (Zdigits2 m + e) (-1074)) l Hm) as H1.
  destruct (shr_fexp prec emax m e l) as [r1 e1].
  destruct H1 as [H1m _]; [lia | lia |].
  destruct (round_nearest_even_bounds (shr_m r1) (loc_of_shr_record r1) H1m)
    as [H2m _].
  pose proof (shr_fexp_below
                (round_nearest_even (shr_m r1) (loc_of_shr_record r1)) e1
                (Z.max (Zdigits2 (round_nearest_even (shr_m r1)
                                    (loc_of_shr_record r1)) + e1) (-1074))
                loc_Exact H2m) as H3.
  destruct (shr_fexp prec emax
              (round_nearest_even (shr_m r1) (loc_of_shr_record r1)) e1
              loc_Exact) as [r3 e3].
  destruct H3 as [H3m _]; [lia | lia |].
  destruct (shr_m r3) as [|p|p]; [reflexivity | | lia].
  destruct (e3 <=? emax - prec); reflexivity.
Qed.

Lemma binary_round_sign (s : bool) (m : positive) (e : Z) :
  match binary_round prec emax s m e with
  | S754_zero s' | S754_infinity s' | S754_finite s' _ _ => s' = s
  | S754_nan => False
  end.
Proof.
  unfold binary_round.
  destruct (shl_align m e (fexp prec emax (Zpos (digits2_pos m) + e)))
    as [mz ez].
  apply round_aux_sign. lia.
Qed.

(** [0 <= x] on [spec_float]s: a zero of either sign, a positive finite
    float or plus infinity. *)
Lemma SFleb_zero (x : spec_float) :
  SFleb (S754_zero false) x = true <->
  match x with
  | S754_zero _ => True
  | S754_infinity s | S754_finite s _ _ => s = false
  | S754_nan => False
  end.
Proof.
  destruct x as [[|]|[|]| |[|] m e]; unfold SFleb; simpl;
    split; intros H; try reflexivity; try exact I; try discriminate;
    try contradiction.
Qed.

Lemma sign_nonneg (r : spec_float) :
  match r with
  | S754_zero s' | S754_infinity s' | S754_finite s' _ _ => s' = false
  | S754_nan => False
  end ->
  SFleb (S754_zero false) r = true.
Proof.
  destruct r as [s|s| |s m e]; intros H; try contradiction; subst;
    reflexivity.
Qed.

Lemma SFadd_nonneg (x y : spec_float) :
  SFleb (S754_zero false) x = true -> SFleb (S754_zero false) y = true ->
  SFleb (S754_zero false) (SF64add x y) = true.
Proof.
  rewrite !SFleb_zero.
  destruct x as [sx|sx| |sx mx ex], y as [sy|sy| |sy my ey];
    cbn [SF64add SFadd]; try tauto; try (intros; subst; reflexivity).
  - intros _ _. destruct sx, sy; exact I.
  - intros -> ->.
    destruct (shl_align mx ex (Z.min ex ey)) as [m1 e1].
    destruct (shl_align my ey (Z.min ex ey)) as [m2 e2].
    cbn [fst cond_Zopp binary_normalize Z.add].
    apply SFleb_zero, sign_nonneg, binary_round_sign.
Qed.

(** A product of two floats that are not negative is not negative, or is
    NaN (zero times infinity). *)
Lemma SFmul_nonneg (x y : spec_float) :
  SFleb (S754_zero false) x = true -> SFleb (S754_zero false) y = true ->
  SFleb (S754_zero false) (SF64mul x y) = true \/ SF64mul x y = S754_nan.
Proof.
  rewrite !SFleb_zero.
  destruct x as [sx|sx| |sx mx ex], y as [sy|sy| |sy my ey];
    cbn [SF64mul SFmul]; try tauto; intros Hx Hy; subst; auto.
  left. cbn [xorb]. apply SFleb_zero, sign_nonneg, round_aux_sign. lia.
Qed.

Lemma add_nonneg (x y : float) :
  (0 <=? x)%float = true -> (0 <=? y)%float = true ->
  (0 <=? x + y)%float = true.
Proof.
  rewrite !leb_spec, add_spec. change (Prim2SF 0) with (S754_zero false).
  apply SFadd_nonneg.
Qed.

End F64Sign.

(** * Rounding to binary64: canonical results *)

Module F64Round.

Import F64 F64Facts F64Magnitude F64Sign.
Local Open Scope Z_scope.
Local Unset Implicit Arguments.

Lemma fexp_mono (a b : Z) : a <= b -> fexp prec emax a <= fexp prec emax b.
Proof. rewrite !fexp_eq. lia. Qed.

Lemma Zdigits2_mono (a b : Z) : 0 <= a <= b -> Zdigits2 a <= Zdigits2 b.
Proof.
  intros [Ha Hab]. destruct (Z.eq_dec b 0) as [->|Hb].
  - replace a with 0 by lia. lia.
  - apply Zdigits2_le; [lia | apply Zdigits2_nonneg |].
    destruct (Zdigits2_bounds b); lia.
Qed.

(** The shift to the exponent of the format. *)
Lemma shr_fexp_spec (m e : Z) (l : location) :
  0 <= m -> e <= fexp prec emax (Zdigits2 m + e) ->
  let '(r, e') := shr_fexp prec emax m e l in
  e' = fexp prec emax (Zdigits2 m + e) /\
  0 <= shr_m r /\
  Zdigits2 (shr_m r) = Z.max 0 (Zdigits2 m + e - e').
Proof.
  intros Hm He. unfold shr_fexp, shr.
  assert (Hrec : shr_m (shr_record_of_loc m l) = m)
    by (destruct l as [|[]]; reflexivity).
  pose proof (Zdigits2_nonneg m) as Hd.
  destruct (fexp prec emax (Zdigits2 m + e) - e) as [|n|n] eqn:En.
  - rewrite Hrec. repeat split; lia.
  - rewrite iter_pos_iter.
    destruct (shr_iter_digits n (shr_record_of_loc m l)) as [H0 H1];
      [rewrite Hrec; exact Hm|].
    rewrite Hrec in H1. repeat split; lia.
  - lia.
Qed.

Lemma round_nearest_even_range (m : Z) (l : location) :
  m <= round_nearest_even m l <= m + 1.
Proof.
  unfold round_nearest_even.
  destruct l as [|[]]; try destruct (Z.even m); lia.
Qed.

(** The two shifts of [binary_round_aux], for a value at or below the
    exponent of the format: the results [(m3, e3)], with [e3] the exponent
    of the format for [m3]. *)
Lemma round_aux_stages (m e : Z) (l : location) :
  0 <= m -> e <= fexp prec emax (Zdigits2 m + e) ->
  let '(r1, e1) := shr_fexp prec emax m e l in
  let m2 := round_nearest_even (shr_m r1) (loc_of_shr_record r1) in
  let '(r3, e3) := shr_fexp prec emax m2 e1 loc_Exact in
  e1 = fexp prec emax (Zdigits2 m + e) /\
  0 <= shr_m r1 /\
  Zdigits2 (shr_m r1) = Z.max 0 (Zdigits2 m + e - e1) /\
  e3 = fexp prec emax (Zdigits2 m2 + e1) /\
  0 <= shr_m r3 /\
  Zdigits2 (shr_m r3) = Z.max 0 (Zdigits2 m2 + e1 - e3).
Proof.
  intros Hm He.
  pose proof (shr_fexp_spec m e l Hm He) as H1.
  destruct (shr_fexp prec emax m e l) as [r1 e1].
  destruct H1 as (E1 & H1m & H1d).
  cbv zeta.
  pose proof (round_nearest_even_range (shr_m r1) (loc_of_shr_record r1))
    as Hr.
  set (m2 := round_nearest_even (shr_m r1) (loc_of_shr_record r1)) in *.
  assert (Hm2 : 0 <= m2) by lia.
  assert (He1 : e1 <= fexp prec emax (Zdigits2 m2 + e1)).
  { pose proof (Zdigits2_mono (shr_m r1) m2 ltac:(lia)) as Hmono.
    pose proof (Zdigits2_nonneg m2).
    rewrite fexp_eq in E1 |- *. lia. }
  pose proof (shr_fexp_spec m2 e1 loc_Exact Hm2 He1) as H3.
  destruct (shr_fexp prec emax m2 e1 loc_Exact) as [r3 e3].
  destruct H3 as (E3 & H3m & H3d).
  repeat split; assumption.
Qed.

(** Rounding gives a float of the format. *)
Lemma round_aux_valid (s : bool) (m e : Z) (l : location) :
  0 <= m -> e <= fexp prec emax (Zdigits2 m + e) ->
  valid_binary (binary_round_aux prec emax s m e l) = true.
Proof.
  intros Hm He. unfold binary_round_aux.
  pose proof (round_aux_stages m e l Hm He) as H.
  destruct (shr_fexp prec emax m e l) as [r1 e1]. cbv zeta in H.
  destruct (shr_fexp prec emax
              (round_nearest_even (shr_m r1) (loc_of_shr_record r1)) e1
              loc_Exact) as [r3 e3].
  destruct H as (_ & _ & _ & E3 & H3m & H3d).
  destruct (shr_m r3) as [|p|p] eqn:Ep; [reflexivity | | lia].
  destruct (Z.leb_spec e3 (emax - prec)) as [Hle|Hgt]; [|reflexivity].
  unfold SpecFloat.valid_binary, bounded, canonical_mantissa.
  apply andb_true_iff. split; [|apply Z.leb_le; exact Hle].
  apply Z.eqb_eq. cbn [Zdigits2] in H3d.
  rewrite E3 at 2. f_equal. lia.
Qed.

Lemma shl_align_fexp_le (m : positive) (e : Z) :
  let '(mz, ez) :=
    shl_align m e (fexp prec emax (Zpos (digits2_pos m) + e)) in
  ez <= fexp prec emax (Zpos (digits2_pos mz) + ez).
Proof.
  pose proof (shl_align_mag m e (fexp prec emax (Zpos (digits2_pos m) + e)))
    as H.
  unfold shl_align in *.
  destruct (fexp prec emax (Zpos (digits2_pos m) + e) - e) as [|d|d] eqn:E.
  - lia.
  - lia.
  - rewrite H. lia.
Qed.

Lemma binary_round_valid (s : bool) (m : positive) (e : Z) :
  valid_binary (binary_round prec emax s m e) = true.
Proof.
  unfold binary_round.
  pose proof (shl_align_fexp_le m e) as H.
  destruct (shl_align m e (fexp prec emax (Zpos (digits2_pos m) + e)))
    as [mz ez].
  apply round_aux_valid; [lia | exact H].
Qed.

Lemma binary_normalize_valid (m e : Z) (s : bool) :
  valid_binary (binary_normalize prec emax m e s) = true.
Proof.
  destruct m; [reflexivity | apply binary_round_valid..].
Qed.

(** Rounding a mantissa that is not zero, of magnitude above the smallest
    positive float, does not give a zero. *)
Lemma round_aux_nonzero (s : bool) (m e : Z) (l : location) :
  0 < m -> e <= fexp prec emax (Zdigits2 m + e) ->
  -1074 < Zdigits2 m + e ->
  forall s', binary_round_aux prec emax s m e l <> S754_zero s'.
Proof.
  intros Hm He Hmag s'. unfold binary_round_aux.
  pose proof (round_aux_stages m e l ltac:(lia) He) as H.
  destruct (shr_fexp prec emax m e l) as [r1 e1]. cbv zeta in H.
  pose proof (round_nearest_even_range (shr_m r1) (loc_of_shr_record r1))
    as Hr.
  set (m2 := round_nearest_even (shr_m r1) (loc_of_shr_record r1)) in *.
  destruct (shr_fexp prec emax m2 e1 loc_Exact) as [r3 e3].
  destruct H as (E1 & H1m & H1d & E3 & H3m & H3d).
  pose proof (Zdigits2_mono (shr_m r1) m2 ltac:(lia)) as Hmono.
  rewrite fexp_eq in E1, E3.
  destruct (shr_m r3) as [|p|p] eqn:Ep.
  - exfalso. cbn [Zdigits2] in H3d. lia.
  - destruct (e3 <=? emax - prec); discriminate.
  - discriminate.
Qed.

Lemma binary_round_nonzero (s : bool) (m : positive) (e : Z) :
  -1074 < Zpos (digits2_pos m) + e ->
  forall s', binary_round prec emax s m e <> S754_zero s'.
Proof.
  intros Hmag. unfold binary_round.
  pose proof (shl_align_fexp_le m e) as H.
  pose proof (shl_align_mag m e (fexp prec emax (Zpos (digits2_pos m) + e)))
    as Hm.
  destruct (shl_align m e (fexp prec emax (Zpos (digits2_pos m) + e)))
    as [mz ez].
  apply round_aux_nonzero; [lia | exact H | cbn [Zdigits2]; lia].
Qed.

End F64Round.

Module F64Div.

Import F64 F64Facts F64Magnitude F64Sign F64Round.
Local Open Scope Z_scope.
Local Unset Implicit Arguments.

Lemma Zdigits2_ge (m k : Z) : 0 <= k -> 2 ^ k <= m -> k + 1 <= Zdigits2 m.
Proof.
  intros Hk Hle.
  assert (0 < m) by (pose proof (Z.pow_pos_nonneg 2 k); lia).
  destruct (Zdigits2_bounds m) as [_ Hhi]; [lia|].
  destruct (Z.le_gt_cases (k + 1) (Zdigits2 m)) as [H0|H0]; [exact H0|].
  assert (2 ^ Zdigits2 m <= 2 ^ k)
    by (apply Z.pow_le_mono_r; [lia | lia]).
  lia.
Qed.

(** The quotient and remainder that [SFdiv_core_binary] computes, with the
    exponent it chooses: at or below the exponent of the format for the
    quotient. *)
Lemma div_core_spec (mx my : positive) (ex ey : Z) :
  let '(q, e', l) :=
    SFdiv_core_binary prec emax (Zpos mx) ex (Zpos my) ey in
  exists s r,
    0 <= s /\ e' = ex - ey - s /\
    Zpos mx * 2 ^ s = Zpos my * q + r /\ 0 <= r < Zpos my /\
    l = new_location (Zpos my) r /\
    0 <= q /\ e' <= fexp prec emax (Zdigits2 q + e').
Proof.
  unfold SFdiv_core_binary. cbn [Zdigits2].
  set (d1 := Zpos (digits2_pos mx)).
  set (d2 := Zpos (digits2_pos my)).
  set (e' := Z.min (fexp prec emax (d1 + ex - (d2 + ey))) (ex - ey)).
  set (s := ex - ey - e').
  assert (Hs : 0 <= s) by (unfold s, e'; lia).
  set (m' := match s with
             | 0 => Zpos mx
             | Zpos _ => Z.shiftl (Zpos mx) s
             | Zneg _ => 0
             end).
  assert (Hm' : m' = Zpos mx * 2 ^ s).
  { unfold m'. destruct s as [|p|p]; [lia | | lia].
    rewrite Z.shiftl_mul_pow2 by lia. reflexivity. }
  pose proof (Z_div_mod m' (Zpos my) eq_refl) as Hdiv.
  destruct (Z.div_eucl m' (Zpos my)) as [q r]. destruct Hdiv as [Hq Hr].
  assert (H2s : 0 < 2 ^ s) by (apply Z.pow_pos_nonneg; lia).
  assert (Hq0 : 0 <= q) by nia.
  exists s, r. split; [exact Hs|]. split; [unfold s; lia|].
  split; [lia|]. split; [exact Hr|]. split; [reflexivity|].
  split; [exact Hq0|].
  destruct (Zdigits2_bounds (Zpos mx) eq_refl) as [L1 _].
  destruct (Zdigits2_bounds (Zpos my) eq_refl) as [_ U2].
  cbn [Zdigits2] in L1, U2. fold d1 in L1. fold d2 in U2.
  assert (Hd1 : 1 <= d1) by (unfold d1; lia).
  assert (Hd2 : 1 <= d2) by (unfold d2; lia).
  pose proof (Zdigits2_nonneg q) as Hdq.
  destruct (Z.le_gt_cases d2 (d1 - 1 + s)) as [Hk|Hk].
  - (* the quotient has at least d1 + s - d2 digits *)
    assert (Hge : d1 + s - d2 <= Zdigits2 q).
    { assert (Hpow : 2 ^ (d1 - 1 + s) = 2 ^ (d1 - 1 + s - d2) * 2 ^ d2)
        by (rewrite <- Z.pow_add_r by lia; f_equal; lia).
      assert (Hp1 : 2 ^ (d1 - 1) * 2 ^ s = 2 ^ (d1 - 1 + s))
        by (rewrite <- Z.pow_add_r by lia; reflexivity).
      assert (Hp2 : 0 < 2 ^ (d1 - 1 + s - d2))
        by (apply Z.pow_pos_nonneg; lia).
      assert (Hlow : 2 ^ (d1 - 1 + s - d2) <= q) by nia.
      pose proof (Zdigits2_ge q (d1 - 1 + s - d2) ltac:(lia) Hlow). lia. }
    apply Z.le_trans with (fexp prec emax (d1 + ex - (d2 + ey)));
      [unfold e'; lia|].
    apply fexp_mono. unfold s in Hge. lia.
  - (* the exponent is the smallest one *)
    assert (He' : e' = Z.min (Z.max (d1 + ex - (d2 + ey) - 53) (-1074))
                         (ex - ey))
      by (unfold e'; rewrite fexp_eq; reflexivity).
    assert (Hsd : s = ex - ey - e') by reflexivity.
    rewrite fexp_eq. lia.
Qed.

(** A quotient of finite floats (with mantissas of any size) is a float of
    the format, with the sign of the quotient. *)
Lemma SFdiv_valid (sx sy : bool) (mx my : positive) (ex ey : Z) :
  valid_binary (SF64div (S754_finite sx mx ex) (S754_finite sy my ey)) = true.
Proof.
  cbn [SF64div SFdiv].
  pose proof (div_core_spec mx my ex ey) as H.
  destruct (SFdiv_core_binary prec emax (Zpos mx) ex (Zpos my) ey)
    as [[q e'] l].
  destruct H as (s & r & _ & _ & _ & _ & _ & Hq & He).
  apply round_aux_valid; assumption.
Qed.

Lemma SFdiv_sign (sx sy : bool) (mx my : positive) (ex ey : Z) :
  match SF64div (S754_finite sx mx ex) (S754_finite sy my ey) with
  | S754_zero s' | S754_infinity s' | S754_finite s' _ _ => s' = xorb sx sy
  | S754_nan => False
  end.
Proof.
  cbn [SF64div SFdiv].
  pose proof (div_core_spec mx my ex ey) as H.
  destruct (SFdiv_core_binary prec emax (Zpos mx) ex (Zpos my) ey)
    as [[q e'] l].
  destruct H as (s & r & _ & _ & _ & _ & _ & Hq & He).
  apply round_aux_sign. exact Hq.
Qed.

End F64Div.

Module F64Above.

Import F64 F64Facts F64Magnitude F64Sign F64Round.
Local Open Scope Z_scope.
Local Unset Implicit Arguments.

(** Rounding does not lower the magnitude. *)
Lemma round_aux_above (s : bool) (m e : Z) (l : location) :
  0 < m -> e <= fexp prec emax (Zdigits2 m + e) ->
  -1074 < Zdigits2 m + e ->
  match binary_round_aux prec emax s m e l with
  | S754_finite _ m' e' => Zdigits2 m + e <= Zpos (digits2_pos m') + e'
  | S754_infinity _ => True
  | _ => False
  end.
Proof.
  intros Hm He Hmag. unfold binary_round_aux.
  pose proof (round_aux_stages m e l ltac:(lia) He) as H.
  destruct (shr_fexp prec emax m e l) as [r1 e1]. cbv zeta in H.
  pose proof (round_nearest_even_range (shr_m r1) (loc_of_shr_record r1))
    as Hr.
  set (m2 := round_nearest_even (shr_m r1) (loc_of_shr_record r1)) in *.
  destruct (shr_fexp prec emax m2 e1 loc_Exact) as [r3 e3].
  destruct H as (E1 & H1m & H1d & E3 & H3m & H3d).
  pose proof (Zdigits2_mono (shr_m r1) m2 ltac:(lia)) as Hmono.
  rewrite fexp_eq in E1, E3.
  destruct (shr_m r3) as [|p|p] eqn:Ep.
  - cbn [Zdigits2] in H3d. lia.
  - destruct (e3 <=? emax - prec); [|exact I].
    cbn [Zdigits2] in H3d. lia.
  - lia.
Qed.

Lemma binary_round_above (s : bool) (m : positive) (e : Z) :
  -1074 < Zpos (digits2_pos m) + e ->
  match binary_round prec emax s m e with
  | S754_finite _ m' e' =>
      Zpos (digits2_pos m) + e <= Zpos (digits2_pos m') + e'
  | S754_infinity _ => True
  | _ => False
  end.
Proof.
  intros Hmag. unfold binary_round.
  pose proof (shl_align_fexp_le m e) as H.
  pose proof (shl_align_mag m e (fexp prec emax (Zpos (digits2_pos m) + e)))
    as Hm.
  destruct (shl_align m e (fexp prec emax (Zpos (digits2_pos m) + e)))
    as [mz ez].
  pose proof (round_aux_above s (Zpos mz) ez loc_Exact ltac:(lia) H) as Ha.
  cbn [Zdigits2] in Ha. rewrite Hm in Ha. apply Ha. lia.
Qed.

Lemma below_finite (B : Z) (x : float) :
  below B (Prim2SF x) ->
  (neg_infinity <? x)%float = true /\ (x <? infinity)%float = true.
Proof.
  rewrite !ltb_spec.
  change (Prim2SF neg_infinity) with (S754_infinity true).
  change (Prim2SF infinity) with (S754_infinity false).
  destruct (Prim2SF x) as [[|]|[|]| |[|] m e]; cbn [below]; try contradiction;
    intros _; split; reflexivity.
Qed.

End F64Above.

Section TotalsNotNegative.

Context {M : MathLib} {Sv : RoutingSolver}.

(** ** The sign of a total *)

Lemma sum_legs_nonneg (coords : list coord) (order : list nat)
    (t0 t : float) :
  (forall a b d, leg_km coords a b = Ok d -> (0 <=? d) = true) ->
  (0 <=? t0) = true ->
  sum_legs coords order t0 = Ok t -> (0 <=? t) = true.
Proof.
  intros Hlegs. revert t0.
  induction order as [|a rest IH]; intros t0 H0 H.
  - inversion H; subst. exact H0.
  - destruct rest as [|b rest]; [inversion H; subst; exact H0|].
    rewrite sum_legs_cons in H. apply bind_ok in H.
    destruct H as (d & Hd & H).
    apply (IH (t0 + d)); [|exact H].
    apply F64Sign.add_nonneg; [exact H0 | exact (Hlegs a b d Hd)].
Qed.

(** When no distance between two nodes is negative or NaN, neither is a
    total: the evaluator's total along any order is a number that is not
    negative (it may be plus infinity), and so is the cost that
    [route_order] returns. *)
Theorem distance_totals_not_negative (hub : coord) (sites : list site) :
  (forall a b d,
     leg_km (coords_of hub sites) a b = Ok d -> (0 <=? d) = true) ->
  (forall order t,
     total_distance_km_along_order order (coords_of hub sites) = Ok t ->
     (0 <=? t) = true) /\
  (forall damage_weight algorithm order cost,
     route_order hub sites damage_weight algorithm = Ok (order, cost) ->
     (0 <=? cost) = true).
Proof.
  intros Hlegs.
  assert (He : forall order t,
             total_distance_km_along_order order (coords_of hub sites) = Ok t ->
             (0 <=? t) = true).
  { intros order t H. rewrite along_order_sum_legs in H.
    eapply sum_legs_nonneg; [exact Hlegs | | exact H]. reflexivity. }
  split; [exact He|].
  intros w alg order cost H. apply route_order_cost in H.
  exact (He order cost H).
Qed.

End TotalsNotNegative.

Lemma demo_legs_nonneg (a b : nat) (d : float) :
  @leg_km flat_math (coords_of demo_hub demo_sites) a b = Ok d ->
  (0 <=? d) = true.
Proof. intros H. apply demo_legs_finite in H. apply H. Qed.

(** The scenario's greedy route at weight 0.5. *)
Lemma distance_totals_not_negative_demo :
  (0 <=? 0x1.d7077e1be25efp+8) = true.
Proof.
  apply (proj2 (@distance_totals_not_negative flat_math no_ortools
                  demo_hub demo_sites demo_legs_nonneg)
           0.5 "greedy"%string [0; 3; 2; 1]%nat).
  vm_compute. reflexivity.
Defined.

(** * The damage score, the seed coordinates and the response *)

(** ** Conversions of ints *)

Lemma int_to_float_spec (z : Z) (f : float) :
  int_to_float z = Ok f ->
  Prim2SF f = binary_normalize prec emax z 0 false /\
  forall s, binary_normalize prec emax z 0 false <> S754_infinity s.
Proof.
  unfold int_to_float.
  pose proof (F64Round.binary_normalize_valid z 0 false) as Hv.
  set (sf := binary_normalize prec emax z 0 false) in *. intros H.
  assert (Hf : f = SF2Prim sf /\ forall s, sf <> S754_infinity s).
  { destruct sf; try discriminate; injection H as <-;
      (split; [reflexivity | discriminate]). }
  destruct Hf as [-> Hi]. split; [apply Prim2SF_SF2Prim, Hv | exact Hi].
Qed.

Lemma int_to_float_raises (z : Z) (e : exn) :
  int_to_float z = Raise e -> e = OverflowError.
Proof.
  unfold int_to_float.
  destruct (binary_normalize prec emax z 0 false); intros H; inversion H;
    reflexivity.
Qed.

(** An int below [2 ^ 63] in absolute value is converted, to a float below
    [2 ^ 64]. *)
Lemma int_to_float_word (z : Z) :
  (Z.abs z < 2 ^ 63)%Z ->
  exists f, int_to_float z = Ok f /\ F64.below 64 (Prim2SF f).
Proof.
  intros Hz.
  assert (Hb : F64.below 64 (binary_normalize prec emax z 0 false)).
  { unfold binary_normalize. destruct z as [|p|p]; [exact I | |];
      apply (F64Magnitude.binary_round_below _ p 0 63);
      try lia;
      pose proof (F64Magnitude.Zdigits2_le (Zpos p) 63) as H;
      cbn [Zdigits2] in H; lia. }
  unfold int_to_float.
  pose proof (F64Round.binary_normalize_valid z 0 false) as Hv.
  set (sf := binary_normalize prec emax z 0 false) in *.
  exists (SF2Prim sf). split.
  - destruct sf; try reflexivity. contradiction.
  - rewrite Prim2SF_SF2Prim by exact Hv. exact Hb.
Qed.

(** The float of an int that is not zero is not zero, and has the int's
    sign. *)
Lemma int_to_float_nonzero (z : Z) (f : float) :
  z <> 0%Z -> int_to_float z = Ok f ->
  exists m e, Prim2SF f = S754_finite (z <? 0)%Z m e.
Proof.
  intros Hz H. apply int_to_float_spec in H. destruct H as [H Hinf].
  rewrite H in *. clear H. unfold binary_normalize in *.
  destruct z as [|p|p]; [congruence | |].
  - pose proof (F64Sign.binary_round_sign false p 0) as Hs.
    pose proof (@F64Round.binary_round_nonzero false p 0 ltac:(lia)) as Hn.
    destruct (binary_round prec emax false p 0) as [s|s| |s m e];
      [exfalso; eapply Hn; reflexivity | exfalso; eapply Hinf; reflexivity
      | contradiction | subst; eauto].
  - pose proof (F64Sign.binary_round_sign true p 0) as Hs.
    pose proof (@F64Round.binary_round_nonzero true p 0 ltac:(lia)) as Hn.
    destruct (binary_round prec emax true p 0) as [s|s| |s m e];
      [exfalso; eapply Hn; reflexivity | exfalso; eapply Hinf; reflexivity
      | contradiction | subst; eauto].
Qed.

Lemma int_to_float_zero : int_to_float 0 = Ok 0.
Proof. reflexivity. Qed.

Lemma finite_not_zero (f : float) (s : bool) (m : positive) (e : Z) :
  Prim2SF f = S754_finite s m e -> (f =? 0) = false.
Proof.
  intros H. rewrite FloatAxioms.eqb_spec, H.
  change (Prim2SF 0) with (S754_zero false). destruct s; reflexivity.
Qed.

(** ** [round(x, ndigits)] *)

Lemma round_half_even_nonneg (m : positive) (e : Z) :
  (0 <= round_half_even m e)%Z.
Proof.
  unfold round_half_even. destruct e as [|p|p]; [lia | lia |].
  pose proof (Z.pow_pos_nonneg 2 (Zpos p) ltac:(lia) ltac:(lia)) as Hd.
  rewrite Z.pow_pos_fold.
  pose proof (Z.div_pos (Zpos m) (2 ^ Zpos p) ltac:(lia) Hd) as Hq.
  destruct (2 * (Zpos m mod 2 ^ Zpos p) ?= 2 ^ Zpos p)%Z;
    try destruct (Z.even (Zpos m / 2 ^ Zpos p)); lia.
Qed.

(** Rounding to decimals keeps a number that is not negative so. *)
Lemma round_ndigits_nonneg (x : float) (ndigits : nat) :
  (0 <=? x) = true -> (0 <=? round_ndigits x ndigits) = true.
Proof.
  intros Hx. unfold round_ndigits.
  destruct (Prim2SF x) as [s|s| |s m e] eqn:E; try exact Hx.
  assert (Hs : s = false).
  { rewrite leb_spec, E in Hx. destruct s; [discriminate | reflexivity]. }
  subst s.
  set (p := match ndigits with
            | O => 1%positive
            | S _ => (10 ^ Pos.of_nat ndigits)%positive
            end).
  pose proof (round_half_even_nonneg (m * p) e) as Hn.
  destruct (round_half_even (m * p) e) as [|n|n]; [reflexivity | | lia].
  rewrite leb_spec.
  rewrite Prim2SF_SF2Prim by apply F64Div.SFdiv_valid.
  apply F64Sign.sign_nonneg.
  exact (F64Div.SFdiv_sign false false n p 0 0).
Qed.

(** ** [_calculate_damage_score] *)

Lemma dict_get_Forall (V : Type) (P : V -> Prop) (d : list (string * V))
    (k : string) (default : V) :
  Forall (fun kv => P (snd kv)) d -> P default -> P (dict_get d k default).
Proof.
  intros Hd Hdef. induction Hd as [|[k' v] d Hv _ IH]; [exact Hdef|].
  cbn [dict_get]. destruct (String.eqb k' k); [exact Hv | exact IH].
Qed.

(** One round of the loop over [damage_weights], for a weight that is a
    finite number and not negative. *)
Lemma weighted_sum_step (weighted_sum weight : float) (pixel_count : Z) :
  (0 <=? weighted_sum) = true ->
  (0 <=? weight) = true -> (weight <? infinity) = true ->
  (0 <= pixel_count < 2 ^ 63)%Z ->
  exists c,
    int_to_float pixel_count = Ok c /\
    (0 <=? weighted_sum + c * weight) = true.
Proof.
  intros Hws Hw Hfin Hc.
  destruct (int_to_float_word pixel_count) as (c & Hconv & Hb); [lia|].
  exists c. split; [exact Hconv|].
  apply F64Sign.add_nonneg; [exact Hws|].
  rewrite leb_spec, mul_spec. rewrite leb_spec in Hw. rewrite ltb_spec in Hfin.
  change (Prim2SF 0) with (S754_zero false) in *.
  change (Prim2SF infinity) with (S754_infinity false) in *.
  assert (Hcs : SFleb (S754_zero false) (Prim2SF c) = true).
  { destruct (Z.eq_dec pixel_count 0) as [->|Hne].
    - rewrite int_to_float_zero in Hconv. injection Hconv as <-. reflexivity.
    - destruct (int_to_float_nonzero Hne Hconv) as (m & e & ->).
      destruct (Z.ltb_spec pixel_count 0); [lia | reflexivity]. }
  destruct (F64Sign.SFmul_nonneg _ _ Hcs Hw) as [H|H]; [exact H|].
  exfalso. revert Hb Hfin Hcs Hw H.
  destruct (Prim2SF c) as [[|]|[|]| |[|] mc ec],
           (Prim2SF weight) as [[|]|[|]| |[|] mw ew];
    cbn [F64.below SF64mul SFmul]; try discriminate; try contradiction.
  - intros _ _ _ _ H.
    pose proof (F64Sign.round_aux_sign (xorb false false)
                  (Zpos (mc * mw)) (ec + ew) loc_Exact ltac:(lia)) as Hs.
    rewrite H in Hs. exact Hs.
Qed.

Lemma damage_weights_in_range :
  Forall (fun cw => (0 <=? snd cw) = true /\ (snd cw <? infinity) = true)
    damage_weights.
Proof. repeat constructor. Qed.

(** The loop over [damage_weights], for pixel counts that are not
    negative. *)
Lemma weighted_sum_nonneg (counts : list (string * Z))
    (weights : list (string * float)) (ws0 : float) :
  Forall (fun kc => (0 <= snd kc < 2 ^ 63)%Z) counts ->
  Forall (fun cw => (0 <=? snd cw) = true /\ (snd cw <? infinity) = true)
    weights ->
  (0 <=? ws0) = true ->
  exists ws,
    foldM (fun weighted_sum cw =>
             c <- int_to_float (dict_get counts (fst cw) 0%Z) ;;
             Ok (weighted_sum + c * snd cw))
          weights ws0 = Ok ws /\
    (0 <=? ws) = true.
Proof.
  intros Hc Hw. revert ws0.
  induction Hw as [|[k w] weights [Hw0 Hw1] _ IH]; intros ws0 H0.
  - exists ws0. split; [reflexivity | exact H0].
  - cbn [foldM fst snd].
    destruct (@weighted_sum_step ws0 w (dict_get counts k 0%Z) H0 Hw0 Hw1)
      as (c & -> & Hs).
    { apply (dict_get_Forall (fun v => (0 <= v < 2 ^ 63)%Z)); [exact Hc | lia]. }
    cbn [bind]. apply IH. exact Hs.
Qed.

Lemma SFdiv_nonneg (x y : spec_float) (my : positive) (ey : Z) :
  SFleb (S754_zero false) x = true -> y = S754_finite false my ey ->
  SFleb (S754_zero false) (SF64div x y) = true.
Proof.
  intros Hx ->. apply F64Sign.SFleb_zero in Hx.
  destruct x as [sx|sx| |sx mx ex]; try contradiction.
  - reflexivity.
  - subst sx. reflexivity.
  - subst sx. apply F64Sign.sign_nonneg.
    exact (F64Div.SFdiv_sign false false mx my ex ey).
Qed.

(** For pixel counts that are not negative (and, with their sum, below
    [2 ^ 63]), the function returns a score, and the score is a number that
    is not negative: never NaN, and no [ZeroDivisionError] from the
    division by the converted total. *)
Theorem damage_score_not_negative (counts : list (string * Z)) :
  Forall (fun kc => (0 <= snd kc < 2 ^ 63)%Z) counts ->
  (sum_values counts < 2 ^ 63)%Z ->
  exists score,
    _calculate_damage_score counts = Ok score /\ (0 <=? score) = true.
Proof.
  intros Hc Hsum. unfold _calculate_damage_score.
  destruct (Z.eqb_spec (sum_values counts) 0) as [_|Hne].
  - exists 0. split; reflexivity.
  - assert (Hpos : (0 <= sum_values counts)%Z).
    { unfold sum_values.
      assert (Hgen : forall l a, Forall (fun z => 0 <= z)%Z l -> (0 <= a)%Z ->
                       (0 <= fold_left Z.add l a)%Z).
      { induction l as [|z l IH]; intros a Hl Ha; [exact Ha|].
        inversion Hl; subst. cbn [fold_left]. apply IH; [assumption | lia]. }
      apply Hgen; [|lia]. apply Forall_map.
      eapply Forall_impl; [|exact Hc]. cbn beta. intros kc H. lia. }
    destruct (@weighted_sum_nonneg counts damage_weights 0 Hc
                damage_weights_in_range eq_refl) as (ws & -> & Hws).
    cbn [bind].
    destruct (int_to_float_word (sum_values counts)) as (t & Ht & _); [lia|].
    rewrite Ht. cbn [bind].
    destruct (int_to_float_nonzero Hne Ht) as (mt & et & Et).
    destruct (Z.ltb_spec (sum_values counts) 0) as [|_]; [lia|].
    unfold truediv. rewrite (finite_not_zero _ Et). cbn [bind].
    eexists. split; [reflexivity|].
    apply round_ndigits_nonneg.
    rewrite leb_spec, div_spec. rewrite leb_spec in Hws.
    eapply SFdiv_nonneg; [exact Hws | exact Et].
Qed.

(** Ten undamaged building pixels, three with minor damage, one
    destroyed. *)
Lemma damage_score_not_negative_demo :
  exists score,
    _calculate_damage_score
      [("no_damage", 10); ("minor_damage", 3); ("destroyed", 1)]%string%Z
    = Ok score /\
    (0 <=? score) = true.
Proof.
  apply damage_score_not_negative.
  - repeat (constructor; [cbn; lia|]). constructor.
  - vm_compute. reflexivity.
Defined.

Lemma foldM_raise (A B : Type) (f : B -> A -> result B) (l : list A) (b : B)
    (e : exn) :
  foldM f l b = Raise e -> exists b' a, In a l /\ f b' a = Raise e.
Proof.
  revert b. induction l as [|a l IH]; intros b; cbn [foldM]; [discriminate|].
  destruct (f b a) as [b'|e'] eqn:Hf; cbn [bind].
  - intros H. destruct (IH _ H) as (b'' & a' & Hin & Ha').
    exists b'', a'. split; [right; exact Hin | exact Ha'].
  - intros H. injection H as <-. exists b, a. split; [left; reflexivity|].
    exact Hf.
Qed.

(** Whatever the counts are (ints of any sign and size), the function
    raises no [ZeroDivisionError]: the total is compared with zero before
    the division, and the float of a total that is not zero is not zero.
    The only exception it can raise is the [OverflowError] of an int too
    large for a float. *)
Theorem damage_score_raises_only_overflow (counts : list (string * Z))
    (e : exn) :
  _calculate_damage_score counts = Raise e -> e = OverflowError.
Proof.
  unfold _calculate_damage_score.
  destruct (Z.eqb_spec (sum_values counts) 0) as [|Hne]; [discriminate|].
  match goal with |- context [foldM ?f ?l ?b] =>
    destruct (foldM f l b) as [ws|e'] eqn:Hws
  end; cbn [bind].
  - destruct (int_to_float (sum_values counts)) as [t|e'] eqn:Ht; cbn [bind].
    + destruct (int_to_float_nonzero Hne Ht) as (mt & et & Et).
      unfold truediv. rewrite (finite_not_zero _ Et). discriminate.
    + intros H. injection H as <-. exact (int_to_float_raises _ Ht).
  - intros H. injection H as <-.
    apply foldM_raise in Hws. destruct Hws as (ws & cw & _ & H).
    cbv zeta in H.
    destruct (int_to_float (dict_get counts (fst cw) 0%Z)) as [c|e''] eqn:Hc;
      cbn [bind] in H; [discriminate|].
    injection H as <-. exact (int_to_float_raises _ Hc).
Qed.

(** A count of [2 ^ 1024] pixels. *)
Lemma damage_score_raises_only_overflow_demo :
  _calculate_damage_score [("destroyed"%string, (2 ^ 1024)%Z)]
  = Raise OverflowError.
Proof.
  assert (H : exists e, _calculate_damage_score
                          [("destroyed"%string, (2 ^ 1024)%Z)] = Raise e)
    by (eexists; vm_compute; reflexivity).
  destruct H as (e & H). rewrite H. f_equal.
  exact (damage_score_raises_only_overflow _ H).
Defined.

(** A [get] with a default, and the sum of the values, after a new key is
    added with the default as its value. *)
Lemma dict_get_new_default (V : Type) (d : list (string * V))
    (k k' : string) (default : V) :
  dict_get (d ++ [(k, default)]) k' default = dict_get d k' default.
Proof.
  induction d as [|[k0 v] d IH]; cbn [dict_get app].
  - destruct (String.eqb k k'); reflexivity.
  - destruct (String.eqb k0 k'); [reflexivity | exact IH].
Qed.

Lemma sum_values_new_zero (d : list (string * Z)) (k : string) :
  sum_values (d ++ [(k, 0%Z)]) = sum_values d.
Proof.
  unfold sum_values. rewrite map_app, fold_left_app. cbn [map fold_left snd].
  lia.
Qed.

Lemma foldM_ext (A B : Type) (f g : B -> A -> result B) (l : list A) (b : B) :
  (forall b a, f b a = g b a) -> foldM f l b = foldM g l b.
Proof.
  intros H. revert b. induction l as [|a l IH]; intros b; cbn [foldM];
    [reflexivity|].
  rewrite H. destruct (g b a); cbn [bind]; [apply IH | reflexivity].
Qed.

Lemma dict_set_new (V : Type) (d : list (string * V)) (k : string) (v : V) :
  ~ In k (map fst d) -> dict_set d k v = d ++ [(k, v)].
Proof.
  induction d as [|[k' v'] d IH]; intros Hk; cbn [dict_set app];
    [reflexivity|].
  destruct (String.eqb_spec k' k) as [->|_].
  - exfalso. apply Hk. left. reflexivity.
  - f_equal. apply IH. intros H. apply Hk. right. exact H.
Qed.

(** A category that the counts do not list is a category with no pixels:
    setting it to 0 in the dict changes neither the score nor the
    exception. *)
Theorem missing_category_counts_zero (counts : list (string * Z))
    (category : string) :
  ~ In category (map fst counts) ->
  _calculate_damage_score (dict_set counts category 0%Z)
  = _calculate_damage_score counts.
Proof.
  intros Hnew. rewrite dict_set_new by exact Hnew.
  unfold _calculate_damage_score.
  rewrite sum_values_new_zero.
  destruct (sum_values counts =? 0)%Z; [reflexivity|].
  f_equal. apply foldM_ext. intros ws cw. cbv zeta.
  rewrite dict_get_new_default. reflexivity.
Qed.

(** ** Buildings without damage *)

Lemma add_zero_mul_zero (c : float) (s : bool) (m : positive) (e : Z) :
  Prim2SF c = S754_zero s \/ Prim2SF c = S754_finite s m e ->
  0 + c * 0 = 0.
Proof.
  intros H. apply Prim2SF_inj. rewrite add_spec, mul_spec.
  change (Prim2SF 0) with (S754_zero false).
  destruct H as [-> | ->]; destruct s; reflexivity.
Qed.

Lemma zero_div_finite (t : float) (m : positive) (e : Z) :
  Prim2SF t = S754_finite false m e -> 0 / t = 0.
Proof.
  intros H. apply Prim2SF_inj. rewrite div_spec, H. reflexivity.
Qed.

(** When no pixel is in a damaged category (the counts of minor damage,
    major damage and destroyed are 0 or absent) and some pixel is counted,
    the score is exactly 0.0. *)
Theorem undamaged_buildings_score_zero (counts : list (string * Z)) :
  dict_get counts "minor_damage" 0%Z = 0%Z ->
  dict_get counts "major_damage" 0%Z = 0%Z ->
  dict_get counts "destroyed" 0%Z = 0%Z ->
  (Z.abs (dict_get counts "no_damage" 0%Z) < 2 ^ 63)%Z ->
  (0 < sum_values counts < 2 ^ 63)%Z ->
  _calculate_damage_score counts = Ok 0.
Proof.
  intros Hminor Hmajor Hdestroyed Hnd Hsum. unfold _calculate_damage_score.
  destruct (Z.eqb_spec (sum_values counts) 0) as [|Hne]; [lia|].
  cbn [foldM damage_weights fst snd].
  rewrite Hminor, Hmajor, Hdestroyed, int_to_float_zero.
  destruct (int_to_float_word _ Hnd) as (c & Hc & Hb). rewrite Hc.
  cbn [bind].
  assert (E0 : 0 + c * 0 = 0).
  { destruct (Z.eq_dec (dict_get counts "no_damage" 0%Z) 0) as [E|E].
    - rewrite E, int_to_float_zero in Hc. injection Hc as <-. reflexivity.
    - destruct (int_to_float_nonzero E Hc) as (m & e & Hm).
      eapply add_zero_mul_zero. right. exact Hm. }
  rewrite E0.
  replace (0 + 0 * 25 + 0 * 75 + 0 * 100) with 0 by reflexivity.
  destruct (int_to_float_word (sum_values counts)) as (t & Ht & _); [lia|].
  rewrite Ht. cbn [bind].
  destruct (int_to_float_nonzero Hne Ht) as (mt & et & Et).
  destruct (Z.ltb_spec (sum_values counts) 0) as [|_]; [lia|].
  unfold truediv. rewrite (finite_not_zero _ Et). cbn [bind].
  rewrite (zero_div_finite _ Et). reflexivity.
Qed.

(** One destroyed pixel, with and without a count for minor damage. *)
Lemma missing_category_counts_zero_demo :
  _calculate_damage_score
    (dict_set [("destroyed"%string, 1%Z)] "minor_damage" 0%Z)
  = _calculate_damage_score [("destroyed"%string, 1%Z)].
Proof.
  apply missing_category_counts_zero.
  cbn. intros [H|[]]. discriminate H.
Defined.

(** Ten undamaged building pixels. *)
Lemma undamaged_buildings_score_zero_demo :
  _calculate_damage_score [("no_damage"%string, 10%Z)] = Ok 0.
Proof.
  apply undamaged_buildings_score_zero;
    try reflexivity; vm_compute; split; reflexivity.
Defined.

(** ** The seed coordinates *)

(** The float of a positive int below [2 ^ 63] is at least 1 and below
    [2 ^ 64]. *)
Lemma int_to_float_positive (z : Z) :
  (0 < z < 2 ^ 63)%Z ->
  exists f, int_to_float z = Ok f /\
            F64.below 64 (Prim2SF f) /\ F64.above 1 (Prim2SF f) /\
            (f =? 0) = false.
Proof.
  intros Hz. destruct (int_to_float_word z) as (f & Hf & Hb); [lia|].
  exists f. split; [exact Hf|]. split; [exact Hb|].
  destruct (@int_to_float_nonzero z f ltac:(lia) Hf) as (m & e & Hm).
  split; [|exact (finite_not_zero _ Hm)].
  apply int_to_float_spec in Hf. destruct Hf as [Hf _].
  rewrite Hf in *. clear Hf.
  destruct z as [|p|p]; try lia. cbn [binary_normalize] in *.
  pose proof (@F64Above.binary_round_above false p 0 ltac:(lia)) as Ha.
  rewrite Hm in Ha |- *. cbn [F64.above]. lia.
Qed.

Section SeedFacts.

Context {M : MathLib}.

(** [range(n)] gives one point per stop: when the cosine and the sine of a
    finite angle are defined, as they are in Python, the function returns
    [n] points for [0 <= n < 2 ^ 63] and none for a negative [n]; the
    division by [n] is never a division by zero. *)
Theorem seed_coords_one_per_stop (n : Z) :
  (forall x, (neg_infinity <? x) = true -> (x <? infinity) = true ->
             exists y, math_cos x = Ok y) ->
  (forall x, (neg_infinity <? x) = true -> (x <? infinity) = true ->
             exists y, math_sin x = Ok y) ->
  (n < 2 ^ 63)%Z ->
  exists coords,
    _seed_coords_around_hub n = Ok coords /\ length coords = Z.to_nat n.
Proof.
  intros Hcos Hsin Hn. unfold _seed_coords_around_hub.
  match goal with |- context [mapM ?f ?l] =>
    destruct (@mapM_total _ _ f l) as (coords & Hc)
  end.
  - intros i Hi. apply in_seq in Hi.
    assert (Hi' : (0 <= Z.of_nat i < 2 ^ 63)%Z) by lia.
    destruct (int_to_float_word (Z.of_nat i)) as (fi & -> & Hfi); [lia|].
    destruct (@int_to_float_positive n ltac:(lia))
      as (fn & -> & Hfn & Han & Hnz).
    cbn [bind]. unfold truediv. rewrite Hnz. cbn [bind].
    assert (Hangle : F64.below 71 (Prim2SF (radians (360 * fi / fn)))).
    { unfold radians. rewrite mul_spec, div_spec, mul_spec.
      apply (@F64Magnitude.mul_below _ _ 75 (-5));
        [| vm_compute; discriminate | lia].
      apply (@F64Magnitude.div_below _ _ 74 1); [| exact Han | lia].
      apply (@F64Magnitude.mul_below _ _ 9 64);
        [vm_compute; discriminate | exact Hfi | lia]. }
    apply F64Above.below_finite in Hangle. destruct Hangle as [Hlo Hhi].
    destruct (Hcos _ Hlo Hhi) as (c & ->).
    destruct (Hsin _ Hlo Hhi) as (s & ->).
    cbn [bind]. eauto.
  - exists coords. split; [exact Hc|].
    apply mapM_length in Hc. rewrite length_seq in Hc. exact Hc.
Qed.

End SeedFacts.

Lemma flat_math_defined (x : float) :
  (exists y, @math_cos flat_math x = Ok y) /\
  (exists y, @math_sin flat_math x = Ok y).
Proof. split; eexists; reflexivity. Qed.

(** The seven seed stops. *)
Lemma seed_coords_one_per_stop_demo :
  exists coords,
    @_seed_coords_around_hub flat_math _N_SEED_STOPS = Ok coords /\
    length coords = Z.to_nat _N_SEED_STOPS.
Proof.
  apply (@seed_coords_one_per_stop flat_math _N_SEED_STOPS).
  - intros x _ _. apply flat_math_defined.
  - intros x _ _. apply flat_math_defined.
  - reflexivity.
Defined.

(** ** The response of the route handler *)

Section HandlerFacts.

Context {M : MathLib} {Sv : RoutingSolver}.

Lemma normalise_algorithm_cases (algorithm : string) :
  (algorithm = "tsp"%string /\ normalise_algorithm algorithm = "tsp"%string) \/
  (algorithm <> "tsp"%string /\
   normalise_algorithm algorithm = "greedy"%string).
Proof.
  unfold normalise_algorithm.
  destruct (String.eqb_spec algorithm "greedy") as [->|Hg].
  - right. split; [discriminate | reflexivity].
  - destruct (String.eqb_spec algorithm "tsp") as [->|Ht].
    + left. split; reflexivity.
    + right. split; [exact Ht | reflexivity].
Qed.

(** Every response of the route handler reports one number under two names
    ([total_distance_km] and [total_cost_km] are equal) and echoes the
    request's [damage_weight] as it was sent, not the clamped weight that
    was used.  For a request with sites the response names the algorithm
    that ran: ["tsp"] when the request said exactly that, ["greedy"] for
    any other string.  For a request without sites the order is the hub
    alone and the request's algorithm string comes back unchanged. *)
Theorem route_response_fields (req : RouteRequest) (resp : RouteResponse) :
  compute_route_response req = Ok resp ->
  resp_total_distance_km resp = resp_total_cost_km resp /\
  resp_damage_weight resp = req_damage_weight req /\
  (req_sites req <> [] ->
   (req_algorithm req = "tsp"%string /\ resp_algorithm resp = "tsp"%string) \/
   (req_algorithm req <> "tsp"%string /\
    resp_algorithm resp = "greedy"%string)) /\
  (req_sites req = [] ->
   resp_order resp = [0%nat] /\ resp_algorithm resp = req_algorithm req).
Proof.
  unfold compute_route_response. intros H.
  destruct (req_sites req) as [|s sites] eqn:Es.
  - injection H as <-. cbn. repeat split; congruence.
  - apply bind_ok in H. destruct H as ([order cost] & Hr & H).
    cbn [fst snd] in H.
    pose proof (route_order_cost _ _ _ _ Hr) as Hc.
    unfold total_distance_km in H. unfold coords_of in Hc.
    rewrite Hc in H. cbn [bind] in H. injection H as <-. cbn.
    split; [reflexivity|]. split; [reflexivity|]. split; [|discriminate].
    intros _. apply normalise_algorithm_cases.
Qed.

End HandlerFacts.

(** A request for the scenario with a weight of 5 and the algorithm
    ["TSP"]. *)
Lemma route_response_fields_demo :
  exists resp,
    @compute_route_response flat_math index_order_solver
      {| req_hub := demo_hub; req_sites := demo_sites;
         req_damage_weight := 5; req_algorithm := "TSP" |} = Ok resp /\
    resp_total_distance_km resp = resp_total_cost_km resp /\
    resp_damage_weight resp = 5 /\
    resp_algorithm resp = "greedy"%string.
Proof.
  eexists.
  assert (H : @compute_route_response flat_math index_order_solver
                {| req_hub := demo_hub; req_sites := demo_sites;
                   req_damage_weight := 5; req_algorithm := "TSP" |}
              = Ok _) by (vm_compute; reflexivity).
  split; [exact H|].
  destruct (@route_response_fields flat_math index_order_solver _ _ H)
    as (Hd & Hw & Ha & _).
  split; [exact Hd|]. split; [exact Hw|].
  destruct Ha as [[Ha _]|[_ Ha]]; [discriminate | discriminate | exact Ha].
Defined.

(** * The first pick at damage weight 0 *)

Module F64Neg.

Import F64 F64Facts.

(** [0 * a - q] is NaN, or compares as [- q] does. *)
Lemma SF_zero_mul_sub (a q c : spec_float) :
  let r := SF64sub (SF64mul (S754_zero false) a) q in
  r = S754_nan \/
  (SFcompare r c = SFcompare (SFopp q) c /\
   SFcompare c r = SFcompare c (SFopp q)).
Proof.
  unfold SF64sub, SF64mul, SFsub, SFmul.
  destruct a as [[|]|[|]| |[|] ? ?], q as [[|]|[|]| |[|] ? ?]; simpl; auto;
    right; split;
    reflexivity || (destruct c as [[|]|[|]| |[|] ? ?]; reflexivity).
Qed.

Lemma SFcompare_opp (x y : spec_float) :
  SFcompare (SFopp x) (SFopp y) = SFcompare y x.
Proof.
  destruct x as [[|]|[|]| |[|] mx ex], y as [[|]|[|]| |[|] my ey];
    try reflexivity; cbn [SFopp negb SFcompare];
    rewrite (Z.compare_antisym ex ey);
    destruct (ex ?= ey)%Z; cbn [CompOpp]; try reflexivity;
    change (Pos.compare_cont Eq ?a ?b) with (Pos.compare a b);
    rewrite (Pos.compare_antisym mx my);
    destruct (mx ?= my)%positive; reflexivity.
Qed.

Lemma zero_mul_sub_cmp (a1 q1 a2 q2 : float) :
  gt (0 * a1 - q1) neg_infinity = true ->
  gt (0 * a2 - q2) neg_infinity = true ->
  fcmp (0 * a1 - q1) (0 * a2 - q2) = fcmp q2 q1.
Proof.
  unfold gt, fcmp. rewrite !ltb_spec, !sub_spec, !mul_spec.
  change (Prim2SF neg_infinity) with (S754_infinity true).
  change (Prim2SF 0) with (S754_zero false).
  intros H1 H2.
  destruct (SF_zero_mul_sub (Prim2SF a1) (Prim2SF q1)
              (SF64sub (SF64mul (S754_zero false) (Prim2SF a2)) (Prim2SF q2)))
    as [E|[E _]]; [rewrite E in H1; discriminate|].
  rewrite E.
  destruct (SF_zero_mul_sub (Prim2SF a2) (Prim2SF q2) (SFopp (Prim2SF q1)))
    as [E'|[_ E']]; [rewrite E' in H2; discriminate|].
  rewrite E'. apply SFcompare_opp.
Qed.

End F64Neg.

(** At damage weight 0 two scores that are numbers compare as the sites'
    normalised distances do, the other way round. *)
Lemma score_zero_weight (dmg1 d1 dmg2 d2 d_max : float) :
  gt (score_value 0 dmg1 d1 d_max) neg_infinity = true ->
  gt (score_value 0 dmg2 d2 d_max) neg_infinity = true ->
  (score_value 0 dmg1 d1 d_max <=? score_value 0 dmg2 d2 d_max)
  = (d2 / d_max <=? d1 / d_max) /\
  (score_value 0 dmg1 d1 d_max <? score_value 0 dmg2 d2 d_max)
  = (d2 / d_max <? d1 / d_max).
Proof.
  unfold score_value. change (1 - 0) with 1.
  rewrite !F64Facts.mul_1_l. intros H1 H2.
  rewrite !F64Facts.leb_fcmp, !F64Facts.ltb_fcmp.
  rewrite (F64Neg.zero_mul_sub_cmp H1 H2). split; reflexivity.
Qed.

(** With damage scores in [0, 100] and distances that are computed, finite
    and not negative, at damage weight 0 the first site selected (the second
    element of the order) is a nearest one as the code measures it: its
    distance from the hub divided by [d_max] is exceeded by no site's, and
    is strictly below that of every site of lower index.  The damage scores
    play no part. *)
Theorem greedy_first_pick_at_zero_weight {M : MathLib} (hub : coord)
    (sites : list site) :
  sites <> [] ->
  Forall (fun s => damage_in_range (site_damage s)) sites ->
  legs_defined (coords_of hub sites) ->
  legs_finite (coords_of hub sites) ->
  exists order cost j dists d_max d_j,
    _route_order_greedy (coords_of hub sites) (damage_scores_of sites) 0
    = Ok (order, cost) /\
    nth_error order 1 = Some j /\
    dists_from (coords_of hub sites) 0 (seq 1 (length sites)) = Ok dists /\
    d_max_of dists = Ok d_max /\
    In (j, d_j) dists /\
    forall k d_k,
      In (k, d_k) dists ->
      (d_j / d_max <=? d_k / d_max) = true /\
      ((k < j)%nat -> (d_j / d_max <? d_k / d_max) = true).
Proof.
  intros Hne Hdmg Hlegs Hfin.
  assert (Hscore : scores_above_sentinel (coords_of hub sites)
                     (damage_scores_of sites) 0)
    by (apply scores_in_range; [split; reflexivity | assumption..]).
  clear Hdmg Hfin.
  set (coords := coords_of hub sites) in *.
  set (ds := damage_scores_of sites) in *.
  assert (Hn : length coords = S (length sites))
    by (unfold coords, coords_of; simpl; rewrite length_map; reflexivity).
  assert (Hd : length ds = S (length sites))
    by (unfold ds, damage_scores_of; simpl; rewrite length_map; reflexivity).
  assert (Hn2 : (2 <= length coords)%nat)
    by (rewrite Hn; destruct sites; [congruence | simpl; lia]).
  assert (Hlen : (length coords <= length ds)%nat) by lia.
  replace (length sites) with (length coords - 1)%nat by lia.
  set (u := seq 1 (length coords - 1)).
  assert (Hu : forall k, In k u -> (1 <= k < length coords)%nat)
    by (intros k Hk; apply in_seq in Hk; lia).
  destruct (@greedy_complete M coords ds 0 Hlen Hlegs Hscore Hn2)
    as (order & cost & Hr & _).
  destruct (@greedy_step_total M coords ds 0 Hlen Hlegs Hscore u 0%nat)
    as (j & d_km & Hs); auto; try lia.
  { unfold u. destruct (length coords - 1)%nat eqn:E; [lia | discriminate]. }
  assert (Hpick : nth_error order 1 = Some j)
    by (eapply greedy_first_pick; eassumption).
  pose proof Hs as Hsel. apply greedy_step_selected in Hsel.
  destruct Hsel as (dists & d_max & r & Hdists & Hmax & Hbest & Hj).
  pose proof Hdists as Hkeys. apply dists_keys in Hkeys.
  assert (Hsorted : StronglySorted lt (map fst dists))
    by (rewrite Hkeys; apply seq_sorted).
  destruct (@pick_best_selected ds 0 d_max dists r j Hsorted Hbest Hj)
    as (d & s & Hin & Hsj & _ & Hgt & Hall).
  pose proof (@round_scores M coords ds 0 Hlen Hscore u 0%nat dists d_max
                Hu Hdists Hmax) as Hround.
  destruct (Hround j d Hin) as (dmg_j & Hdj & Hvj & Hgj).
  assert (s = score_value 0 dmg_j d d_max) by congruence. subst s.
  exists order, cost, j, dists, d_max, d.
  split; [exact Hr|]. split; [exact Hpick|]. split; [exact Hdists|].
  split; [exact Hmax|]. split; [exact Hin|].
  intros k dk Hink.
  destruct (Hround k dk Hink) as (dmg_k & Hdk & Hvk & Hgk).
  destruct (Hall k dk _ Hink Hvk) as (Hle & Hlow).
  destruct (score_zero_weight Hgk Hgj) as (Eleb & Eltb).
  split.
  - rewrite <- Eleb. apply F64Facts.not_ltb_leb; assumption.
  - intros Hlt. rewrite <- Eltb. apply F64Facts.not_leb_ltb; auto.
Qed.

(** The scenario at damage weight 0: site 1, at one degree, comes first. *)
Lemma greedy_first_pick_at_zero_weight_demo :
  exists order cost j dists d_max d_j,
    @_route_order_greedy flat_math (coords_of demo_hub demo_sites)
      (damage_scores_of demo_sites) 0 = Ok (order, cost) /\
    nth_error order 1 = Some j /\
    @dists_from flat_math (coords_of demo_hub demo_sites) 0
      (seq 1 (length demo_sites)) = Ok dists /\
    d_max_of dists = Ok d_max /\
    In (j, d_j) dists /\
    forall k d_k,
      In (k, d_k) dists ->
      (d_j / d_max <=? d_k / d_max) = true /\
      ((k < j)%nat -> (d_j / d_max <? d_k / d_max) = true).
Proof.
  apply (@greedy_first_pick_at_zero_weight flat_math demo_hub demo_sites).
  - discriminate.
  - exact demo_damage_in_range.
  - exact demo_legs_defined.
  - exact demo_legs_finite.
Defined.

(** * Rounding to binary64: upper bounds *)

Module F64Order.

Import F64 F64Facts F64Magnitude F64Sign F64Round F64Div.
Local Open Scope Z_scope.
Local Unset Implicit Arguments.

Lemma pow2_pos (k : Z) : 0 <= k -> 0 < 2 ^ k.
Proof. intros H. apply Z.pow_pos_nonneg; lia. Qed.

Lemma Zdigits2_shift (k n : Z) :
  0 < k -> 0 <= n -> Zdigits2 (k * 2 ^ n) = Zdigits2 k + n.
Proof.
  intros Hk Hn. pose proof (pow2_pos n Hn) as Hp.
  destruct (Zdigits2_bounds k Hk) as [L U].
  pose proof (Zdigits2_nonneg k) as Hd.
  assert (Hd1 : 1 <= Zdigits2 k).
  { destruct k; try lia. cbn [Zdigits2]. lia. }
  apply Z.le_antisymm.
  - apply Zdigits2_le; [nia | lia |].
    rewrite Z.pow_add_r by lia. nia.
  - assert (H : Zdigits2 k - 1 + n + 1 <= Zdigits2 (k * 2 ^ n)).
    { apply Zdigits2_ge; [lia|]. rewrite Z.pow_add_r by lia. nia. }
    lia.
Qed.

(** One shift to the right halves the mantissa, keeps the bit shifted out
    as the round bit and gathers the earlier ones in the sticky bit. *)
Lemma shr_1_spec (r : shr_record) :
  0 <= shr_m r ->
  shr_m (shr_1 r) = shr_m r / 2 /\
  shr_r (shr_1 r) = Z.odd (shr_m r) /\
  shr_s (shr_1 r) = (shr_r r || shr_s r)%bool.
Proof.
  destruct r as [m rb sb]. cbn [shr_m shr_r shr_s]. intros Hm.
  destruct m as [|[p|p|]|p]; try lia; cbn [shr_1 shr_m shr_r shr_s].
  - repeat split; reflexivity.
  - split; [|split; reflexivity].
    apply Z.div_unique with (r := 1); lia.
  - split; [|split; reflexivity].
    apply Z.div_unique with (r := 0); lia.
  - repeat split; reflexivity.
Qed.

(** [n] shifts divide the mantissa by [2 ^ n]; from an exact record and a
    mantissa divisible by [2 ^ n] they give an exact record. *)
Lemma shr_iter_spec (n : positive) (r : shr_record) :
  0 <= shr_m r ->
  shr_m (Pos.iter shr_1 r n) = shr_m r / 2 ^ Zpos n /\
  (shr_r r = false -> shr_s r = false -> shr_m r mod 2 ^ Zpos n = 0 ->
   shr_r (Pos.iter shr_1 r n) = false /\ shr_s (Pos.iter shr_1 r n) = false).
Proof.
  intros Hm. induction n as [|n IH] using Pos.peano_ind.
  - cbn [Pos.iter]. destruct (shr_1_spec r Hm) as (E1 & E2 & E3).
    change (2 ^ 1) with 2. split; [exact E1|].
    intros Hr Hs Hmod. rewrite E2, E3, Hr, Hs. split; [|reflexivity].
    rewrite <- Z.negb_even. rewrite Zeven_mod, Hmod. reflexivity.
  - rewrite Pos.iter_succ.
    destruct IH as [IHm IHx].
    assert (H0 : 0 <= shr_m (Pos.iter shr_1 r n)).
    { rewrite IHm. apply Z.div_pos; [exact Hm | apply pow2_pos; lia]. }
    destruct (shr_1_spec _ H0) as (E1 & E2 & E3).
    rewrite Pos2Z.inj_succ, Z.pow_succ_r by lia.
    pose proof (pow2_pos (Zpos n) ltac:(lia)) as Hp.
    split.
    + rewrite E1, IHm, Z.div_div by lia. f_equal. lia.
    + intros Hr Hs Hmod.
      assert (Hmodn : shr_m r mod 2 ^ Zpos n = 0).
      { apply Z.mod_divide in Hmod; [|lia]. apply Z.mod_divide; [lia|].
        destruct Hmod as [c Hc]. exists (c * 2). lia. }
      destruct (IHx Hr Hs Hmodn) as [Fr Fs].
      rewrite E2, E3, Fr, Fs, IHm. split; [|reflexivity].
      rewrite <- Z.negb_even, Zeven_mod.
      apply Z.mod_divide in Hmod; [|lia]. destruct Hmod as [c Hc].
      replace (shr_m r) with (c * 2 * 2 ^ Zpos n) by lia.
      rewrite Z.div_mul by lia. rewrite Z.mod_mul by lia. reflexivity.
Qed.

(** The shift to the exponent of the format, with the value it leaves. *)
Lemma shr_fexp_value (m e : Z) (l : location) :
  0 <= m -> e <= fexp prec emax (Zdigits2 m + e) ->
  let '(r, e') := shr_fexp prec emax m e l in
  e' = fexp prec emax (Zdigits2 m + e) /\
  shr_m r = m / 2 ^ (e' - e) /\
  (l = loc_Exact -> m mod 2 ^ (e' - e) = 0 ->
   loc_of_shr_record r = loc_Exact).
Proof.
  intros Hm He. unfold shr_fexp, shr.
  destruct (fexp prec emax (Zdigits2 m + e) - e) as [|n|n] eqn:En.
  - split; [lia|]. replace (e - e) with 0 by lia.
    rewrite Z.div_1_r. split; [destruct l as [|[]]; reflexivity|].
    intros -> _. reflexivity.
  - rewrite iter_pos_iter.
    assert (Hrec : shr_m (shr_record_of_loc m l) = m)
      by (destruct l as [|[]]; reflexivity).
    destruct (shr_iter_spec n (shr_record_of_loc m l)) as [E1 E2];
      [rewrite Hrec; exact Hm|].
    rewrite Hrec in E1, E2.
    replace (e + Zpos n - e) with (Zpos n) by lia.
    split; [lia|]. split; [exact E1|].
    intros -> Hmod. destruct (E2 eq_refl eq_refl Hmod) as [Fr Fs].
    unfold loc_of_shr_record.
    destruct (Pos.iter shr_1 (shr_record_of_loc m loc_Exact) n)
      as [m' r' s'].
    cbn [shr_r shr_s] in Fr, Fs. subst. reflexivity.
  - lia.
Qed.

Lemma SFleb_finite (p kb : positive) (e eb : Z) :
  e <= eb -> Zpos p <= Zpos kb * 2 ^ (eb - e) ->
  SFleb (S754_finite false p e) (S754_finite false kb eb) = true.
Proof.
  intros He Hp. unfold SFleb, SFcompare.
  destruct (Z.compare_spec e eb) as [->|_|Hgt]; [|reflexivity | lia].
  replace (eb - eb) with 0 in Hp by lia.
  change (Pos.compare_cont Eq p kb) with (Pos.compare p kb).
  destruct (Pos.compare_spec p kb); [reflexivity | reflexivity | lia].
Qed.

(** Rounding does not pass a float of the format: a value at or below the
    finite float [kb * 2 ^ eb] rounds to a float at or below it. *)
Lemma round_aux_le (m e : Z) (l : location) (kb : positive) (eb : Z) :
  0 <= m -> e <= fexp prec emax (Zdigits2 m + e) ->
  fexp prec emax (Zpos (digits2_pos kb) + eb) = eb -> eb <= emax - prec ->
  e <= eb ->
  (m < Zpos kb * 2 ^ (eb - e) \/
   (m = Zpos kb * 2 ^ (eb - e) /\ l = loc_Exact)) ->
  SFleb (binary_round_aux prec emax false m e l) (S754_finite false kb eb)
  = true.
Proof.
  intros Hm He Hcan Hmax Heb Hval.
  pose proof (pow2_pos (eb - e) ltac:(lia)) as Hpe.
  assert (Hle : m <= Zpos kb * 2 ^ (eb - e)) by lia.
  assert (HD : Zdigits2 m + e <= Zpos (digits2_pos kb) + eb).
  { pose proof (Zdigits2_mono m (Zpos kb * 2 ^ (eb - e)) ltac:(lia)) as H.
    rewrite Zdigits2_shift in H by lia. cbn [Zdigits2] in H. lia. }
  unfold binary_round_aux.
  pose proof (shr_fexp_spec m e l Hm He) as Hst.
  pose proof (shr_fexp_value m e l Hm He) as Hv1.
  destruct (shr_fexp prec emax m e l) as [r1 e1].
  destruct Hv1 as (E1 & Hm1 & Hx1). destruct Hst as (_ & _ & H1d).
  pose proof (round_nearest_even_range (shr_m r1) (loc_of_shr_record r1))
    as Hr.
  set (m2 := round_nearest_even (shr_m r1) (loc_of_shr_record r1)) in *.
  assert (He1 : e1 <= eb).
  { rewrite E1, <- Hcan. apply fexp_mono. exact HD. }
  assert (Hn : 0 <= e1 - e) by lia.
  pose proof (pow2_pos (e1 - e) Hn) as Hpn.
  pose proof (pow2_pos (eb - e1) ltac:(lia)) as Hp1.
  assert (Hsplit : 2 ^ (eb - e) = 2 ^ (eb - e1) * 2 ^ (e1 - e)).
  { rewrite <- Z.pow_add_r by lia. f_equal. lia. }
  assert (H1m : 0 <= shr_m r1).
  { rewrite Hm1. apply Z.div_pos; lia. }
  assert (Hm2 : m2 <= Zpos kb * 2 ^ (eb - e1)).
  { destruct Hval as [Hlt|[Heq ->]].
    - assert (shr_m r1 < Zpos kb * 2 ^ (eb - e1)).
      { rewrite Hm1. apply Z.div_lt_upper_bound; [lia|]. rewrite Hsplit in Hlt.
        lia. }
      lia.
    - assert (Hmod : m mod 2 ^ (e1 - e) = 0).
      { rewrite Heq, Hsplit, Z.mul_assoc. apply Z.mod_mul. lia. }
      unfold m2. rewrite (Hx1 eq_refl Hmod). cbn [round_nearest_even].
      rewrite Hm1, Heq, Hsplit, Z.mul_assoc, Z.div_mul by lia. lia. }
  assert (H2m : 0 <= m2) by lia.
  assert (He2 : e1 <= fexp prec emax (Zdigits2 m2 + e1)).
  { pose proof (Zdigits2_mono (shr_m r1) m2 ltac:(lia)) as Hmono.
    pose proof (Zdigits2_nonneg m2).
    rewrite fexp_eq in E1 |- *. lia. }
  pose proof (shr_fexp_value m2 e1 loc_Exact H2m He2) as Hv3.
  destruct (shr_fexp prec emax m2 e1 loc_Exact) as [r3 e3].
  destruct Hv3 as (E3 & Hm3 & _).
  assert (HD2 : Zdigits2 m2 + e1 <= Zpos (digits2_pos kb) + eb).
  { pose proof (Zdigits2_mono m2 (Zpos kb * 2 ^ (eb - e1)) ltac:(lia)) as H.
    rewrite Zdigits2_shift in H by lia. cbn [Zdigits2] in H. lia. }
  assert (He3 : e3 <= eb).
  { rewrite E3, <- Hcan. apply fexp_mono. exact HD2. }
  pose proof (pow2_pos (e3 - e1) ltac:(lia)) as Hp3.
  pose proof (pow2_pos (eb - e3) ltac:(lia)) as Hp4.
  assert (Hsplit3 : 2 ^ (eb - e1) = 2 ^ (eb - e3) * 2 ^ (e3 - e1)).
  { rewrite <- Z.pow_add_r by lia. f_equal. lia. }
  assert (H3le : shr_m r3 <= Zpos kb * 2 ^ (eb - e3)).
  { rewrite Hm3.
    apply Z.le_trans with (Zpos kb * 2 ^ (eb - e1) / 2 ^ (e3 - e1)).
    - apply Z.div_le_mono; lia.
    - rewrite Hsplit3, Z.mul_assoc, Z.div_mul by lia. lia. }
  assert (H3m : 0 <= shr_m r3).
  { rewrite Hm3. apply Z.div_pos; lia. }
  destruct (shr_m r3) as [|p|p]; [reflexivity | | lia].
  destruct (Z.leb_spec e3 (emax - prec)) as [_|Hover]; [|lia].
  apply SFleb_finite; assumption.
Qed.

(** *** From comparisons to values *)

Lemma valid_canonical (s : bool) (m : positive) (e : Z) :
  valid_binary (S754_finite s m e) = true ->
  fexp prec emax (Zpos (digits2_pos m) + e) = e /\ e <= emax - prec.
Proof.
  cbn [SpecFloat.valid_binary]. unfold bounded, canonical_mantissa.
  intros H. apply andb_prop in H. destruct H as [H1 H2].
  apply Z.eqb_eq in H1. apply Z.leb_le in H2. split; assumption.
Qed.

(** A positive float of the format at or below another has an exponent and
    a mantissa at or below the other's. *)
Lemma SFleb_value (mx kb : positive) (ex eb : Z) :
  fexp prec emax (Zpos (digits2_pos mx) + ex) = ex ->
  fexp prec emax (Zpos (digits2_pos kb) + eb) = eb ->
  SFleb (S754_finite false mx ex) (S754_finite false kb eb) = true ->
  ex <= eb /\ Zpos mx <= Zpos kb * 2 ^ (eb - ex).
Proof.
  intros Hx Hb. unfold SFleb, SFcompare.
  destruct (Z.compare_spec ex eb) as [->|Hlt|Hgt]; [| |discriminate].
  - change (Pos.compare_cont Eq mx kb) with (Pos.compare mx kb).
    replace (eb - eb) with 0 by lia.
    destruct (Pos.compare_spec mx kb); try discriminate; intros _; lia.
  - intros _. split; [lia|].
    assert (HD : Zpos (digits2_pos mx) + ex < Zpos (digits2_pos kb) + eb).
    { destruct (Z.lt_ge_cases (Zpos (digits2_pos mx) + ex)
                  (Zpos (digits2_pos kb) + eb)) as [H|H]; [exact H|].
      apply fexp_mono in H. lia. }
    destruct (Zdigits2_bounds (Zpos mx) eq_refl) as [_ U].
    destruct (Zdigits2_bounds (Zpos kb) eq_refl) as [L _].
    cbn [Zdigits2] in U, L.
    assert (Hpow : 2 ^ Zpos (digits2_pos mx)
                   <= 2 ^ (Zpos (digits2_pos kb) - 1) * 2 ^ (eb - ex)).
    { rewrite <- Z.pow_add_r by lia. apply Z.pow_le_mono_r; lia. }
    pose proof (pow2_pos (eb - ex) ltac:(lia)). nia.
Qed.

Lemma Zdigits2_mul_ge (a b : Z) :
  0 < a -> 0 < b -> Zdigits2 a + Zdigits2 b - 1 <= Zdigits2 (a * b).
Proof.
  intros Ha Hb.
  destruct (Zdigits2_bounds a Ha) as [La _].
  destruct (Zdigits2_bounds b Hb) as [Lb _].
  assert (1 <= Zdigits2 a) by (destruct a; try lia; cbn [Zdigits2]; lia).
  assert (1 <= Zdigits2 b) by (destruct b; try lia; cbn [Zdigits2]; lia).
  pose proof (pow2_pos (Zdigits2 a - 1) ltac:(lia)).
  pose proof (pow2_pos (Zdigits2 b - 1) ltac:(lia)).
  assert (Hge : Zdigits2 a - 1 + (Zdigits2 b - 1) + 1 <= Zdigits2 (a * b)).
  { apply Zdigits2_ge; [lia|]. rewrite Z.pow_add_r by lia. nia. }
  lia.
Qed.

(** *** Products *)

(** The product of two floats between zero and [bx] and between zero and
    [b_y], with exponents that are not positive, is at or below a float [b]
    of the format that the product of the bounds does not exceed. *)
Lemma SFmul_le (x y : spec_float) (kx ky kb : positive) (ebx eby eb : Z) :
  valid_binary x = true -> valid_binary y = true ->
  SFleb (S754_zero false) x = true -> SFleb (S754_zero false) y = true ->
  SFleb x (S754_finite false kx ebx) = true ->
  SFleb y (S754_finite false ky eby) = true ->
  fexp prec emax (Zpos (digits2_pos kx) + ebx) = ebx ->
  fexp prec emax (Zpos (digits2_pos ky) + eby) = eby ->
  fexp prec emax (Zpos (digits2_pos kb) + eb) = eb -> eb <= emax - prec ->
  ebx <= 0 -> eby <= 0 -> ebx + eby <= eb ->
  Zpos kx * Zpos ky <= Zpos kb * 2 ^ (eb - ebx - eby) ->
  SFleb (SF64mul x y) (S754_finite false kb eb) = true.
Proof.
  intros Vx Vy Px Py Lx Ly Cx Cy Cb Hmax Hx0 Hy0 Hsum Hk.
  apply SFleb_zero in Px, Py.
  destruct x as [sx|sx| |sx mx ex], y as [sy|sy| |sy my ey];
    try contradiction; subst;
    try (cbn [SF64mul SFmul]; match goal with
         | |- SFleb (S754_zero ?s) _ = true => destruct s; reflexivity
         end);
    try discriminate.
  destruct (valid_canonical _ _ _ Vx) as [Kx _].
  destruct (valid_canonical _ _ _ Vy) as [Ky _].
  destruct (SFleb_value _ _ _ _ Kx Cx Lx) as [Ex Mx].
  destruct (SFleb_value _ _ _ _ Ky Cy Ly) as [Ey My].
  cbn [SF64mul SFmul xorb].
  pose proof (pow2_pos (ebx - ex) ltac:(lia)) as P1.
  pose proof (pow2_pos (eby - ey) ltac:(lia)) as P2.
  pose proof (pow2_pos (eb - ebx - eby) ltac:(lia)) as P3.
  assert (Hsplit : 2 ^ (eb - (ex + ey))
                   = 2 ^ (eb - ebx - eby) * (2 ^ (ebx - ex) * 2 ^ (eby - ey))).
  { rewrite <- !Z.pow_add_r by lia. f_equal. lia. }
  assert (Hprod : Zpos (mx * my) <= Zpos kb * 2 ^ (eb - (ex + ey))).
  { rewrite Hsplit, Pos2Z.inj_mul.
    set (A := 2 ^ (ebx - ex)) in *. set (B := 2 ^ (eby - ey)) in *.
    set (C := 2 ^ (eb - ebx - eby)) in *.
    assert (H1 : Zpos mx * Zpos my <= Zpos kx * A * (Zpos ky * B))
      by (apply Z.mul_le_mono_nonneg; lia).
    assert (H2 : Zpos kx * Zpos ky * (A * B) <= Zpos kb * C * (A * B))
      by (apply Z.mul_le_mono_nonneg_r; [nia | exact Hk]).
    replace (Zpos kx * A * (Zpos ky * B))
      with (Zpos kx * Zpos ky * (A * B)) in H1 by ring.
    replace (Zpos kb * (C * (A * B))) with (Zpos kb * C * (A * B)) by ring.
    lia. }
  apply round_aux_le.
  - lia.
  - pose proof (Zdigits2_mul_ge (Zpos mx) (Zpos my) eq_refl eq_refl) as Hd.
    rewrite Pos2Z.inj_mul. cbn [Zdigits2] in Hd.
    rewrite fexp_eq in Kx, Ky |- *. lia.
  - exact Cb.
  - exact Hmax.
  - lia.
  - destruct (Z.lt_ge_cases (Zpos (mx * my))
                (Zpos kb * 2 ^ (eb - (ex + ey)))) as [Hlt|Hge];
      [left; exact Hlt | right; split; [lia | reflexivity]].
Qed.

(** *** Quotients *)

Lemma div_core_exp (mx my : positive) (ex ey : Z) :
  let '(q, e', l) :=
    SFdiv_core_binary prec emax (Zpos mx) ex (Zpos my) ey in
  e' <= fexp prec emax
          (Zpos (digits2_pos mx) + ex - (Zpos (digits2_pos my) + ey)).
Proof.
  unfold SFdiv_core_binary. cbn [Zdigits2].
  destruct (Z.div_eucl _ (Zpos my)) as [q r]. lia.
Qed.

Lemma new_location_zero (nb : Z) : new_location nb 0 = loc_Exact.
Proof.
  unfold new_location, new_location_even, new_location_odd.
  destruct (Z.even nb); reflexivity.
Qed.

(** The quotient of two positive finite floats (mantissas of any size) is
    at or below a float [b] of the format when the dividend is at or below
    [b] times the divisor; [c] is an exponent below those compared. *)
Lemma SFdiv_le (mx my kb : positive) (ex ey eb c : Z) :
  fexp prec emax (Zpos (digits2_pos kb) + eb) = eb -> eb <= emax - prec ->
  c <= ex -> c <= eb + ey ->
  Zpos mx * 2 ^ (ex - c) <= Zpos kb * Zpos my * 2 ^ (eb + ey - c) ->
  SFleb (SF64div (S754_finite false mx ex) (S754_finite false my ey))
    (S754_finite false kb eb) = true.
Proof.
  intros Cb Hmax Hc1 Hc2 Hval. cbn [SF64div SFdiv xorb].
  pose proof (div_core_spec mx my ex ey) as Hs.
  pose proof (div_core_exp mx my ex ey) as He.
  destruct (SFdiv_core_binary prec emax (Zpos mx) ex (Zpos my) ey)
    as [[q e'] l].
  destruct Hs as (s & r & Hs0 & Ee' & Hdiv & Hr & Hl & Hq & Hfexp).
  pose proof (pow2_pos (ex - c) ltac:(lia)) as P1.
  pose proof (pow2_pos (eb + ey - c) ltac:(lia)) as P2.
  pose proof (pow2_pos s Hs0) as P3.
  (* magnitudes *)
  destruct (Zdigits2_bounds (Zpos mx) eq_refl) as [Lx _].
  destruct (Zdigits2_bounds (Zpos my) eq_refl) as [_ Uy].
  destruct (Zdigits2_bounds (Zpos kb) eq_refl) as [_ Ub].
  cbn [Zdigits2] in Lx, Uy, Ub.
  set (dx := Zpos (digits2_pos mx)) in *.
  set (dy := Zpos (digits2_pos my)) in *.
  set (db := Zpos (digits2_pos kb)) in *.
  assert (Hdx : 1 <= dx) by (unfold dx; lia).
  assert (Hdy : 1 <= dy) by (unfold dy; lia).
  assert (Hdb : 1 <= db) by (unfold db; lia).
  assert (HD : dx + ex - (dy + ey) <= db + eb).
  { assert (H1 : 2 ^ (dx - 1 + (ex - c)) < 2 ^ (db + dy + (eb + ey - c))).
    { rewrite !Z.pow_add_r by lia.
      apply Z.le_lt_trans with (Zpos mx * 2 ^ (ex - c));
        [apply Z.mul_le_mono_nonneg_r; lia|].
      apply Z.le_lt_trans with (Zpos kb * Zpos my * 2 ^ (eb + ey - c));
        [exact Hval|].
      apply Z.mul_lt_mono_pos_r; [lia|].
      apply Z.mul_lt_mono_nonneg; lia. }
    apply Z.pow_lt_mono_r_iff in H1; lia. }
  assert (He' : e' <= eb).
  { apply Z.le_trans with (1 := He). rewrite <- Cb. apply fexp_mono.
    exact HD. }
  pose proof (pow2_pos (eb - e') ltac:(lia)) as P4.
  assert (Hpow : 2 ^ (eb - e') * 2 ^ (ex - c) = 2 ^ (eb + ey - c) * 2 ^ s).
  { rewrite <- !Z.pow_add_r by lia. f_equal. lia. }
  assert (Hq' : Zpos my * q + r <= Zpos my * (Zpos kb * 2 ^ (eb - e'))).
  { rewrite <- Hdiv.
    apply Z.mul_le_mono_pos_r with (p := 2 ^ (ex - c)); [exact P1|].
    replace (Zpos my * (Zpos kb * 2 ^ (eb - e')) * 2 ^ (ex - c))
      with (Zpos kb * Zpos my * (2 ^ (eb - e') * 2 ^ (ex - c))) by ring.
    rewrite Hpow.
    replace (Zpos mx * 2 ^ s * 2 ^ (ex - c))
      with (Zpos mx * 2 ^ (ex - c) * 2 ^ s) by ring.
    replace (Zpos kb * Zpos my * (2 ^ (eb + ey - c) * 2 ^ s))
      with (Zpos kb * Zpos my * 2 ^ (eb + ey - c) * 2 ^ s) by ring.
    apply Z.mul_le_mono_nonneg_r; lia. }
  apply round_aux_le; try assumption.
  destruct (Z.lt_ge_cases q (Zpos kb * 2 ^ (eb - e'))) as [Hlt|Hge];
    [left; exact Hlt|].
  right.
  assert (Hqe : q = Zpos kb * 2 ^ (eb - e')) by nia.
  split; [exact Hqe|].
  assert (r = 0) by nia. subst r. rewrite Hl. apply new_location_zero.
Qed.

End F64Order.

(** * The discount of the solver's costs *)

Module F64Discount.

Import F64 F64Facts F64Magnitude F64Sign F64Round F64Div F64Order.
Local Open Scope Z_scope.
Local Unset Implicit Arguments.

Lemma shl_align_value (m : positive) (e e' : Z) :
  e' <= e ->
  Zpos (fst (shl_align m e e')) = Zpos m * 2 ^ (e - e') /\
  snd (shl_align m e e') = e'.
Proof.
  intros He. unfold shl_align.
  destruct (e' - e) as [|d|d] eqn:Ed; cbn [fst snd]; try lia.
  - replace (e - e') with 0 by lia. split; lia.
  - change (Pos.iter xO m d) with (shift_pos d m).
    rewrite shift_pos_correct, Z.pow_pos_fold.
    replace (e - e') with (Zpos d) by lia. split; lia.
Qed.

(** [x - y] is not negative when [y] is between zero and [x], both finite
    and positive or zero. *)
Lemma SFsub_nonneg (mx : positive) (ex : Z) (y : spec_float) :
  valid_binary y = true ->
  fexp prec emax (Zpos (digits2_pos mx) + ex) = ex ->
  SFleb (S754_zero false) y = true ->
  SFleb y (S754_finite false mx ex) = true ->
  SFleb (S754_zero false) (SF64sub (S754_finite false mx ex) y) = true.
Proof.
  intros Vy Cx Py Ly. apply SFleb_zero in Py.
  destruct y as [sy|sy| |sy my ey]; try contradiction.
  - reflexivity.
  - subst sy. discriminate.
  - subst sy. cbn [SF64sub SFsub].
    destruct (valid_canonical _ _ _ Vy) as [Ky _].
    destruct (SFleb_value _ _ _ _ Ky Cx Ly) as [Ey My].
    replace (Z.min ex ey) with ey by lia.
    destruct (shl_align_value mx ex ey Ey) as [E1 _].
    destruct (shl_align_value my ey ey ltac:(lia)) as [E2 _].
    cbn [cond_Zopp]. rewrite E1, E2.
    replace (ey - ey) with 0 by lia. rewrite Z.pow_0_r, Z.mul_1_r.
    apply sign_nonneg.
    destruct (Zpos mx * 2 ^ (ex - ey) - Zpos my) as [|p|p] eqn:Ez;
      cbn [binary_normalize]; [reflexivity | apply binary_round_sign | lia].
Qed.

(** For a weight in [0, 1] and a damage score in [0, 100], the product is in
    [0, 100], its hundredth in [0, 1], and the discount factor
    [1 - w * dmg / 100] is not negative. *)
Lemma discount_nonneg (w dmg : float) :
  ((0 <=? w) = true -> (w <=? 1) = true ->
   (0 <=? dmg) = true -> (dmg <=? 100) = true ->
   (0 <=? 1 - w * dmg / 100) = true)%float.
Proof.
  rewrite !leb_spec, sub_spec, div_spec, mul_spec.
  change (Prim2SF 0) with (S754_zero false).
  change (Prim2SF 1) with (S754_finite false 4503599627370496 (-52)).
  change (Prim2SF 100) with (S754_finite false 7036874417766400 (-46)).
  pose proof (Prim2SF_valid w) as Vw. pose proof (Prim2SF_valid dmg) as Vd.
  pose proof (Prim2SF_valid (w * dmg)) as Vp.
  pose proof (Prim2SF_valid (w * dmg / 100)) as Vq.
  rewrite div_spec in Vq. rewrite mul_spec in Vp, Vq.
  change (Prim2SF 100) with (S754_finite false 7036874417766400 (-46)) in Vq.
  set (W := Prim2SF w) in *. set (D := Prim2SF dmg) in *.
  intros Hw0 Hw1 Hd0 Hd1.
  assert (Hp100 : SFleb (SF64mul W D)
                    (S754_finite false 7036874417766400 (-46)) = true).
  { apply (SFmul_le W D 4503599627370496 7036874417766400 7036874417766400
             (-52) (-46) (-46)); try assumption; try reflexivity;
      vm_compute; discriminate. }
  assert (Hp0 : SFleb (S754_zero false) (SF64mul W D) = true).
  { destruct (SFmul_nonneg W D Hw0 Hd0) as [H|H]; [exact H|].
    rewrite H in Hp100. discriminate. }
  set (P := SF64mul W D) in *.
  assert (Hq1 : SFleb (SF64div P (S754_finite false 7036874417766400 (-46)))
                  (S754_finite false 4503599627370496 (-52)) = true).
  { apply SFleb_zero in Hp0.
    destruct P as [sp|sp| |sp mp ep]; try contradiction.
    - destruct sp; reflexivity.
    - subst sp. discriminate.
    - subst sp. destruct (valid_canonical _ _ _ Vp) as [Kp _].
      destruct (SFleb_value mp 7036874417766400 ep (-46) Kp eq_refl Hp100)
        as [Ep Mp].
      assert (Hep : -1074 <= ep) by (rewrite fexp_eq in Kp; lia).
      apply (SFdiv_le mp 7036874417766400 4503599627370496 ep (-46) (-52)
               (-1200)).
      + reflexivity.
      + vm_compute. discriminate.
      + lia.
      + lia.
      + pose proof (pow2_pos (ep - -1200) ltac:(lia)) as P1.
        assert (Hpow : 2 ^ (-46 - ep) * 2 ^ (ep - -1200)
                       = 4503599627370496 * 2 ^ (-52 + -46 - -1200)).
        { change 4503599627370496 with (2 ^ 52).
          rewrite <- !Z.pow_add_r by lia. f_equal. lia. }
        apply Z.le_trans
          with (7036874417766400 * 2 ^ (-46 - ep) * 2 ^ (ep - -1200)).
        * apply Z.mul_le_mono_nonneg_r; lia.
        * rewrite <- Z.mul_assoc, Hpow. lia. }
  assert (Hq0 : SFleb (S754_zero false)
                  (SF64div P (S754_finite false 7036874417766400 (-46)))
                = true).
  { eapply SFdiv_nonneg; [exact Hp0 | reflexivity]. }
  apply SFsub_nonneg; [exact Vq | reflexivity | exact Hq0 | exact Hq1].
Qed.

End F64Discount.

Section CostsNotNegative.

Context {M : MathLib}.

Lemma round_nonneg (x : float) (z : Z) :
  (0 <=? x) = true -> round x = Ok z -> (0 <= z)%Z.
Proof.
  rewrite leb_spec. change (Prim2SF 0) with (S754_zero false).
  unfold round. intros H0.
  destruct (Prim2SF x) as [s|s| |s m e]; try discriminate.
  - intros H. injection H as <-. lia.
  - destruct s; [discriminate|]. intros H. injection H as <-.
    apply round_half_even_nonneg.
Qed.

Lemma mul_nonneg_or_nan (x y : float) :
  (0 <=? x) = true -> (0 <=? y) = true ->
  (0 <=? x * y) = true \/ x * y = nan.
Proof.
  rewrite !leb_spec. change (Prim2SF 0) with (S754_zero false).
  intros Hx Hy. rewrite mul_spec.
  destruct (F64Sign.SFmul_nonneg _ _ Hx Hy) as [H|H]; [left; exact H|].
  right. apply Prim2SF_inj. rewrite mul_spec, H. reflexivity.
Qed.

(** The rounded cost of a leg that is not negative, for a weight and a
    damage score within their ranges. *)
Lemma discounted_cost_nonneg (d_km damage_weight damage : float) (z : Z) :
  (0 <=? d_km) = true ->
  weight_in_range damage_weight -> damage_in_range damage ->
  round (d_km * (1 - damage_weight * damage / 100) * 1000) = Ok z ->
  (0 <= z)%Z.
Proof.
  intros Hd [Hw0 Hw1] [Hg0 Hg1] Hr.
  pose proof (F64Discount.discount_nonneg damage_weight damage
                Hw0 Hw1 Hg0 Hg1) as Hf.
  destruct (mul_nonneg_or_nan Hd Hf) as [Hc|Hc].
  - destruct (@mul_nonneg_or_nan _ 1000 Hc eq_refl) as [Hk|Hk].
    + exact (round_nonneg Hk Hr).
    + rewrite Hk in Hr. discriminate.
  - rewrite Hc in Hr. discriminate.
Qed.

Lemma cost_entry_nonneg (coords : list coord) (damage_scores : list float)
    (damage_weight : float) (i j : nat) (z : Z) :
  weight_in_range damage_weight ->
  Forall damage_in_range damage_scores ->
  (forall a b d, leg_km coords a b = Ok d -> (0 <=? d) = true) ->
  cost_entry coords damage_scores damage_weight i j = Ok z ->
  (0 <= z)%Z.
Proof.
  intros Hw Hds Hlegs. unfold cost_entry.
  destruct (i =? j)%nat; [intros H; injection H as <-; lia|].
  intros H. apply bind_ok in H. destruct H as (d & Hd & H).
  apply bind_ok in H. destruct H as (damage & Hdmg & H).
  destruct (j =? 0)%nat.
  - vm_compute in H. injection H as <-. lia.
  - eapply discounted_cost_nonneg; [exact (Hlegs _ _ _ Hd) | exact Hw | | exact H].
    destruct (j <? length damage_scores)%nat.
    + apply getitem_ok, nth_error_In in Hdmg.
      rewrite Forall_forall in Hds. exact (Hds _ Hdmg).
    + injection Hdmg as <-. split; reflexivity.
Qed.

(** With a damage weight in [0, 1] (as [route_order] passes it), damage
    scores in [0, 100] and distances that are not negative, no arc cost is
    negative: the discount factor [1 - damage_weight * damage / 100] never
    goes below zero, so every entry of the cost matrix handed to the solver
    is at least 0. *)
Theorem cost_matrix_not_negative (coords : list coord)
    (damage_scores : list float) (damage_weight : float)
    (cost_matrix : list (list Z)) :
  weight_in_range damage_weight ->
  Forall damage_in_range damage_scores ->
  (forall a b d, leg_km coords a b = Ok d -> (0 <=? d) = true) ->
  cost_matrix_of coords damage_scores damage_weight = Ok cost_matrix ->
  Forall (Forall (fun c => 0 <= c)%Z) cost_matrix.
Proof.
  intros Hw Hds Hlegs H. unfold cost_matrix_of in H.
  eapply mapM_Forall; [|exact H]. intros i row Hrow.
  eapply mapM_Forall; [|exact Hrow]. intros j z Hz.
  eapply cost_entry_nonneg; eassumption.
Qed.

End CostsNotNegative.

(** The scenario's matrix at weight 0.5. *)
Lemma cost_matrix_not_negative_demo :
  exists cost_matrix,
    @cost_matrix_of flat_math (coords_of demo_hub demo_sites)
      (damage_scores_of demo_sites) 0.5 = Ok cost_matrix /\
    Forall (Forall (fun c => 0 <= c)%Z) cost_matrix.
Proof.
  eexists.
  assert (H : @cost_matrix_of flat_math (coords_of demo_hub demo_sites)
                (damage_scores_of demo_sites) 0.5 = Ok _)
    by (vm_compute; reflexivity).
  split; [exact H|].
  apply (@cost_matrix_not_negative flat_math (coords_of demo_hub demo_sites)
           (damage_scores_of demo_sites) 0.5).
  - split; reflexivity.
  - repeat constructor.
  - exact demo_legs_nonneg.
  - exact H.
Defined.

(** * Integers computed exactly in binary64 *)

Module F64Int.

Import F64 F64Facts F64Magnitude F64Sign F64Round F64Div F64Order F64Discount.
Local Open Scope Z_scope.
Local Unset Implicit Arguments.

Lemma digits_53 (V : Z) : 0 < V < 2 ^ 53 -> 1 <= Zdigits2 V <= 53.
Proof.
  intros HV. split.
  - destruct V; try lia. cbn [Zdigits2]. lia.
  - apply Zdigits2_le; lia.
Qed.

(** An exact value [V * 2 ^ (- E) * 2 ^ E] that is an integer below
    [2 ^ 53] rounds to itself. *)
Lemma round_aux_int (s : bool) (V E : Z) :
  0 < V < 2 ^ 53 -> E <= Zdigits2 V - 53 ->
  binary_round_aux prec emax s (V * 2 ^ (- E)) E loc_Exact
  = S754_finite s (Z.to_pos (V * 2 ^ (53 - Zdigits2 V))) (Zdigits2 V - 53).
Proof.
  intros HV HE. destruct (digits_53 V HV) as [Hd1 Hd53].
  set (d := Zdigits2 V) in *.
  pose proof (pow2_pos (- E) ltac:(lia)) as PE.
  pose proof (pow2_pos (53 - d) ltac:(lia)) as PK.
  pose proof (pow2_pos (d - 53 - E) ltac:(lia)) as PN.
  assert (Hsplit : 2 ^ (- E) = 2 ^ (53 - d) * 2 ^ (d - 53 - E)).
  { rewrite <- Z.pow_add_r by lia. f_equal. lia. }
  assert (HdM : Zdigits2 (V * 2 ^ (- E)) = d - E).
  { rewrite Zdigits2_shift by lia. fold d. lia. }
  assert (HdK : Zdigits2 (V * 2 ^ (53 - d)) = 53).
  { rewrite Zdigits2_shift by lia. fold d. lia. }
  assert (Hf : fexp prec emax d = d - 53) by (rewrite fexp_eq; lia).
  unfold binary_round_aux.
  pose proof (shr_fexp_value (V * 2 ^ (- E)) E loc_Exact ltac:(nia)) as H1.
  rewrite HdM in H1. replace (d - E + E) with d in H1 by lia.
  rewrite Hf in H1. specialize (H1 HE).
  destruct (shr_fexp prec emax (V * 2 ^ (- E)) E loc_Exact) as [r1 e1].
  destruct H1 as (E1 & Hm1 & Hx1). subst e1.
  assert (Hm1' : shr_m r1 = V * 2 ^ (53 - d)).
  { rewrite Hm1, Hsplit, Z.mul_assoc, Z.div_mul by lia. reflexivity. }
  assert (Hloc : loc_of_shr_record r1 = loc_Exact).
  { apply Hx1; [reflexivity|]. rewrite Hsplit, Z.mul_assoc.
    apply Z.mod_mul. lia. }
  rewrite Hloc, Hm1'. cbn [round_nearest_even].
  pose proof (shr_fexp_value (V * 2 ^ (53 - d)) (d - 53) loc_Exact
                ltac:(nia)) as H3.
  rewrite HdK in H3. replace (53 + (d - 53)) with d in H3 by lia.
  rewrite Hf in H3. specialize (H3 ltac:(lia)).
  destruct (shr_fexp prec emax (V * 2 ^ (53 - d)) (d - 53) loc_Exact)
    as [r3 e3].
  destruct H3 as (E3 & Hm3 & _). subst e3.
  replace (d - 53 - (d - 53)) with 0 in Hm3 by lia.
  rewrite Z.pow_0_r, Z.div_1_r in Hm3. rewrite Hm3.
  destruct (V * 2 ^ (53 - d)) as [|p|p] eqn:EK; try nia.
  change (emax - prec) with 971.
  destruct (Z.leb_spec (d - 53) 971); [reflexivity | lia].
Qed.

Lemma int_rep_pos (V : Z) :
  0 < V ->
  int_rep V = S754_finite false (Z.to_pos (V * 2 ^ (53 - Zdigits2 V)))
                (Zdigits2 V - 53).
Proof. destruct V; try lia. reflexivity. Qed.

(** The mantissa of [int_rep V], as an integer. *)
Lemma int_rep_mantissa (V : Z) :
  0 < V < 2 ^ 53 ->
  Zpos (Z.to_pos (V * 2 ^ (53 - Zdigits2 V))) = V * 2 ^ (53 - Zdigits2 V).
Proof.
  intros HV. destruct (digits_53 V HV).
  pose proof (pow2_pos (53 - Zdigits2 V) ltac:(lia)).
  apply Z2Pos.id. nia.
Qed.

(** The conversion of an int below [2 ^ 53] is exact. *)
Lemma binary_normalize_int (V : Z) :
  0 <= V < 2 ^ 53 -> binary_normalize prec emax V 0 false = int_rep V.
Proof.
  intros HV. destruct V as [|p|p]; [reflexivity | | lia].
  cbn [binary_normalize]. rewrite int_rep_pos by lia.
  destruct (digits_53 (Zpos p) ltac:(lia)) as [Hd1 Hd53].
  unfold binary_round.
  change (Zpos (digits2_pos p)) with (Zdigits2 (Zpos p)) in *.
  set (d := Zdigits2 (Zpos p)) in *.
  assert (Hf : fexp prec emax (d + 0) = d - 53) by (rewrite fexp_eq; lia).
  rewrite Hf.
  destruct (shl_align_value p 0 (d - 53) ltac:(lia)) as [Ea Eb].
  destruct (shl_align p 0 (d - 53)) as [mz ez]. cbn [fst snd] in Ea, Eb.
  subst ez. rewrite Ea.
  replace (0 - (d - 53)) with (- (d - 53)) by lia.
  apply round_aux_int; [lia | fold d; lia].
Qed.

(** The product of two integers is exact when it is below [2 ^ 53]. *)
Lemma SFmul_int (a b : Z) :
  0 <= a -> 0 <= b -> a * b < 2 ^ 53 ->
  SF64mul (int_rep a) (int_rep b) = int_rep (a * b).
Proof.
  intros Ha Hb Hab.
  destruct (Z.eq_dec a 0) as [->|Ha0].
  { destruct b; reflexivity. }
  destruct (Z.eq_dec b 0) as [->|Hb0].
  { rewrite Z.mul_0_r. destruct a; reflexivity. }
  assert (Ha53 : 0 < a < 2 ^ 53) by nia.
  assert (Hb53 : 0 < b < 2 ^ 53) by nia.
  rewrite (int_rep_pos a), (int_rep_pos b), (int_rep_pos (a * b)) by nia.
  cbn [SF64mul SFmul xorb].
  destruct (digits_53 a Ha53) as [Ha1 Ha2].
  destruct (digits_53 b Hb53) as [Hb1 Hb2].
  rewrite Pos2Z.inj_mul, !int_rep_mantissa by assumption.
  set (da := Zdigits2 a) in *. set (db := Zdigits2 b) in *.
  pose proof (Zdigits2_mul_ge a b ltac:(lia) ltac:(lia)) as Hge.
  fold da db in Hge.
  replace (a * 2 ^ (53 - da) * (b * 2 ^ (53 - db)))
    with (a * b * 2 ^ (- (da - 53 + (db - 53)))).
  - apply round_aux_int; [nia | lia].
  - replace (- (da - 53 + (db - 53))) with (53 - da + (53 - db)) by lia.
    rewrite Z.pow_add_r by lia. ring.
Qed.

(** The sum of two integers is exact when it is below [2 ^ 53]. *)
Lemma SFadd_int (a b : Z) :
  0 <= a -> 0 <= b -> a + b < 2 ^ 53 ->
  SF64add (int_rep a) (int_rep b) = int_rep (a + b).
Proof.
  intros Ha Hb Hab.
  destruct (Z.eq_dec a 0) as [->|Ha0].
  { destruct b; reflexivity. }
  destruct (Z.eq_dec b 0) as [->|Hb0].
  { rewrite Z.add_0_r. destruct a; reflexivity. }
  assert (Ha53 : 0 < a < 2 ^ 53) by lia.
  assert (Hb53 : 0 < b < 2 ^ 53) by lia.
  rewrite (int_rep_pos a), (int_rep_pos b), (int_rep_pos (a + b)) by lia.
  cbn [SF64add SFadd].
  destruct (digits_53 a Ha53) as [Ha1 Ha2].
  destruct (digits_53 b Hb53) as [Hb1 Hb2].
  destruct (digits_53 (a + b) ltac:(lia)) as [Hs1 Hs2].
  pose proof (Zdigits2_mono a (a + b) ltac:(lia)) as Hma.
  pose proof (Zdigits2_mono b (a + b) ltac:(lia)) as Hmb.
  set (da := Zdigits2 a) in *. set (db := Zdigits2 b) in *.
  set (ds := Zdigits2 (a + b)) in *.
  set (ez := Z.min (da - 53) (db - 53)).
  destruct (shl_align_value (Z.to_pos (a * 2 ^ (53 - da))) (da - 53) ez
              ltac:(unfold ez; lia)) as [E1 _].
  destruct (shl_align_value (Z.to_pos (b * 2 ^ (53 - db))) (db - 53) ez
              ltac:(unfold ez; lia)) as [E2 _].
  cbn [cond_Zopp]. rewrite E1, E2, !int_rep_mantissa by assumption.
  fold da db.
  assert (Hez : ez <= 0) by (unfold ez; lia).
  pose proof (pow2_pos (- ez) ltac:(lia)) as Pz.
  assert (Ea : a * 2 ^ (53 - da) * 2 ^ (da - 53 - ez) = a * 2 ^ (- ez)).
  { rewrite <- Z.mul_assoc, <- Z.pow_add_r by (unfold ez; lia).
    do 2 f_equal. lia. }
  assert (Eb : b * 2 ^ (53 - db) * 2 ^ (db - 53 - ez) = b * 2 ^ (- ez)).
  { rewrite <- Z.mul_assoc, <- Z.pow_add_r by (unfold ez; lia).
    do 2 f_equal. lia. }
  rewrite Ea, Eb.
  replace (a * 2 ^ (- ez) + b * 2 ^ (- ez)) with ((a + b) * 2 ^ (- ez))
    by ring.
  assert (HM : Zdigits2 ((a + b) * 2 ^ (- ez)) = ds - ez).
  { rewrite Zdigits2_shift by lia. fold ds. lia. }
  destruct ((a + b) * 2 ^ (- ez)) as [|p|p] eqn:EM; try nia.
  cbn [binary_normalize]. unfold binary_round.
  change (Zpos (digits2_pos p)) with (Zdigits2 (Zpos p)). rewrite HM.
  replace (ds - ez + ez) with ds by lia.
  assert (Hf : fexp prec emax ds = ds - 53) by (rewrite fexp_eq; lia).
  rewrite Hf.
  assert (Hal : shl_align p ez (ds - 53) = (p, ez)).
  { unfold shl_align.
    destruct (ds - 53 - ez) as [|q|q] eqn:Eq; try reflexivity.
    unfold ez in Eq. lia. }
  rewrite Hal, <- EM.
  apply round_aux_int; [lia | fold ds; unfold ez; lia].
Qed.

End F64Int.

(** ** The range of the damage score *)

Module F64Score.

Import F64 F64Facts F64Magnitude F64Sign F64Round F64Div F64Order F64Int.
Local Open Scope Z_scope.
Local Unset Implicit Arguments.

(** A quotient of integers that is at most 100 is at most [100.0]. *)
Lemma SFdiv_int_le_100 (W T : Z) :
  0 <= W < 2 ^ 53 -> 0 < T < 2 ^ 53 -> W <= 100 * T ->
  SFleb (SF64div (int_rep W) (int_rep T))
    (S754_finite false 7036874417766400 (-46)) = true.
Proof.
  intros HW HT Hle. rewrite (int_rep_pos T) by lia.
  destruct (Z.eq_dec W 0) as [->|HW0]; [reflexivity|].
  rewrite (int_rep_pos W) by lia.
  destruct (digits_53 W ltac:(lia)) as [Hw1 Hw2].
  destruct (digits_53 T HT) as [Ht1 Ht2].
  apply SFdiv_le with (c := -200).
  - reflexivity.
  - vm_compute. discriminate.
  - lia.
  - lia.
  - rewrite !int_rep_mantissa by lia.
    set (dw := Zdigits2 W) in *. set (dt := Zdigits2 T) in *.
    assert (E1 : W * 2 ^ (53 - dw) * 2 ^ (dw - 53 - -200) = W * 2 ^ 200).
    { rewrite <- Z.mul_assoc, <- Z.pow_add_r by lia. do 2 f_equal. lia. }
    assert (E2 : 7036874417766400 * (T * 2 ^ (53 - dt))
                 * 2 ^ (-46 + (dt - 53) - -200) = 100 * T * 2 ^ 200).
    { change 7036874417766400 with (100 * 2 ^ 46).
      replace (100 * 2 ^ 46 * (T * 2 ^ (53 - dt))
               * 2 ^ (-46 + (dt - 53) - -200))
        with (100 * T * (2 ^ 46 * (2 ^ (53 - dt)
                                   * 2 ^ (-46 + (dt - 53) - -200))))
        by ring.
      rewrite <- !Z.pow_add_r by lia. do 2 f_equal. lia. }
    rewrite E1, E2. apply Z.mul_le_mono_nonneg_r; [|lia].
    apply Z.pow_nonneg. lia.
Qed.

(** Rounding halves to even does not pass an integer bound. *)
Lemma round_half_even_le (m : positive) (e B : Z) :
  e <= 0 -> Zpos m <= B * 2 ^ (- e) -> round_half_even m e <= B.
Proof.
  intros He Hm. unfold round_half_even. destruct e as [|p|p]; try lia.
  rewrite Z.pow_pos_fold.
  change (- Zneg p) with (Zpos p) in Hm.
  pose proof (pow2_pos (Zpos p) ltac:(lia)) as Hd.
  pose proof (Z_div_mod_eq_full (Zpos m) (2 ^ Zpos p)) as Hdiv.
  pose proof (Z.mod_pos_bound (Zpos m) (2 ^ Zpos p) Hd) as Hr.
  set (q := Zpos m / 2 ^ Zpos p) in *.
  set (r := Zpos m mod 2 ^ Zpos p) in *.
  assert (Hq : q <= B) by nia.
  destruct (Z.eq_dec q B) as [Hqb|Hqb].
  - assert (r = 0) by nia.
    replace (2 * r ?= 2 ^ Zpos p) with Lt; [lia|].
    symmetry. apply Z.compare_lt_iff. lia.
  - destruct (2 * r ?= 2 ^ Zpos p); try destruct (Z.even q); lia.
Qed.

End F64Score.

(** Rounding to two decimals keeps a score within [0, 100]. *)
Lemma round_ndigits_le_100 (x : float) :
  (0 <=? x) = true -> (x <=? 100) = true ->
  (round_ndigits x 2 <=? 100) = true.
Proof.
  intros H0 H100. unfold round_ndigits. pose proof (Prim2SF_valid x) as Vx.
  pose proof H100 as H100'. rewrite leb_spec in H0, H100'.
  change (Prim2SF 0) with (S754_zero false) in H0.
  change (Prim2SF 100)
    with (S754_finite false 7036874417766400 (-46)) in H100'.
  destruct (Prim2SF x) as [s|s| |s m e] eqn:E; try exact H100.
  destruct s; [discriminate|].
  destruct (F64Order.valid_canonical _ _ _ Vx) as [Kx _].
  destruct (F64Order.SFleb_value m 7036874417766400 e (-46) Kx eq_refl H100')
    as [He Hm].
  change (Pos.pow 10 (Pos.of_nat 2)) with 100%positive. cbv iota.
  pose proof (round_half_even_nonneg (m * 100) e) as Hn0.
  assert (Hn : (round_half_even (m * 100) e <= 10000)%Z).
  { apply F64Score.round_half_even_le; [lia|].
    rewrite Pos2Z.inj_mul.
    assert (Hp : (7036874417766400 * 2 ^ (-46 - e) * 100
                  = 10000 * 2 ^ (- e))%Z).
    { change 7036874417766400%Z with (100 * 2 ^ 46)%Z.
      replace (- e)%Z with (46 + (-46 - e))%Z by lia.
      rewrite Z.pow_add_r by lia. ring. }
    rewrite <- Hp. apply Z.mul_le_mono_nonneg_r; lia. }
  destruct (round_half_even (m * 100) e) as [|n|n]; [reflexivity | | lia].
  rewrite leb_spec, Prim2SF_SF2Prim by apply F64Div.SFdiv_valid.
  change (Prim2SF 100) with (S754_finite false 7036874417766400 (-46)).
  apply F64Order.SFdiv_le with (c := (-46)%Z).
  - reflexivity.
  - vm_compute. discriminate.
  - lia.
  - lia.
  - change (2 ^ (0 - -46))%Z with 70368744177664%Z.
    change (2 ^ (-46 + 0 - -46))%Z with 1%Z. lia.
Qed.

Lemma sum_values_cons (k : string) (v : Z) (d : list (string * Z)) :
  sum_values ((k, v) :: d) = (v + sum_values d)%Z.
Proof.
  unfold sum_values. cbn [map snd fold_left].
  assert (H : forall l a, fold_left Z.add l a = (a + fold_left Z.add l 0)%Z).
  { induction l as [|z l IH]; intros a; cbn [fold_left]; [lia|].
    rewrite (IH (a + z)%Z), (IH (0 + z)%Z). lia. }
  rewrite (H _ (0 + v)%Z). lia.
Qed.

Lemma sum_values_nonneg (d : list (string * Z)) :
  Forall (fun kc => (0 <= snd kc)%Z) d -> (0 <= sum_values d)%Z.
Proof.
  induction 1 as [|[k v] d Hv _ IH]; [unfold sum_values; cbn; lia|].
  rewrite sum_values_cons. cbn [snd] in Hv. lia.
Qed.

(** The counts of the four categories are counts of different keys: their
    sum is at most the sum of all the counts. *)
Lemma categories_le_total (counts : list (string * Z)) :
  Forall (fun kc => (0 <= snd kc)%Z) counts ->
  (0 <= dict_get counts "no_damage" 0 /\
   0 <= dict_get counts "minor_damage" 0 /\
   0 <= dict_get counts "major_damage" 0 /\
   0 <= dict_get counts "destroyed" 0 /\
   dict_get counts "no_damage" 0 + dict_get counts "minor_damage" 0
   + dict_get counts "major_damage" 0 + dict_get counts "destroyed" 0
   <= sum_values counts)%Z.
Proof.
  induction 1 as [|[k v] d Hv Hd IH].
  - unfold sum_values. cbn. lia.
  - rewrite sum_values_cons. cbn [dict_get]. cbn [snd] in Hv.
    pose proof (sum_values_nonneg Hd) as Hs.
    destruct (String.eqb_spec k "no_damage") as [E0|N0];
      destruct (String.eqb_spec k "minor_damage") as [E1|N1];
      destruct (String.eqb_spec k "major_damage") as [E2|N2];
      destruct (String.eqb_spec k "destroyed") as [E3|N3];
      try (exfalso; congruence); lia.
Qed.

(** One round of the loop over [damage_weights], on integers. *)
Lemma weighted_sum_step_int (weighted_sum weight : float)
    (A pixel_count w : Z) :
  Prim2SF weighted_sum = int_rep A -> Prim2SF weight = int_rep w ->
  (0 <= A)%Z -> (0 <= pixel_count)%Z -> (0 <= w)%Z ->
  (pixel_count < 2 ^ 53)%Z -> (A + pixel_count * w < 2 ^ 53)%Z ->
  exists c,
    int_to_float pixel_count = Ok c /\
    Prim2SF (weighted_sum + c * weight) = int_rep (A + pixel_count * w).
Proof.
  intros Hws Hw HA Hc Hw0 Hc53 Hsum.
  destruct (int_to_float_word pixel_count) as (c & Hconv & _); [lia|].
  exists c. split; [exact Hconv|].
  apply int_to_float_spec in Hconv. destruct Hconv as [Hconv _].
  rewrite F64Int.binary_normalize_int in Hconv by lia.
  rewrite add_spec, mul_spec, Hws, Hw, Hconv.
  rewrite F64Int.SFmul_int by nia. apply F64Int.SFadd_int; nia.
Qed.

(** For pixel counts that are not negative and sum to less than [2 ^ 46],
    every step of the function is exact until the division, and the score
    lies in [0, 100]: it is a damage score of the data model. *)
Theorem damage_score_in_range (counts : list (string * Z)) :
  Forall (fun kc => (0 <= snd kc)%Z) counts ->
  (sum_values counts < 2 ^ 46)%Z ->
  exists score,
    _calculate_damage_score counts = Ok score /\ damage_in_range score.
Proof.
  intros Hc Hsum. unfold _calculate_damage_score.
  destruct (Z.eqb_spec (sum_values counts) 0) as [_|Hne].
  { exists 0. split; [reflexivity | split; reflexivity]. }
  destruct (categories_le_total Hc) as (H0 & H1 & H2 & H3 & Hle).
  set (T := sum_values counts) in *.
  set (c0 := dict_get counts "no_damage" 0%Z) in *.
  set (c1 := dict_get counts "minor_damage" 0%Z) in *.
  set (c2 := dict_get counts "major_damage" 0%Z) in *.
  set (c3 := dict_get counts "destroyed" 0%Z) in *.
  assert (HT : (0 < T < 2 ^ 46)%Z) by lia.
  assert (H46 : (100 * 2 ^ 46 < 2 ^ 53)%Z) by (vm_compute; reflexivity).
  cbn [foldM damage_weights fst snd]. fold c0 c1 c2 c3.
  destruct (@weighted_sum_step_int 0 0 0 c0 0) as (f0 & -> & E0);
    try reflexivity; try lia.
  cbn [bind].
  destruct (@weighted_sum_step_int (0 + f0 * 0) 25 (0 + c0 * 0) c1 25 E0)
    as (f1 & -> & E1); try reflexivity; try lia.
  cbn [bind].
  destruct (@weighted_sum_step_int (0 + f0 * 0 + f1 * 25) 75
              (0 + c0 * 0 + c1 * 25) c2 75 E1)
    as (f2 & -> & E2); try reflexivity; try lia.
  cbn [bind].
  destruct (@weighted_sum_step_int (0 + f0 * 0 + f1 * 25 + f2 * 75) 100
              (0 + c0 * 0 + c1 * 25 + c2 * 75) c3 100 E2)
    as (f3 & -> & E3); try reflexivity; try lia.
  cbn [bind].
  set (ws := 0 + f0 * 0 + f1 * 25 + f2 * 75 + f3 * 100) in *.
  set (W := (0 + c0 * 0 + c1 * 25 + c2 * 75 + c3 * 100)%Z) in *.
  assert (HW : (0 <= W <= 100 * T)%Z) by (unfold W; lia).
  destruct (int_to_float_word T) as (t & Ht & _); [lia|].
  rewrite Ht. cbn [bind].
  destruct (int_to_float_nonzero Hne Ht) as (mt & et & Et).
  unfold truediv. rewrite (finite_not_zero _ Et). cbn [bind].
  apply int_to_float_spec in Ht. destruct Ht as [Ht _].
  rewrite F64Int.binary_normalize_int in Ht by lia.
  assert (Hq100 : (ws / t <=? 100) = true).
  { rewrite leb_spec, div_spec, E3, Ht.
    change (Prim2SF 100) with (S754_finite false 7036874417766400 (-46)).
    apply F64Score.SFdiv_int_le_100; lia. }
  assert (Hq0 : (0 <=? ws / t) = true).
  { rewrite leb_spec, div_spec, E3, Ht.
    change (Prim2SF 0) with (S754_zero false).
    rewrite (F64Int.int_rep_pos T) by lia.
    eapply SFdiv_nonneg; [|reflexivity].
    destruct W; try lia; reflexivity. }
  eexists. split; [reflexivity|]. split.
  - apply round_ndigits_nonneg. exact Hq0.
  - apply round_ndigits_le_100; assumption.
Qed.

(** Ten undamaged building pixels, three with minor damage, seven with
    major damage, one destroyed, among a thousand others. *)
Lemma damage_score_in_range_demo :
  exists score,
    _calculate_damage_score
      [("background", 1000); ("no_damage", 10); ("minor_damage", 3);
       ("major_damage", 7); ("destroyed", 1)]%string%Z = Ok score /\
    damage_in_range score.
Proof.
  apply damage_score_in_range.
  - repeat (constructor; [cbn; lia|]). constructor.
  - vm_compute. reflexivity.
Defined.

(** ** The percentages of a prediction *)

(** The background percentage, for [px] background pixels among the
    [total] of the prediction, lies in [0, 100] (for a total below
    [2 ^ 46]); a prediction with no pixel raises [ZeroDivisionError]. *)
Theorem stats_percent_in_range (px total : Z) :
  (0 <= px <= total)%Z -> (total < 2 ^ 46)%Z ->
  (total = 0%Z -> stats_percent px total = Raise ZeroDivisionError) /\
  ((0 < total)%Z ->
   exists percent,
     stats_percent px total = Ok percent /\
     (0 <=? percent) = true /\ (percent <=? 100) = true).
Proof.
  intros Hpx Htot. unfold stats_percent. split.
  - intros ->. assert (px = 0%Z) by lia. subst px.
    rewrite int_to_float_zero. reflexivity.
  - intros Hpos.
    destruct (int_to_float_word px) as (fpx & Hfpx & _); [lia|].
    destruct (int_to_float_word total) as (ft & Hft & _); [lia|].
    rewrite Hfpx, Hft. cbn [bind].
    destruct (@int_to_float_nonzero total ft ltac:(lia) Hft)
      as (mt & et & Et).
    unfold truediv. rewrite (finite_not_zero _ Et). cbn [bind].
    apply int_to_float_spec in Hfpx, Hft.
    destruct Hfpx as [Hfpx _]. destruct Hft as [Hft _].
    rewrite F64Int.binary_normalize_int in Hfpx, Hft by lia.
    assert (Hnum : Prim2SF (100 * fpx) = int_rep (100 * px)).
    { rewrite mul_spec, Hfpx.
      change (Prim2SF 100) with (int_rep 100).
      apply F64Int.SFmul_int; lia. }
    assert (H46 : (100 * 2 ^ 46 < 2 ^ 53)%Z) by (vm_compute; reflexivity).
    eexists. split; [reflexivity|].
    assert (Hq100 : (100 * fpx / ft <=? 100) = true).
    { rewrite leb_spec, div_spec, Hnum, Hft.
      change (Prim2SF 100) with (S754_finite false 7036874417766400 (-46)).
      apply F64Score.SFdiv_int_le_100; lia. }
    assert (Hq0 : (0 <=? 100 * fpx / ft) = true).
    { rewrite leb_spec, div_spec, Hnum, Hft.
      change (Prim2SF 0) with (S754_zero false).
      rewrite (F64Int.int_rep_pos total) by lia.
      eapply SFdiv_nonneg; [|reflexivity].
      destruct (100 * px)%Z; try lia; reflexivity. }
    split.
    + apply round_ndigits_nonneg. exact Hq0.
    + apply round_ndigits_le_100; assumption.
Qed.

(** A third of a 256 by 256 prediction. *)
Lemma stats_percent_in_range_demo :
  exists percent,
    stats_percent 21845 65536%Z = Ok percent /\
    (0 <=? percent) = true /\ (percent <=? 100) = true.
Proof.
  assert (Hpx : (0 <= 21845 <= 65536)%Z) by lia.
  assert (Htot : (65536 < 2 ^ 46)%Z) by (vm_compute; reflexivity).
  apply (proj2 (@stats_percent_in_range 21845 65536 Hpx Htot)).
  lia.
Defined.

Module F64Exact.

Import F64 F64Facts F64Magnitude F64Sign F64Round F64Div F64Order F64Int.
Local Open Scope Z_scope.
Local Unset Implicit Arguments.

(** An integer quotient of integers is computed exactly. *)
Lemma SFdiv_int_exact (V T : Z) :
  0 < V -> 0 < T -> V * T < 2 ^ 53 ->
  SF64div (int_rep (V * T)) (int_rep T) = int_rep V.
Proof.
  intros HV HT HVT.
  assert (HV53 : 0 < V < 2 ^ 53) by nia.
  assert (HT53 : 0 < T < 2 ^ 53) by nia.
  assert (HW53 : 0 < V * T < 2 ^ 53) by nia.
  rewrite (int_rep_pos (V * T)), (int_rep_pos T), (int_rep_pos V) by lia.
  cbn [SF64div SFdiv xorb].
  pose proof (div_core_spec (Z.to_pos (V * T * 2 ^ (53 - Zdigits2 (V * T))))
                (Z.to_pos (T * 2 ^ (53 - Zdigits2 T)))
                (Zdigits2 (V * T) - 53) (Zdigits2 T - 53)) as Hs.
  pose proof (div_core_exp (Z.to_pos (V * T * 2 ^ (53 - Zdigits2 (V * T))))
                (Z.to_pos (T * 2 ^ (53 - Zdigits2 T)))
                (Zdigits2 (V * T) - 53) (Zdigits2 T - 53)) as He.
  destruct (SFdiv_core_binary prec emax _ _ _ _) as [[q e'] l].
  destruct Hs as (s & r & Hs0 & Ee' & Hdiv & Hr & Hl & Hq & _).
  rewrite (int_rep_mantissa (V * T)), (int_rep_mantissa T) in Hdiv
    by assumption.
  rewrite (int_rep_mantissa T) in Hr by assumption.
  destruct (digits_53 V HV53) as [Hv1 Hv2].
  destruct (digits_53 T HT53) as [Ht1 Ht2].
  destruct (digits_53 (V * T) HW53) as [Hw1 Hw2].
  pose proof (Zdigits2_mul V T HV HT) as Hmul.
  assert (HdM : Zpos (digits2_pos (Z.to_pos
                  (V * T * 2 ^ (53 - Zdigits2 (V * T))))) = 53).
  { change (Zpos (digits2_pos ?p)) with (Zdigits2 (Zpos p)).
    rewrite int_rep_mantissa, Zdigits2_shift by lia. lia. }
  assert (HdT : Zpos (digits2_pos (Z.to_pos
                  (T * 2 ^ (53 - Zdigits2 T)))) = 53).
  { change (Zpos (digits2_pos ?p)) with (Zdigits2 (Zpos p)).
    rewrite int_rep_mantissa, Zdigits2_shift by lia. lia. }
  rewrite HdM, HdT, fexp_eq in He.
  set (dw := Zdigits2 (V * T)) in *. set (dt := Zdigits2 T) in *.
  set (dv := Zdigits2 V) in *.
  assert (He0 : e' <= dv - 53) by lia.
  pose proof (pow2_pos (53 - dw) ltac:(lia)) as P1.
  pose proof (pow2_pos (53 - dt) ltac:(lia)) as P2.
  pose proof (pow2_pos s Hs0) as P3.
  pose proof (pow2_pos (- e') ltac:(lia)) as P4.
  assert (Hpow : 2 ^ (53 - dw) * 2 ^ s = 2 ^ (53 - dt) * 2 ^ (- e')).
  { rewrite <- !Z.pow_add_r by lia. f_equal. lia. }
  assert (Hqr : q = V * 2 ^ (- e') /\ r = 0).
  { assert (E : V * T * 2 ^ (53 - dw) * 2 ^ s
                = T * 2 ^ (53 - dt) * (V * 2 ^ (- e')) + 0).
    { replace (V * T * 2 ^ (53 - dw) * 2 ^ s)
        with (V * T * (2 ^ (53 - dw) * 2 ^ s)) by ring.
      rewrite Hpow. ring. }
    rewrite E in Hdiv.
    apply Z.div_mod_unique in Hdiv; [|left; nia | left; exact Hr].
    destruct Hdiv as [<- <-]. split; reflexivity. }
  destruct Hqr as [-> ->]. rewrite Hl, new_location_zero.
  apply round_aux_int; [exact HV53 | exact He0].
Qed.

End F64Exact.

(** When every counted pixel is a destroyed one, the score is exactly
    100.0. *)
Theorem destroyed_buildings_score_hundred (counts : list (string * Z)) :
  Forall (fun kc => (0 <= snd kc)%Z) counts ->
  dict_get counts "destroyed" 0%Z = sum_values counts ->
  (0 < sum_values counts < 2 ^ 46)%Z ->
  _calculate_damage_score counts = Ok 100.
Proof.
  intros Hc Hall Hsum. unfold _calculate_damage_score.
  destruct (Z.eqb_spec (sum_values counts) 0) as [|Hne]; [lia|].
  destruct (categories_le_total Hc) as (H0 & H1 & H2 & H3 & Hle).
  set (T := sum_values counts) in *.
  assert (E0 : dict_get counts "no_damage" 0%Z = 0%Z) by lia.
  assert (E1 : dict_get counts "minor_damage" 0%Z = 0%Z) by lia.
  assert (E2 : dict_get counts "major_damage" 0%Z = 0%Z) by lia.
  cbn [foldM damage_weights fst snd].
  rewrite E0, E1, E2, Hall, int_to_float_zero. cbn [bind].
  destruct (int_to_float_word T) as (t & Ht & _); [lia|].
  rewrite Ht. cbn [bind].
  destruct (int_to_float_nonzero Hne Ht) as (mt & et & Et).
  unfold truediv. rewrite (finite_not_zero _ Et). cbn [bind].
  apply int_to_float_spec in Ht. destruct Ht as [Ht _].
  rewrite F64Int.binary_normalize_int in Ht by lia.
  assert (H46 : (100 * 2 ^ 46 < 2 ^ 53)%Z) by (vm_compute; reflexivity).
  replace (0 + 0 * 0 + 0 * 25 + 0 * 75) with 0 by reflexivity.
  assert (Hq : (0 + t * 100) / t = 100).
  { apply Prim2SF_inj. rewrite div_spec, add_spec, mul_spec, Ht.
    change (Prim2SF 100) with (int_rep 100).
    change (Prim2SF 0) with (int_rep 0).
    rewrite F64Int.SFmul_int, F64Int.SFadd_int by lia.
    replace (0 + T * 100)%Z with (100 * T)%Z by lia.
    apply F64Exact.SFdiv_int_exact; lia. }
  rewrite Hq. reflexivity.
Qed.

(** Five destroyed pixels. *)
Lemma destroyed_buildings_score_hundred_demo :
  _calculate_damage_score [("destroyed"%string, 5%Z)] = Ok 100.
Proof.
  apply destroyed_buildings_score_hundred.
  - repeat (constructor; [cbn; lia|]). constructor.
  - reflexivity.
  - vm_compute. split; reflexivity.
Defined.
